(** * The MAS coordinator: scheduling, execution, round loop, session recovery

    A shallow embedding of [task/agent.py] ([MASCoordinator]) and
    [task/coordination/ums_agent.py] ([UMSAgentGateway]), and the properties
    of the orchestration engine proved over it.

    Python values are modelled as follows: [int] is [Z]; [str] is [string];
    [Optional[T]] is [option T]; a [dict] that is only indexed is a [gmap];
    the [results] dict of the executor, whose [values()] order is observable,
    is an insertion-ordered association list; an exception is a [PyExc]
    carrying its class and [str(e)]; code that may raise returns an
    [Outcome]; a value decoded by [json.loads] is a [Json], its [float] a
    binary64 number. *)

From Stdlib Require Import ZArith Ascii.
From Stdlib Require PrimFloat.
From stdpp Require Import gmap strings list sorting pretty.

Open Scope Z_scope.

(** ** Python exceptions and outcomes *)

(** The exception classes that the two modules can meet. [BaseOnly] stands for
    the classes that derive from [BaseException] but not from [Exception]
    (task cancellation, keyboard interrupt): [except Exception] lets them
    through. *)
Inductive ExcClass : Type :=
| KeyError
| ValueError
| TypeError
| IndexError
| OtherException
| BaseOnly.

Record PyExc : Type := mkExc {
  exc_class : ExcClass;
  exc_str : string  (* the text [str(e)] gives *)
}.

(** [isinstance(e, Exception)]. *)
Definition is_Exception (e : PyExc) : bool :=
  match exc_class e with
  | BaseOnly => false
  | _ => true
  end.

(** What running a piece of code gives: a value, a raised exception, or
    [OutOfFuel] when a [while] loop of the model used up its iteration budget.
    The budgets are shown to be enough ([sort_returns], [round_loop_bound]),
    so the last case is never the outcome of a modelled method. *)
Inductive Outcome (A : Type) : Type :=
| Ok (a : A)
| Raise (e : PyExc)
| OutOfFuel.
Arguments Ok {A} a.
Arguments Raise {A} e.
Arguments OutOfFuel {A}.

#[global] Instance outcome_ret : MRet Outcome := fun A a => Ok a.
#[global] Instance outcome_bind : MBind Outcome := fun A B f m =>
  match m with
  | Ok a => f a
  | Raise e => Raise e
  | OutOfFuel => OutOfFuel
  end.

(** [d[k]] on a dict with integer keys: [KeyError(k)] when the key is absent;
    [str(KeyError(k))] is [repr(k)]. *)
Definition getitem {V : Type} (d : gmap Z V) (k : Z) : Outcome V :=
  match d !! k with
  | Some v => Ok v
  | None => Raise (mkExc KeyError (pretty k))
  end.

(** ** Data model ([task.models]) *)

(** Modelled from the spec: [task.models] is not part of the sources at hand.
    The coordinator compares [agent_name] with [AgentName.GPA] and
    [AgentName.UMS] and has an [else] branch for anything else; [OtherAgent]
    stands for any further member and carries the text that formatting it
    gives. *)
Inductive AgentName : Type :=
| GPA
| UMS
| OtherAgent (shown : string).

(** Modelled from the spec: the four models of section 3, with the fields the
    coordinator reads and writes. *)
Record Subtask : Type := mkSubtask {
  task_id : Z;
  agent_name : AgentName;
  task_description : string;
  depends_on : option Z
}.

Record AgentResult : Type := mkAgentResult {
  ar_task_id : Z;
  ar_agent_name : AgentName;
  content : string;
  success : bool;
  error : option string
}.

Record TaskResult : Type := mkTaskResult {
  task : Subtask;
  agent_result : AgentResult
}.

Record TaskDecomposition : Type := mkTaskDecomposition {
  subtasks : list Subtask;
  stop : bool
}.

(** ** The dependency scheduler ([MASCoordinator._topological_sort]) *)

(** [{subtask.task_id: v for subtask in subtasks}] *)
Definition dict_of_ids {V : Type} (v : V) (sts : list Subtask) : gmap Z V :=
  foldl (fun d st => <[task_id st := v]> d) ∅ sts.

(** The first [for] loop (lines 186-189): register every subtask with a
    dependency as a child of that dependency and set its parent count to 1. *)
Fixpoint link (sts : list Subtask) (children : gmap Z (list Z))
    (parent_count : gmap Z Z) : Outcome (gmap Z (list Z) * gmap Z Z) :=
  match sts with
  | [] => Ok (children, parent_count)
  | st :: rest =>
      match depends_on st with
      | None => link rest children parent_count
      | Some d =>
          l ← getitem children d;
          link rest (<[d := l ++ [task_id st]]> children)
                    (<[task_id st := 1]> parent_count)
      end
  end.

(** [[st.task_id for st in subtasks if parent_count[st.task_id] == 0]] *)
Fixpoint ready (sts : list Subtask) (parent_count : gmap Z Z)
    : Outcome (list Z) :=
  match sts with
  | [] => Ok []
  | st :: rest =>
      n ← getitem parent_count (task_id st);
      q ← ready rest parent_count;
      Ok (if n =? 0 then task_id st :: q else q)
  end.

(** The inner [for child_id in sorted(children[task_id])] loop. *)
Fixpoint release (cs : list Z) (parent_count : gmap Z Z) (queue : list Z)
    : Outcome (gmap Z Z * list Z) :=
  match cs with
  | [] => Ok (parent_count, queue)
  | child_id :: cs =>
      n ← getitem parent_count child_id;
      let parent_count := <[child_id := n - 1]> parent_count in
      if n - 1 =? 0
      then release cs parent_count (queue ++ [child_id])
      else release cs parent_count queue
  end.

(** The [while queue:] loop. Every iteration pops the head of the queue; the
    iteration budget [fuel] is checked only when the queue is not empty. *)
Fixpoint sort_loop (fuel : nat) (children : gmap Z (list Z))
    (queue result : list Z) (parent_count : gmap Z Z) : Outcome (list Z) :=
  match queue with
  | [] => Ok result
  | task_id :: queue =>
      match fuel with
      | O => OutOfFuel
      | S fuel =>
          cs ← getitem children task_id;
          '(parent_count, queue) ← release (merge_sort Z.le cs) parent_count queue;
          sort_loop fuel children queue (result ++ [task_id]) parent_count
      end
  end.

Definition _topological_sort (sts : list Subtask) : Outcome (list Z) :=
  let children := dict_of_ids [] sts in
  let parent_count := dict_of_ids 0 sts in
  '(children, parent_count) ← link sts children parent_count;
  queue ← ready sts parent_count;
  sort_loop (length sts) children queue [] parent_count.

(** [{subtask.task_id: subtask for subtask in subtasks}] *)
Definition subtasks_by_id (sts : list Subtask) : gmap Z Subtask :=
  foldl (fun d st => <[task_id st := st]> d) ∅ sts.

(** *** The dependency graph of a list of subtasks *)

(** The task ids, in list order. *)
Definition ids (sts : list Subtask) : list Z := task_id <$> sts.

(** Task [k] declares a dependency on task [p]. *)
Definition depends (sts : list Subtask) (k p : Z) : Prop :=
  ∃ s, s ∈ sts ∧ task_id s = k ∧ depends_on s = Some p.

(** Task [k] declares no dependency. *)
Definition is_root (sts : list Subtask) (k : Z) : Prop :=
  ∃ s, s ∈ sts ∧ task_id s = k ∧ depends_on s = None.

(** The chain of dependencies of a task ends in a task without dependency.
    These are the tasks whose count of unresolved dependencies is zero at the
    start or reaches zero. *)
Inductive grounded (sts : list Subtask) : Z → Prop :=
| grounded_root k : is_root sts k → grounded sts k
| grounded_child k p : depends sts k p → grounded sts p → grounded sts k.

(** Every [depends_on] names a task of the list. *)
Definition closed (sts : list Subtask) : Prop :=
  ∀ k p, depends sts k p → p ∈ ids sts.

(** The value of [children[k]] after the first loop: the tasks that depend on
    [k], in list order. *)
Definition kids (sts : list Subtask) (k : Z) : list Z :=
  task_id <$> filter (λ s, depends_on s = Some k) sts.

(** The ids of the entries that declare a dependency. *)
Definition dependents (sts : list Subtask) : list Z :=
  task_id <$> filter (λ s, is_Some (depends_on s)) sts.

(** The invariant of the [while queue:] loop on a list with unique ids and
    in-set dependencies: no task is queued or output twice, the tasks without
    dependency and the tasks whose parent is output are queued or output, the
    others still wait with a count of 1, and a parent is output before its
    child. *)
Record sort_inv (sts : list Subtask) (queue result : list Z) (pc : gmap Z Z)
    : Prop := {
  inv_nodup : NoDup (result ++ queue);
  inv_ids : ∀ k, k ∈ result ++ queue → k ∈ ids sts;
  inv_roots : ∀ k, is_root sts k → k ∈ result ++ queue;
  inv_released : ∀ k p, depends sts k p → p ∈ result → k ∈ result ++ queue;
  inv_waiting : ∀ k p,
    depends sts k p → p ∉ result → pc !! k = Some 1 ∧ k ∉ result ++ queue;
  inv_order : ∀ k p j,
    depends sts k p → result !! j = Some k →
    ∃ i, (i < j)%nat ∧ result !! i = Some p
}.

(** [enqueued] lists the tasks that the inner loop has put on the queue so
    far: each was waiting for one parent, and its count is used up. *)
Record enqueued_inv (sts : list Subtask) (pc : gmap Z Z) (enqueued : list Z)
    : Prop := {
  enq_nodup : NoDup enqueued;
  enq_dependents : ∀ k, k ∈ enqueued → k ∈ dependents sts;
  enq_used : ∀ k, k ∈ enqueued → ∃ v, pc !! k = Some v ∧ v ≤ 0;
  enq_bound : ∀ k v, pc !! k = Some v → v ≤ 1 ∧ (v = 1 → k ∈ dependents sts)
}.


(** ** Messages and persisted state ([aidial_sdk.chat_completion]) *)

Inductive Role : Type := SYSTEM | USER | ASSISTANT.

(** A value stored in a message's or a choice's state dict
    ([dict[str, Any]]): [None], an integer, a string, or a list of
    backend-native fragments (each fragment opaque, kept as text). The
    integers stand for the values that cannot be iterated. *)
Inductive StateValue : Type :=
| SNone
| SInt (z : Z)
| SStr (s : string)
| SList (l : list string).

(** Python truthiness of such a value. *)
Definition truthy (v : StateValue) : bool :=
  match v with
  | SNone => false
  | SInt z => negb (z =? 0)
  | SStr s => negb (String.eqb s "")
  | SList l => negb (bool_decide (l = []))
  end.

Record CustomContent : Type := mkCustomContent {
  state : option (gmap string StateValue)
}.

Record Message : Type := mkMessage {
  msg_role : Role;
  msg_content : string;
  custom_content : option CustomContent
}.

Record Request : Type := mkRequest {
  messages : list Message
}.

(** [state.get(key)] *)
Definition state_get (d : gmap string StateValue) (key : string) : StateValue :=
  default SNone (d !! key).

(** The dict [msg.custom_content.state] when
    [msg.custom_content and msg.custom_content.state] is truthy: the custom
    content is there and its state is a dict that is not empty. *)
Definition truthy_state (msg : Message) : option (gmap string StateValue) :=
  match custom_content msg with
  | None => None
  | Some cc =>
      match state cc with
      | None => None
      | Some d => if bool_decide (d = ∅) then None else Some d
      end
  end.

(** ** Python calls by keyword *)

(** The values the coordinator passes to a gateway. *)
Inductive PyArg : Type :=
| ArgChoice
| ArgStage
| ArgRequest (r : Request)
| ArgStr (s : string)
| ArgValue (v : StateValue).

Definition kwarg (kwargs : list (string * PyArg)) (name : string) : option PyArg :=
  snd <$> List.find (fun kv => String.eqb (fst kv) name) kwargs.

(** Binding the keywords of a call [f(k1=v1, ...)] to the parameters of a
    function without defaults and without [**kwargs]: the first keyword, in
    call order, that names no parameter raises [TypeError]; after that, so
    does a parameter that received no value (the text of this second error
    is shortened to the first such parameter). *)
Definition bind_keywords (qualname : string) (params : list string)
    (kwargs : list (string * PyArg)) : Outcome unit :=
  match List.find (fun kv => negb (bool_decide (fst kv ∈ params))) kwargs with
  | Some kv =>
      Raise (mkExc TypeError
        (qualname ++ "() got an unexpected keyword argument '" ++ fst kv ++ "'"))
  | None =>
      match List.find (fun p => negb (bool_decide (p ∈ kwargs.*1))) params with
      | Some p =>
          Raise (mkExc TypeError
            (qualname ++ "() missing required positional argument: '" ++ p ++ "'"))
      | None => Ok ()
      end
  end.

(** ** The executor's [results] dict: insertion order is kept *)

Fixpoint dict_set {V : Type} (d : list (Z * V)) (k : Z) (v : V) : list (Z * V) :=
  match d with
  | [] => [(k, v)]
  | (k', v') :: d' =>
      if decide (k' = k) then (k, v) :: d' else (k', v') :: dict_set d' k v
  end.

Fixpoint dict_lookup {V : Type} (d : list (Z * V)) (k : Z) : option V :=
  match d with
  | [] => None
  | (k', v') :: d' => if decide (k' = k) then Some v' else dict_lookup d' k
  end.

Definition dict_values {V : Type} (d : list (Z * V)) : list V := d.*2.

(** ** The world outside the coordinator *)

(** What an outbound call gives back. *)
Inductive Reply (A : Type) : Type :=
| Returns (a : A)
| Raises (e : PyExc).
Arguments Returns {A} a.
Arguments Raises {A} e.

(** The collaborators and backends, as functions of an abstract [World] that
    they may change; the constants of [task.constants] and pydantic's
    [model_dump_json] on a [TaskResult] are taken as they come.

    Modelled from the spec: [task.coordination.gpa] is not part of the
    sources at hand; by section 5 a gateway receives the session state and
    never mutates the engine's own, so [gpa_response] reads the fragment list
    and leaves it alone.

    [decompose_call] is the body of [_decompose_task] (prompt, collaborator
    call, parsing and validation of the structured output), [aggregate_call]
    that of [_aggregate_results] (prompt, streaming call, accumulation of the
    chunks); the two HTTP calls of the UMS gateway are
    [create_ums_conversation] and [call_ums_agent]. *)
Class Backends : Type := {
  World : Type;
  UMS_CONVERSATION_ID : string;
  GPA_MESSAGES : string;
  model_dump_json : TaskResult -> string;
  decompose_call : Request -> list TaskResult -> World -> Reply TaskDecomposition * World;
  aggregate_call : Request -> list TaskResult -> World -> Reply Message * World;
  gpa_response : Request -> string -> list string -> World -> Reply Message * World;
  create_ums_conversation : World -> Reply string * World;
  call_ums_agent : StateValue -> string -> World -> Reply string * World
}.

(** The outbound calls, in the order they were made. *)
Inductive Event : Type :=
| Decomposed (previous_results : list TaskResult)
| CalledGPA (instruction : string)
| CreatedUMSConversation
| CalledUMS (conversation_id : StateValue) (user_message : string)
| Aggregated (task_results : list TaskResult).

Definition is_Decomposed (ev : Event) : bool :=
  match ev with Decomposed _ => true | _ => false end.

Definition is_gateway_call (ev : Event) : bool :=
  match ev with
  | CalledGPA _ | CreatedUMSConversation | CalledUMS _ _ => true
  | _ => false
  end.

Definition is_CreatedUMSConversation (ev : Event) : bool :=
  match ev with CreatedUMSConversation => true | _ => false end.

(** [_UMS_CONVERSATION_ID] of [ums_agent.py] *)
Definition _UMS_CONVERSATION_ID : string := "ums_conversation_id".

Definition nl : string := String "010"%char EmptyString.

(** [l[-1]] *)
Definition last_item {A : Type} (l : list A) : Outcome A :=
  match last l with
  | Some a => Ok a
  | None => Raise (mkExc IndexError "list index out of range")
  end.

(** [state[key]]; [str(KeyError(key))] is [repr(key)]. *)
Definition state_getitem (d : gmap string StateValue) (key : string)
    : Outcome StateValue :=
  match d !! key with
  | Some v => Ok v
  | None => Raise (mkExc KeyError ("'" ++ key ++ "'"))
  end.

(** The items [list.extend(v)] appends: those of a list, the characters of a
    string; [None] and an integer cannot be iterated. *)
Definition iterate (v : StateValue) : Outcome (list string) :=
  match v with
  | SList l => Ok l
  | SStr s => Ok ((fun c => String c EmptyString) <$> String.list_ascii_of_string s)
  | SInt _ => Raise (mkExc TypeError "'int' object is not iterable")
  | SNone => Raise (mkExc TypeError "'NoneType' object is not iterable")
  end.

(** [ValueError(f"Unknown agent: {agent_name}")] *)
Definition unknown_agent_error (shown : string) : PyExc :=
  mkExc ValueError ("Unknown agent: " ++ shown).

(** The identifier that a message of the history carries in its state, [None]
    when it carries none. *)
Definition persisted_id (msg : Message) : StateValue :=
  match truthy_state msg with
  | Some d => state_get d _UMS_CONVERSATION_ID
  | None => SNone
  end.

(** [max_task_calls] of [handle_request] *)
Definition max_task_calls : Z := 10.

(** The parameters of [UMSAgentGateway.response], [self] apart. *)
Definition response_params : list string :=
  ["choice"; "stage"; "request"; "additional_instructions"].

(** [UMSAgentGateway.__get_ums_conversation_id]: the first message, in
    history order, whose state holds a truthy identifier decides. *)
Fixpoint scan_history (msgs : list Message) : StateValue :=
  match msgs with
  | [] => SNone
  | msg :: rest =>
      match truthy_state msg with
      | Some d =>
          let ums_conversation_id := state_get d _UMS_CONVERSATION_ID in
          if truthy ums_conversation_id then ums_conversation_id
          else scan_history rest
      | None => scan_history rest
      end
  end.

Definition __get_ums_conversation_id (request : Request) : StateValue :=
  scan_history (messages request).

(** The specification's reading of session recovery: the most recently
    persisted identifier, that is the one carried by the last message of the
    history that carries one. *)
Definition most_recently_persisted_id (request : Request) : StateValue :=
  scan_history (rev (messages request)).

Section Engine.
Context `{B : Backends}.

(** The coordinator object ([self]), the [choice] it writes to and the
    outside world. *)
Record Coordinator : Type := mkCoordinator {
  world : World;
  gpa_intermediate_state : list string;
  ums_conversation_id : StateValue;
  choice_state : option (gmap string StateValue);
  trace : list Event
}.

(** Methods run on the coordinator and may raise. A raise keeps the changes
    made so far. *)
Definition M (A : Type) : Type := Coordinator -> Outcome A * Coordinator.

#[export] Instance M_ret : MRet M := fun A a s => (Ok a, s).
#[export] Instance M_bind : MBind M := fun A C f m s =>
  match m s with
  | (Ok a, s') => f a s'
  | (Raise e, s') => (Raise e, s')
  | (OutOfFuel, s') => (OutOfFuel, s')
  end.

Definition lift {A : Type} (o : Outcome A) : M A := fun s => (o, s).

Definition raise {A : Type} (e : PyExc) : M A := lift (Raise e).

(** An outbound call: it is logged, then the world answers. *)
Definition outbound {A : Type} (ev : Event) (call : World -> Reply A * World)
    : M A := fun s =>
  let '(r, w) := call (world s) in
  let s' := mkCoordinator w (gpa_intermediate_state s) (ums_conversation_id s)
                          (choice_state s) (trace s ++ [ev]) in
  match r with
  | Returns a => (Ok a, s')
  | Raises e => (Raise e, s')
  end.

(** [try: body / except Exception as e: handler(e)] *)
Definition try_except {A : Type} (body : M A) (handler : PyExc -> M A) : M A :=
  fun s =>
    match body s with
    | (Raise e, s') => if is_Exception e then handler e s' else (Raise e, s')
    | r => r
    end.

Definition get_self : M Coordinator := fun s => (Ok s, s).

Definition set_ums_conversation_id (v : StateValue) : M unit := fun s =>
  (Ok (), mkCoordinator (world s) (gpa_intermediate_state s) v
                        (choice_state s) (trace s)).

Definition set_gpa_intermediate_state (l : list string) : M unit := fun s =>
  (Ok (), mkCoordinator (world s) l (ums_conversation_id s)
                        (choice_state s) (trace s)).

(** [choice.set_state(d)] *)
Definition set_state (d : gmap string StateValue) : M unit := fun s =>
  (Ok (), mkCoordinator (world s) (gpa_intermediate_state s)
                        (ums_conversation_id s) (Some d) (trace s)).

(** *** [UMSAgentGateway] *)

(** [__create_ums_conversation]: POST to the backend, the [id] of the reply. *)
Definition __create_ums_conversation : M string :=
  outbound CreatedUMSConversation create_ums_conversation.

(** [__call_ums_agent]: POST the message, accumulate the streamed content. *)
Definition __call_ums_agent (conversation_id : StateValue) (user_message : string)
    : M string :=
  outbound (CalledUMS conversation_id user_message)
           (call_ums_agent conversation_id user_message).

(** [UMSAgentGateway.response(self, choice, stage, request,
    additional_instructions)]; what is appended to the stage is presentation
    and left out. *)
Definition response (request : Request) (additional_instructions : option string)
    : M Message :=
  let ums_conversation_id := __get_ums_conversation_id request in
  ums_conversation_id ←
    (if negb (truthy ums_conversation_id)
     then new_id ← __create_ums_conversation; mret (SStr new_id)
     else mret ums_conversation_id);
  last_message ← lift (last_item (messages request));
  let user_message := msg_content last_message in
  let user_message :=
    match additional_instructions with
    | Some extra =>
        if negb (String.eqb extra "")
        then (user_message ++ nl ++ nl ++ extra)%string
        else user_message
    | None => user_message
    end in
  content ← __call_ums_agent ums_conversation_id user_message;
  _ ← set_state {[ _UMS_CONVERSATION_ID := ums_conversation_id ]};
  mret (mkMessage ASSISTANT content None).

(** A call of [response] by keyword. The body is reached only when the
    keywords bind to the parameters; it is modelled for a request and an
    optional string. *)
Definition call_response (kwargs : list (string * PyArg)) : M Message :=
  _ ← lift (bind_keywords "UMSAgentGateway.response" response_params kwargs);
  match kwarg kwargs "request", kwarg kwargs "additional_instructions" with
  | Some (ArgRequest request), Some (ArgStr extra) => response request (Some extra)
  | Some (ArgRequest request), Some (ArgValue SNone) => response request None
  | _, _ => raise (mkExc TypeError "argument of an unexpected type")
  end.

(** *** [MASCoordinator] *)

(** [_gather_context] *)
Definition _gather_context (subtask : Subtask) (results : list (Z * TaskResult))
    : option string :=
  match depends_on subtask with
  | None => None
  | Some dep =>
      match dict_lookup results dep with
      | Some r =>
          if success (agent_result r) then Some (model_dump_json r) else None
      | None => None
      end
  end.

(** The instruction [_call_agent] builds: the description, after the context
    and a separator when the context is a string that is not empty. *)
Definition instruction_of (task_description : string) (context : option string)
    : string :=
  match context with
  | Some c =>
      if negb (String.eqb c "")
      then (c ++ nl ++ nl ++ "---" ++ nl ++ nl ++ "Your Task: " ++ task_description)%string
      else task_description
  | None => task_description
  end.

(** [_call_agent] *)
Definition _call_agent (agent_name : AgentName) (task_description : string)
    (request : Request) (context : option string) : M Message :=
  let instruction := instruction_of task_description context in
  match agent_name with
  | GPA =>
      self ← get_self;
      outbound (CalledGPA instruction)
               (gpa_response request instruction (gpa_intermediate_state self))
  | UMS =>
      self ← get_self;
      call_response [("request", ArgRequest request);
                     ("stage", ArgStage);
                     ("task_description", ArgStr instruction);
                     ("ums_conversation_id", ArgValue (ums_conversation_id self))]
  | OtherAgent shown => raise (unknown_agent_error shown)
  end.

(** Lines 149-154: the state a gateway's message carries is merged into the
    coordinator. *)
Definition merge_state (message : Message) : M unit :=
  match truthy_state message with
  | Some d =>
      if truthy (state_get d UMS_CONVERSATION_ID) then
        v ← lift (state_getitem d UMS_CONVERSATION_ID);
        set_ums_conversation_id v
      else if truthy (state_get d GPA_MESSAGES) then
        v ← lift (state_getitem d GPA_MESSAGES);
        items ← lift (iterate v);
        self ← get_self;
        set_gpa_intermediate_state (gpa_intermediate_state self ++ items)
      else mret ()
  | None => mret ()
  end.

Definition succeeded (subtask : Subtask) (message : Message) : TaskResult :=
  mkTaskResult subtask
    (mkAgentResult (task_id subtask) (agent_name subtask)
                   (msg_content message) true None).

Definition failed (subtask : Subtask) (e : PyExc) : TaskResult :=
  mkTaskResult subtask
    (mkAgentResult (task_id subtask) (agent_name subtask)
                   "" false (Some (exc_str e))).

(** The body of the [for task_id in execution_order] loop. *)
Definition run_task (request : Request) (subtasks_by_id : gmap Z Subtask)
    (results : list (Z * TaskResult)) (tid : Z) : M (list (Z * TaskResult)) :=
  subtask ← lift (getitem subtasks_by_id tid);
  let context := _gather_context subtask results in
  try_except
    (message ← _call_agent (agent_name subtask) (task_description subtask)
                           request context;
     _ ← merge_state message;
     mret (dict_set results tid (succeeded subtask message)))
    (fun e => mret (dict_set results tid (failed subtask e))).

Fixpoint run_tasks (request : Request) (subtasks_by_id : gmap Z Subtask)
    (execution_order : list Z) (results : list (Z * TaskResult))
    : M (list (Z * TaskResult)) :=
  match execution_order with
  | [] => mret results
  | tid :: rest =>
      results ← run_task request subtasks_by_id results tid;
      run_tasks request subtasks_by_id rest results
  end.

(** [_execute_subtasks] *)
Definition _execute_subtasks (request : Request) (subtasks : list Subtask)
    : M (list TaskResult) :=
  let by_id := subtasks_by_id subtasks in
  execution_order ← lift (_topological_sort subtasks);
  results ← run_tasks request by_id execution_order [];
  mret (dict_values results).

(** [_decompose_task] and [_aggregate_results]: one outbound call each. *)
Definition _decompose_task (request : Request) (previous_results : list TaskResult)
    : M TaskDecomposition :=
  outbound (Decomposed previous_results) (decompose_call request previous_results).

Definition _aggregate_results (request : Request) (task_results : list TaskResult)
    : M Message :=
  outbound (Aggregated task_results) (aggregate_call request task_results).

(** The [while task_calls < max_task_calls] loop of [handle_request]. *)
Fixpoint round_loop (fuel : nat) (request : Request) (task_calls : Z)
    (task_results : list TaskResult) : M (list TaskResult) :=
  if task_calls <? max_task_calls then
    match fuel with
    | O => lift OutOfFuel
    | S fuel =>
        let task_calls := task_calls + 1 in
        task_decomposition ← _decompose_task request task_results;
        if bool_decide (subtasks task_decomposition = []) || stop task_decomposition
        then mret task_results
        else
          iteration_results ← _execute_subtasks request (subtasks task_decomposition);
          round_loop fuel request task_calls (task_results ++ iteration_results)
    end
  else mret task_results.

(** [handle_request] *)
Definition handle_request (request : Request) : M Message :=
  task_results ← round_loop (Z.to_nat max_task_calls) request 0 [];
  final_response ← _aggregate_results request task_results;
  self ← get_self;
  _ ← set_state (<[UMS_CONVERSATION_ID := ums_conversation_id self]>
                   {[ GPA_MESSAGES := SList (gpa_intermediate_state self) ]});
  mret final_response.

(** A coordinator as [__init__] leaves it. *)
Definition fresh (w : World) : Coordinator := mkCoordinator w [] SNone None [].

(** *** What a method may do to the trace *)

(** From [s] to [s'] only gateways were called. *)
Definition gateway_step (s s' : Coordinator) : Prop :=
  ∃ evs, trace s' = trace s ++ evs
         ∧ Forall (fun ev => is_gateway_call ev = true) evs.

(** A method that always comes back and calls nothing but gateways. *)
Definition gateway_only {A : Type} (m : M A) : Prop :=
  ∀ s, (m s).1 ≠ OutOfFuel ∧ gateway_step s (m s).2.

(** The exception that the coordinator's call of the UMS gateway raises: the
    keyword [task_description] names no parameter of [response]. *)
Definition ums_call_error : PyExc :=
  mkExc TypeError
    "UMSAgentGateway.response() got an unexpected keyword argument 'task_description'".

End Engine.
Arguments Coordinator {B}.
Arguments M {B} A.

(** *** Rounds *)

Definition is_Aggregated (ev : Event) : bool :=
  match ev with Aggregated _ => true | _ => false end.

(** The number of decomposition calls among some events. *)
Definition decomposition_calls (evs : list Event) : nat :=
  length (List.filter is_Decomposed evs).

Section RoundsDef.
Context `{B : Backends}.

(** One round that goes on to the next: the decomposition gave subtasks and
    did not ask to stop, and the executor returned. A configuration is the
    value of [task_calls], the cumulative results and the coordinator at the
    head of the loop. *)
Inductive proceeds (request : Request)
    : Z * list TaskResult * Coordinator → Z * list TaskResult * Coordinator → Prop :=
| proceeds_round task_calls task_results s td s1 iteration_results s2 :
    task_calls < max_task_calls →
    _decompose_task request task_results s = (Ok td, s1) →
    subtasks td ≠ [] →
    stop td = false →
    _execute_subtasks request (subtasks td) s1 = (Ok iteration_results, s2) →
    proceeds request (task_calls, task_results, s)
                     (task_calls + 1, task_results ++ iteration_results, s2).

End RoundsDef.

(** ** Concrete backends, for examples *)

Definition demo_dump (r : TaskResult) : string :=
  ("result " ++ pretty (task_id (task r)) ++ ": " ++ content (agent_result r))%string.

(** The world counts the decomposition calls answered so far; [plan] gives
    the answer to each, [gpa] the GPA backend's answer to an instruction. *)
Definition demo_backends (plan : nat -> Reply TaskDecomposition)
    (gpa : string -> Reply Message) : Backends := {|
  World := nat;
  UMS_CONVERSATION_ID := "ums_conversation_id";
  GPA_MESSAGES := "gpa_messages";
  model_dump_json := demo_dump;
  decompose_call := fun _ _ w => (plan w, S w);
  aggregate_call := fun _ _ w => (Returns (mkMessage ASSISTANT "done" None), w);
  gpa_response := fun _ instruction _ w => (gpa instruction, w);
  create_ums_conversation := fun w => (Returns "fresh-id", w);
  call_ums_agent := fun _ _ w => (Returns "ok", w)
|}.

(** A subtask for the GPA backend with an empty description. *)
Definition st (i : Z) (d : option Z) : Subtask := mkSubtask i GPA "" d.

Definition gpa_echo (instruction : string) : Reply Message :=
  Returns (mkMessage ASSISTANT "X" None).

Definition user_says (text : string) : Message := mkMessage USER text None.

Definition demo_request : Request := mkRequest [user_says "hi"].

(** A decomposition that never asks to stop. *)
Definition never_stop (round : nat) : Reply TaskDecomposition :=
  Returns (mkTaskDecomposition [st 1 None; st 2 (Some 1)] false).

(** One round of work, then nothing more to do. *)
Definition one_round (round : nat) : Reply TaskDecomposition :=
  match round with
  | O => Returns (mkTaskDecomposition [st 1 None] false)
  | S _ => Returns (mkTaskDecomposition [] false)
  end.

(** A GPA backend whose call raises an exception with an empty message. *)
Definition gpa_silent_failure (instruction : string) : Reply Message :=
  Raises (mkExc OtherException "").

Definition gpa_timeout (instruction : string) : Reply Message :=
  Raises (mkExc OtherException "read timed out").

(** An assistant message that persisted the UMS session identifier [id]. *)
Definition assistant_with_id (id : string) : Message :=
  mkMessage ASSISTANT "ok"
    (Some (mkCustomContent (Some {[ _UMS_CONVERSATION_ID := SStr id ]}))).

Definition two_sessions : Request :=
  mkRequest [assistant_with_id "old"; assistant_with_id "new"; user_says "next"].

Definition one_session : Request :=
  mkRequest [user_says "hi"; assistant_with_id "abc"; user_says "next"].

Definition unknown_task : Subtask := mkSubtask 1 (OtherAgent "XYZ") "do it" None.

Definition ums_task : Subtask := mkSubtask 2 UMS "find the user" None.

Definition demo_forest : list Subtask :=
  [st 3 (Some 2); st 1 None; st 2 (Some 1); st 4 (Some 1)].

Definition demo_cycle : list Subtask :=
  [st 1 (Some 1); st 2 (Some 1); st 3 None].

Definition demo_dangling : list Subtask := [st 1 None; st 2 (Some 7)].

Definition quiet : Backends := demo_backends one_round gpa_echo.

(** The tasks that start in the queue, in list order: the entries whose id
    has parent count 0 after the first loop, that is no entry with that id
    declares a dependency. *)
Definition initial_queue (sts : list Subtask) : list Z :=
  task_id <$> filter (λ s, task_id s ∉ dependents sts) sts.

(** Siblings come out in ascending order of task id: when [c2] is in the list
    so is every smaller task with the same parent, at a smaller index. *)
Definition siblings_ascend (sts : list Subtask) (l : list Z) : Prop :=
  ∀ c1 c2 p j, depends sts c1 p → depends sts c2 p → c1 < c2 →
    l !! j = Some c2 → ∃ i, (i < j)%nat ∧ l !! i = Some c1.

(** What the executor's records look like: the [AgentResult] repeats the id
    and the agent of its subtask, a success has no error, a failure has empty
    content and an error. *)
Definition well_formed_result (r : TaskResult) : Prop :=
  ar_task_id (agent_result r) = task_id (task r)
  ∧ ar_agent_name (agent_result r) = agent_name (task r)
  ∧ (success (agent_result r) = true → error (agent_result r) = None)
  ∧ (success (agent_result r) = false →
       content (agent_result r) = "" ∧ is_Some (error (agent_result r))).

#[global] Instance AgentName_eq_dec : EqDecision AgentName.
Proof. solve_decision. Defined.

Definition is_CalledGPA (ev : Event) : bool :=
  match ev with CalledGPA _ => true | _ => false end.

Section StateRelations.
Context `{B : Backends}.

(** A method that takes every coordinator to one that is [R]-related to it. *)
Definition keeps {A : Type} (R : relation Coordinator) (m : M A) : Prop :=
  ∀ s, R s (m s).2.

(** The fragment list is extended at its end, never cut or rewritten. *)
Definition fragments_grow (s s' : Coordinator) : Prop :=
  gpa_intermediate_state s `prefix_of` gpa_intermediate_state s'.

(** The state of the choice is untouched. *)
Definition same_choice (s s' : Coordinator) : Prop :=
  choice_state s' = choice_state s.

End StateRelations.

(** The results that a decomposition or aggregation call was given. *)
Definition results_given (ev : Event) : option (list TaskResult) :=
  match ev with
  | Decomposed task_results | Aggregated task_results => Some task_results
  | _ => None
  end.

(** A GPA backend whose message carries a UMS session identifier. *)
Definition gpa_with_session (instruction : string) : Reply Message :=
  Returns (mkMessage ASSISTANT "X"
    (Some (mkCustomContent (Some {[ "ums_conversation_id" := SStr "abc" ]})))).

(** The user message that [response] sends: the content of the last message
    of the history, followed by a blank line and the additional instructions
    when these are a string that is not empty. *)
Definition augmented_message (last_message : Message)
    (additional_instructions : option string) : string :=
  match additional_instructions with
  | Some extra =>
      if negb (String.eqb extra "")
      then (msg_content last_message ++ nl ++ nl ++ extra)%string
      else msg_content last_message
  | None => msg_content last_message
  end.

(** A message that carries the state [d] of a choice. *)
Definition carrying (role : Role) (text : string)
    (d : option (gmap string StateValue)) : Message :=
  mkMessage role text (Some (mkCustomContent d)).

(** ** The prompts of the two collaborators ([_prepare_messages] and the
    message lists built in [_decompose_task] and [_aggregate_results]) *)

(** A message dict is modelled by a [Message]: [msg.dict(exclude_none=True)]
    has the fields of the message that are set. The body of the loop of
    [_prepare_messages]: a user message with custom content is reduced to its
    role and content, any other message is passed whole. *)
Definition prepare_message (msg : Message) : Message :=
  match msg_role msg, custom_content msg with
  | USER, Some _ => mkMessage USER (msg_content msg) None
  | _, _ => msg
  end.

(** [_prepare_messages] *)
Definition _prepare_messages (request : Request) (system_prompt : string)
    : list Message :=
  foldl (fun msgs msg => msgs ++ [prepare_message msg])
        [mkMessage SYSTEM system_prompt None] (messages request).

(** [msgs[-1]["content"] = f(msgs[-1]["content"])] *)
Definition update_last_content (msgs : list Message) (f : string -> string)
    : Outcome (list Message) :=
  match last msgs with
  | Some m =>
      Ok (take (length msgs - 1) msgs
          ++ [mkMessage (msg_role m) (f (msg_content m)) (custom_content m)])
  | None => Raise (mkExc IndexError "list index out of range")
  end.

Section Prompts.
Context `{B : Backends}.

(** The block of serialized results, one per line after the header. *)
Definition results_context (header : string) (results : list TaskResult)
    : string :=
  foldl (fun acc result => (acc ++ model_dump_json result ++ nl)%string)
        header results.

(** Lines 92-101 of [_decompose_task]: the messages for the decomposition
    collaborator, or the exception raised before the call is made. The system
    prompt of [task.prompts] is taken as it comes. *)
Definition decomposition_messages (system_prompt : string) (request : Request)
    (previous_results : list TaskResult) : Outcome (list Message) :=
  let msgs := _prepare_messages request system_prompt in
  msgs ←
    (if bool_decide (previous_results = []) then Ok msgs
     else
       let block :=
         results_context ("## Results from previous tasks:" ++ nl ++ nl)
                         previous_results in
       update_last_content msgs
         (fun c => (block ++ nl ++ "---" ++ nl ++ nl ++ c)%string));
  _ ← last_item (messages request);
  Ok msgs.

(** Lines 254-266 of [_aggregate_results]: the messages for the aggregation
    collaborator. *)
Definition aggregation_messages (system_prompt : string) (request : Request)
    (task_results : list TaskResult) : Outcome (list Message) :=
  let block := results_context ("# Tasks Results:" ++ nl ++ nl) task_results in
  let msgs := _prepare_messages request system_prompt in
  update_last_content msgs
    (fun original_user_request =>
       (block ++ nl ++ "---" ++ nl ++ nl
        ++ "# Original User Request:" ++ nl ++ original_user_request ++ nl ++ nl
        ++ "Please synthesize the agent results into a coherent response for the user.")%string).

End Prompts.

(** ** The stream of the aggregation collaborator (lines 278-285) *)

Record Delta : Type := mkDelta {
  delta_content : option string
}.

Record StreamChoice : Type := mkStreamChoice {
  delta : option Delta
}.

Record Chunk : Type := mkChunk {
  choices : option (list StreamChoice)
}.

(** The text that a chunk contributes: the content of the delta of its first
    choice, when the chunk has choices, the choice a delta and the delta a
    content that is not empty. *)
Definition chunk_text (chunk : Chunk) : option string :=
  match choices chunk with
  | Some (first :: _) =>
      match delta first with
      | Some d =>
          match delta_content d with
          | Some text => if negb (String.eqb text "") then Some text else None
          | None => None
          end
      | None => None
      end
  | _ => None
  end.

(** The [async for chunk in chunks] loop: each text is appended to the stage,
    to the choice and to the content. *)
Fixpoint collect_chunks (chunks : list Chunk) (stage choice content : string)
    : string * string * string :=
  match chunks with
  | [] => (stage, choice, content)
  | chunk :: rest =>
      match chunk_text chunk with
      | Some text =>
          collect_chunks rest (stage ++ text) (choice ++ text) (content ++ text)
      | None => collect_chunks rest stage choice content
      end
  end.

(** The texts of a stream, put together. *)
Definition stream_text (chunks : list Chunk) : string :=
  foldr String.append "" (omap chunk_text chunks).

(** ** The stream of the UMS agent (the line loop of [__call_ums_agent]) *)

(** What [json.loads] returns: [None], [bool], [int], [float], [str], [list]
    or [dict] with string keys. A Python [float] is a binary64 number. *)
#[warnings="-register-all"]
Inductive Json : Type :=
| JNull
| JBool (b : bool)
| JInt (z : Z)
| JFloat (f : PrimFloat.float)
| JStr (s : string)
| JArr (l : list Json)
| JObj (d : gmap string Json).

(** [type(v).__name__] *)
Definition type_name (v : Json) : string :=
  match v with
  | JNull => "NoneType"
  | JBool _ => "bool"
  | JInt _ => "int"
  | JFloat _ => "float"
  | JStr _ => "str"
  | JArr _ => "list"
  | JObj _ => "dict"
  end.

(** [bool(v)] *)
Definition truthy_json (v : Json) : bool :=
  match v with
  | JNull => false
  | JBool b => b
  | JInt z => negb (z =? 0)
  | JFloat f => negb (PrimFloat.eqb f PrimFloat.zero)
  | JStr s => negb (String.eqb s "")
  | JArr l => match l with [] => false | _ :: _ => true end
  | JObj d => negb (bool_decide (d = ∅))
  end.

(** [AttributeError] is one of the classes of [OtherException]. *)
Definition AttributeError (v : Json) (attr : string) : PyExc :=
  mkExc OtherException
        ("'" ++ type_name v ++ "' object has no attribute '" ++ attr ++ "'").

(** [line.startswith(prefix)] *)
Definition startswith (line prefix : string) : bool := String.prefix prefix line.

(** [s[n:]] *)
Fixpoint string_from (n : nat) (s : string) : string :=
  match n, s with
  | O, _ => s
  | S n, String _ rest => string_from n rest
  | S _, EmptyString => EmptyString
  end.

(** [needle in hay] on two strings *)
Fixpoint str_contains (needle hay : string) : bool :=
  String.prefix needle hay
  || match hay with
     | EmptyString => false
     | String _ rest => str_contains needle rest
     end.

(** [key in data] for a string [key]: a key of a dict, an element of a list,
    a part of a string; [TypeError] on a value that is no container. *)
Definition py_in (key : string) (data : Json) : Outcome bool :=
  match data with
  | JObj d => Ok (bool_decide (is_Some (d !! key)))
  | JArr l =>
      Ok (existsb (fun v => match v with
                            | JStr s => String.eqb key s
                            | _ => false
                            end) l)
  | JStr s => Ok (str_contains key s)
  | _ => Raise (mkExc TypeError
                  ("argument of type '" ++ type_name data ++ "' is not iterable"))
  end.

(** [data[key]] for a string [key] *)
Definition py_getitem (data : Json) (key : string) : Outcome Json :=
  match data with
  | JObj d =>
      match d !! key with
      | Some v => Ok v
      | None => Raise (mkExc KeyError ("'" ++ key ++ "'"))
      end
  | JArr _ =>
      Raise (mkExc TypeError "list indices must be integers or slices, not str")
  | JStr _ => Raise (mkExc TypeError "string indices must be integers, not 'str'")
  | _ => Raise (mkExc TypeError
                  ("'" ++ type_name data ++ "' object is not subscriptable"))
  end.

(** [len(v)] *)
Definition py_len (v : Json) : Outcome Z :=
  match v with
  | JArr l => Ok (Z.of_nat (length l))
  | JStr s => Ok (Z.of_nat (String.length s))
  | JObj d => Ok (Z.of_nat (size d))
  | _ => Raise (mkExc TypeError
                  ("object of type '" ++ type_name v ++ "' has no len()"))
  end.

(** [v[0]]; the keys of a decoded dict are strings, so [0] is none of them. *)
Definition py_first (v : Json) : Outcome Json :=
  match v with
  | JArr (first :: _) => Ok first
  | JArr [] => Raise (mkExc IndexError "list index out of range")
  | JStr (String c _) => Ok (JStr (String c EmptyString))
  | JStr EmptyString => Raise (mkExc IndexError "string index out of range")
  | JObj _ => Raise (mkExc KeyError "0")
  | _ => Raise (mkExc TypeError
                  ("'" ++ type_name v ++ "' object is not subscriptable"))
  end.

(** [v.get(key, default)]: a method of dicts only. The default is returned
    when the key is absent, not when its value is [None]. *)
Definition py_get (v : Json) (key : string) (dflt : Json) : Outcome Json :=
  match v with
  | JObj d => Ok (default dflt (d !! key))
  | _ => Raise (AttributeError v "get")
  end.

(** [content += delta_content] on a string [content] *)
Definition py_concat (content : string) (v : Json) : Outcome string :=
  match v with
  | JStr text => Ok (content ++ text)%string
  | _ => Raise (mkExc TypeError
                  ("can only concatenate str (not "
                   ++ String "034"%char (type_name v)
                   ++ String "034"%char ") to str"))
  end.

(** The body of the [try] after [json.loads], for one decoded chunk: the text
    that the chunk adds to the stage and to the content, [None] when the
    chunk is passed over, or the exception that the body raises. None of these
    exceptions is a [json.JSONDecodeError], so none is caught by the [except]
    of the loop. A content that is truthy and no string is handed to the
    stage and then fails in [content += delta_content]; what the stage makes
    of such a value is left out. *)
Definition chunk_content (data : Json) : Outcome (option string) :=
  has_id ← py_in "conversation_id" data;
  if has_id : bool then Ok None
  else
    has_choices ← py_in "choices" data;
    nonempty ← (if has_choices : bool then
                  choices ← py_getitem data "choices";
                  n ← py_len choices;
                  Ok (0 <? n)
                else Ok false);
    if nonempty : bool then
      choices ← py_getitem data "choices";
      first ← py_first choices;
      delta ← py_get first "delta" (JObj ∅);
      delta_content ← py_get delta "content" JNull;
      if truthy_json delta_content then
        text ← py_concat "" delta_content;
        Ok (Some text)
      else Ok None
    else Ok None.

Section UMSStream.
(** [json.loads] on the text of a line: [None] stands for
    [json.JSONDecodeError]. *)
Variable json_loads : string -> option Json.

(** The [async for line in response.aiter_lines()] loop, from a stage and a
    content: the content returned or the exception raised, and the stage as
    the loop leaves it. *)
Fixpoint read_lines (lines : list string) (stage content : string)
    : Outcome string * string :=
  match lines with
  | [] => (Ok content, stage)
  | line :: rest =>
      if startswith line "data: " then
        let data_str := string_from 6 line in
        if String.eqb data_str "[DONE]" then (Ok content, stage)
        else
          match json_loads data_str with
          | None => read_lines rest stage content
          | Some data =>
              match chunk_content data with
              | Ok (Some text) =>
                  read_lines rest (stage ++ text) (content ++ text)
              | Ok None => read_lines rest stage content
              | Raise e => (Raise e, stage)
              | OutOfFuel => (OutOfFuel, stage)
              end
          end
      else read_lines rest stage content
  end.

End UMSStream.

(** A decoded chunk of the documented shape: a dict without the key
    [conversation_id] whose [choices] is a list, the first choice a dict with
    a dict under [delta], and the content of the delta the string [text].
    Further keys and further choices are allowed. *)
Definition carries_text (data : Json) (text : string) : Prop :=
  ∃ d c rest dl,
    data = JObj d
    ∧ d !! "conversation_id" = None
    ∧ d !! "choices" = Some (JArr (JObj c :: rest))
    ∧ c !! "delta" = Some (JObj dl)
    ∧ dl !! "content" = Some (JStr text).

(** A line [data: <payload>] whose payload is not [[DONE]] and decodes to a
    chunk that carries [text]. *)
Definition delivers (json_loads : string -> option Json) (line text : string)
    : Prop :=
  startswith line "data: " = true
  ∧ string_from 6 line ≠ "[DONE]"
  ∧ ∃ data, json_loads (string_from 6 line) = Some data ∧ carries_text data text.

(** [''.join(texts)] *)
Definition join (texts : list string) : string := foldr String.append "" texts.

(** A value that is neither a dict, nor a list, nor a string. *)
Definition is_scalar (v : Json) : bool :=
  match v with
  | JNull | JBool _ | JInt _ | JFloat _ => true
  | _ => false
  end.

(** A decoder given by a table, for the examples: the chunk
    [{"choices": [{"delta": {"content": text}}]}], the chunk that announces
    the conversation, a chunk whose delta is [null], a chunk whose choice has
    no delta, and [null]. *)
Definition text_chunk (text : Json) : Json :=
  JObj {[ "choices" := JArr [JObj {[ "delta" := JObj {[ "content" := text ]} ]}] ]}.

Definition demo_json_loads (s : string) : option Json :=
  if String.eqb s "chunk Hel" then Some (text_chunk (JStr "Hel"))
  else if String.eqb s "chunk lo" then Some (text_chunk (JStr "lo"))
  else if String.eqb s "conversation" then
    Some (JObj {[ "conversation_id" := JStr "c-1" ]})
  else if String.eqb s "null delta" then
    Some (JObj {[ "choices" := JArr [JObj {[ "delta" := JNull ]}] ]})
  else if String.eqb s "no delta" then
    Some (JObj {[ "choices" := JArr [JObj ∅] ]})
  else if String.eqb s "null" then Some JNull
  else None.

(** A decomposition that answers once and then fails. *)
Definition failing_plan (round : nat) : Reply TaskDecomposition :=
  match round with
  | O => Returns (mkTaskDecomposition [st 1 None] false)
  | S _ => Raises (mkExc ValueError "Expecting value: line 1 column 1 (char 0)")
  end.

(** A GPA backend whose message holds a number where the fragments are
    expected. *)
Definition gpa_with_number (instruction : string) : Reply Message :=
  Returns (mkMessage ASSISTANT "X"
    (Some (mkCustomContent (Some {[ "gpa_messages" := SInt 5 ]})))).

(** A task that depends on itself beside a task whose dependency is not in
    the list. *)
Definition demo_cycle_dangling : list Subtask :=
  [st 1 (Some 1); st 2 (Some 7)].

(** * Properties *)

(** ** The scheduler *)

Section Scheduler.
Implicit Types (sts : list Subtask) (k p : Z).

Lemma decide_elem_cons {A : Type} (x y : Z) (l : list Z) (a b : A) :
  (if decide (x ∈ y :: l) then a else b)
  = if decide (x = y) then a else if decide (x ∈ l) then a else b.
Proof.
  destruct (decide (x = y)) as [->|Hne].
  - rewrite decide_True; [done | apply list_elem_of_here].
  - destruct (decide (x ∈ l)) as [Hin|Hnin].
    + rewrite decide_True; [done | by apply list_elem_of_further].
    + rewrite decide_False; [done|].
      intros [?|?]%elem_of_cons; contradiction.
Qed.

Lemma foldl_insert_lookup {V : Type} (v : V) sts (m : gmap Z V) k :
  foldl (λ d st, <[task_id st := v]> d) m sts !! k
  = if decide (k ∈ ids sts) then Some v else m !! k.
Proof.
  revert m. induction sts as [|s sts IH]; intros m.
  - cbn [foldl]. unfold ids. rewrite fmap_nil, decide_False; [done | apply not_elem_of_nil].
  - cbn [foldl]. rewrite IH. unfold ids. rewrite fmap_cons, decide_elem_cons.
    destruct (decide (k = task_id s)) as [->|Hne].
    + rewrite lookup_insert_eq. by destruct (decide (_ ∈ _)).
    + by rewrite lookup_insert_ne.
Qed.

Lemma dict_of_ids_lookup {V : Type} (v : V) sts k :
  dict_of_ids v sts !! k = if decide (k ∈ ids sts) then Some v else None.
Proof. unfold dict_of_ids. by rewrite foldl_insert_lookup, lookup_empty. Qed.

Lemma kids_nil k : kids [] k = [].
Proof. done. Qed.

Lemma kids_cons s sts k :
  kids (s :: sts) k
  = if decide (depends_on s = Some k) then task_id s :: kids sts k else kids sts k.
Proof. unfold kids. rewrite filter_cons. by case_decide. Qed.

Lemma dependents_cons s sts :
  dependents (s :: sts)
  = if decide (is_Some (depends_on s)) then task_id s :: dependents sts
    else dependents sts.
Proof. unfold dependents. rewrite filter_cons. by case_decide. Qed.

(** The first loop on a list whose dependencies are all keys of [children]:
    it returns, every key got its dependents appended in list order, and the
    tasks with a dependency have count 1. *)
Lemma link_ok sts : ∀ (ch : gmap Z (list Z)) (pc : gmap Z Z),
  (∀ s d, s ∈ sts → depends_on s = Some d → is_Some (ch !! d)) →
  ∃ ch' pc', link sts ch pc = Ok (ch', pc')
    ∧ (∀ k, ch' !! k = (λ l, l ++ kids sts k) <$> ch !! k)
    ∧ (∀ k, pc' !! k = if decide (k ∈ dependents sts) then Some 1 else pc !! k).
Proof.
  induction sts as [|s sts IH]; intros ch pc Hin; cbn [link].
  - exists ch, pc. split; [done|]. split; intros k.
    + rewrite kids_nil. destruct (ch !! k); cbn; [by rewrite app_nil_r | done].
    + rewrite decide_False; [done | apply not_elem_of_nil].
  - destruct (depends_on s) as [d|] eqn:Hd.
    + destruct (Hin s d) as [l Hl]; [apply list_elem_of_here | done |].
      unfold getitem. rewrite Hl. cbn [mbind outcome_bind].
      destruct (IH (<[d:=l ++ [task_id s]]> ch) (<[task_id s:=1]> pc))
        as (ch' & pc' & -> & Hch & Hpc).
      { intros s' d' Hs' Hd'. rewrite lookup_insert_is_Some.
        destruct (decide (d = d')); [by left | right].
        split; [done|]. apply (Hin s' d'); [by apply list_elem_of_further | done]. }
      exists ch', pc'. split; [done|]. split; intros k.
      * rewrite Hch, kids_cons, Hd.
        destruct (decide (d = k)) as [->|Hne].
        -- rewrite lookup_insert_eq, Hl. cbn. rewrite decide_True by done.
           by rewrite <- app_assoc.
        -- rewrite lookup_insert_ne by done.
           by rewrite decide_False by congruence.
      * rewrite Hpc, dependents_cons, Hd.
        rewrite (decide_True (P := is_Some (Some d))) by eauto.
        rewrite decide_elem_cons.
        destruct (decide (k = task_id s)) as [->|Hne].
        -- rewrite lookup_insert_eq. by destruct (decide (_ ∈ _)).
        -- by rewrite lookup_insert_ne.
    + destruct (IH ch pc) as (ch' & pc' & -> & Hch & Hpc).
      { intros s' d' Hs' Hd'. apply (Hin s' d'); [by apply list_elem_of_further | done]. }
      exists ch', pc'. split; [done|]. split; intros k.
      * rewrite Hch, kids_cons, Hd. by rewrite decide_False by done.
      * rewrite Hpc, dependents_cons, Hd.
        by rewrite (decide_False (P := is_Some None)) by (by intros [? ?]).
Qed.

(** A dependency that is no key of [children] makes the first loop raise
    [KeyError]. *)
Lemma link_dangling sts : ∀ (ch : gmap Z (list Z)) (pc : gmap Z Z) s d,
  s ∈ sts → depends_on s = Some d → ch !! d = None →
  ∃ e, link sts ch pc = Raise e ∧ exc_class e = KeyError.
Proof.
  induction sts as [|s0 sts IH]; intros ch pc s d Hs Hd Hnone.
  - by apply elem_of_nil in Hs.
  - cbn [link]. destruct (depends_on s0) as [d0|] eqn:Hd0.
    + unfold getitem. destruct (ch !! d0) as [l|] eqn:Hl; cbn [mbind outcome_bind].
      * apply elem_of_cons in Hs as [->|Hs]; [congruence|].
        apply (IH _ _ s d); [done..|].
        rewrite lookup_insert_ne; [done | congruence].
      * eauto.
    + apply elem_of_cons in Hs as [->|Hs]; [congruence|].
      by apply (IH _ _ s d).
Qed.

Lemma ready_ok sts (pc : gmap Z Z) :
  (∀ s, s ∈ sts → is_Some (pc !! task_id s)) →
  ready sts pc = Ok (task_id <$> filter (λ s, pc !! task_id s = Some 0) sts).
Proof.
  induction sts as [|s sts IH]; intros Hin; cbn [ready]; [done|].
  destruct (Hin s) as [n Hn]; [apply list_elem_of_here|].
  unfold getitem at 1. rewrite Hn. cbn [mbind outcome_bind].
  rewrite IH by (intros; apply Hin; by apply list_elem_of_further).
  cbn [mbind outcome_bind].
  rewrite filter_cons, Hn.
  destruct (Z.eqb_spec n 0) as [->|Hne].
  - by rewrite decide_True.
  - by rewrite decide_False by congruence.
Qed.

(** The inner loop over children that all wait with count 1: all of them are
    queued, in order, and their count is 0 afterwards. *)
Lemma release_ok cs : ∀ (pc : gmap Z Z) (queue : list Z),
  NoDup cs → (∀ c, c ∈ cs → pc !! c = Some 1) →
  ∃ pc', release cs pc queue = Ok (pc', queue ++ cs)
    ∧ ∀ k, pc' !! k = if decide (k ∈ cs) then Some 0 else pc !! k.
Proof.
  induction cs as [|c cs IH]; intros pc queue Hnd Hone; cbn [release].
  - exists pc. rewrite app_nil_r. split; [done|]. intros k.
    rewrite decide_False; [done | apply not_elem_of_nil].
  - apply NoDup_cons in Hnd as [Hc Hnd].
    unfold getitem. rewrite (Hone c) by apply list_elem_of_here.
    cbn [mbind outcome_bind]. change (1 - 1 =? 0) with true. cbv iota.
    destruct (IH (<[c:=1 - 1]> pc) (queue ++ [c])) as (pc' & -> & Hpc); [done| |].
    { intros c' Hc'. rewrite lookup_insert_ne by (intros ->; contradiction).
      apply Hone. by apply list_elem_of_further. }
    exists pc'. rewrite <- app_assoc. split; [done|]. intros k.
    rewrite Hpc, decide_elem_cons.
    destruct (decide (k = c)) as [->|Hne].
    + rewrite lookup_insert_eq. by rewrite decide_False by done.
    + by rewrite lookup_insert_ne.
Qed.

Lemma NoDup_fmap_eq {A C : Type} (f : A → C) (l : list A) x y :
  NoDup (f <$> l) → x ∈ l → y ∈ l → f x = f y → x = y.
Proof.
  induction l as [|a l IH]; intros Hnd Hx Hy Hf.
  - by apply elem_of_nil in Hx.
  - rewrite fmap_cons in Hnd. apply NoDup_cons in Hnd as [Ha Hnd].
    apply elem_of_cons in Hx as [->|Hx]; apply elem_of_cons in Hy as [->|Hy].
    + done.
    + exfalso. apply Ha. rewrite Hf. by apply list_elem_of_fmap_2.
    + exfalso. apply Ha. rewrite <- Hf. by apply list_elem_of_fmap_2.
    + by apply IH.
Qed.

Lemma elem_of_ids sts k : k ∈ ids sts ↔ ∃ s, s ∈ sts ∧ task_id s = k.
Proof.
  unfold ids. rewrite list_elem_of_fmap. split; intros (s & ? & ?); eauto.
Qed.

Lemma ids_root_or_depends sts k :
  k ∈ ids sts ↔ is_root sts k ∨ ∃ p, depends sts k p.
Proof.
  rewrite elem_of_ids. split.
  - intros (s & Hs & Hk). destruct (depends_on s) as [p|] eqn:Hd.
    + right. exists p, s. done.
    + left. exists s. done.
  - intros [(s & ? & ? & ?)|(p & s & ? & ? & ?)]; eauto.
Qed.

Lemma elem_of_kids sts k c : c ∈ kids sts k ↔ depends sts c k.
Proof.
  unfold kids, depends. rewrite list_elem_of_fmap. split.
  - intros (s & -> & [Hd Hs]%list_elem_of_filter). eauto.
  - intros (s & Hs & <- & Hd). exists s. split; [done|].
    by apply list_elem_of_filter.
Qed.

Lemma elem_of_dependents sts k : k ∈ dependents sts ↔ ∃ p, depends sts k p.
Proof.
  unfold dependents, depends. rewrite list_elem_of_fmap. split.
  - intros (s & -> & [[p Hd] Hs]%list_elem_of_filter). eauto.
  - intros (p & s & Hs & <- & Hd). exists s. split; [done|].
    apply list_elem_of_filter. eauto.
Qed.

Lemma NoDup_fmap_filter sts (P : Subtask → Prop) `{!∀ s, Decision (P s)} :
  NoDup (ids sts) → NoDup (task_id <$> filter P sts).
Proof.
  intros Hnd. eapply sublist_NoDup; [exact Hnd|].
  apply fmap_sublist, sublist_filter.
Qed.

Section Unique.
Context (sts : list Subtask) (Hnd : NoDup (ids sts)).

Lemma depends_fun k p p' : depends sts k p → depends sts k p' → p = p'.
Proof.
  intros (s & Hs & Hk & Hd) (s' & Hs' & Hk' & Hd').
  assert (s = s') as <- by (eapply NoDup_fmap_eq; [exact Hnd|done..|congruence]).
  congruence.
Qed.

Lemma root_not_depends k p : is_root sts k → depends sts k p → False.
Proof.
  intros (s & Hs & Hk & Hd) (s' & Hs' & Hk' & Hd').
  assert (s = s') as <- by (eapply NoDup_fmap_eq; [exact Hnd|done..|congruence]).
  congruence.
Qed.

(** One iteration of the [while] loop keeps the invariant. *)
Lemma sort_inv_step (queue result : list Z) (pc pc' : gmap Z Z) t cs :
  sort_inv sts (t :: queue) result pc →
  cs ≡ₚ kids sts t →
  (∀ k, pc' !! k = if decide (k ∈ cs) then Some 0 else pc !! k) →
  sort_inv sts (queue ++ cs) (result ++ [t]) pc'.
Proof.
  intros [Hnodup Hids Hroots Hrel Hwait Hord] Hcs Hpc'.
  assert (Heq : (result ++ [t]) ++ queue ++ cs = (result ++ t :: queue) ++ cs).
  { by rewrite <- !app_assoc. }
  assert (Ht : t ∉ result).
  { apply NoDup_app in Hnodup as (_ & Hdisj & _). intros Hin.
    apply (Hdisj t Hin), list_elem_of_here. }
  assert (Hkid : ∀ c, c ∈ cs ↔ depends sts c t).
  { intros c. by rewrite Hcs, elem_of_kids. }
  split.
  - rewrite Heq. apply NoDup_app. split; [done|]. split.
    + intros x Hx [_ Hnx]%Hkid%(fun H => Hwait _ _ H Ht). done.
    + rewrite Hcs. by apply NoDup_fmap_filter.
  - intros k. rewrite Heq, elem_of_app. intros [Hk|Hk%Hkid]; [by apply Hids|].
    apply ids_root_or_depends. eauto.
  - intros k Hk. rewrite Heq, elem_of_app. left. by apply Hroots.
  - intros k p Hd Hp. rewrite Heq. apply elem_of_app.
    apply elem_of_app in Hp as [Hp| ->%list_elem_of_singleton].
    + left. by eapply Hrel.
    + right. by apply Hkid.
  - intros k p Hd [Hp Hpt]%not_elem_of_app.
    rewrite list_elem_of_singleton in Hpt.
    destruct (Hwait k p Hd Hp) as [Hone Hk].
    assert (Hkcs : k ∉ cs).
    { intros Hin%Hkid. apply Hpt. by eapply depends_fun. }
    split; [by rewrite Hpc', decide_False|].
    rewrite Heq. by apply not_elem_of_app.
  - intros k p j Hd [[Hj Hk]|[-> <-]]%lookup_snoc_Some.
    + destruct (Hord k p j Hd Hk) as (i & Hi & Hip). exists i. split; [done|].
      rewrite lookup_app_l; [done|]. apply lookup_lt_Some in Hip. lia.
    + destruct (decide (p ∈ result)) as [Hp|Hp].
      * apply list_elem_of_lookup_1 in Hp as [i Hi]. exists i.
        pose proof (lookup_lt_Some _ _ _ Hi). split; [done|].
        by rewrite lookup_app_l.
      * destruct (Hwait t p Hd Hp) as [_ Hnt]. exfalso. apply Hnt.
        apply elem_of_app. right. apply list_elem_of_here.
Qed.

(** With enough budget for the tasks not yet output, the loop returns an
    order that satisfies the invariant with an empty queue. *)
Lemma sort_loop_inv (ch : gmap Z (list Z)) :
  (∀ k, k ∈ ids sts → ch !! k = Some (kids sts k)) →
  ∀ fuel queue result pc,
    sort_inv sts queue result pc →
    (length sts ≤ fuel + length result)%nat →
    ∃ order pc', sort_loop fuel ch queue result pc = Ok order
                 ∧ sort_inv sts [] order pc'.
Proof.
  intros Hch fuel. induction fuel as [|fuel IH]; intros queue result pc Hinv Hlen.
  - destruct queue as [|t queue]; cbn [sort_loop]; [eauto|].
    exfalso. destruct Hinv as [Hnodup Hids _ _ _ _].
    pose proof (submseteq_length _ _ (NoDup_submseteq _ _ Hnodup Hids)) as Hle.
    unfold ids in Hle. rewrite length_fmap, length_app in Hle. cbn in Hle. lia.
  - destruct queue as [|t queue]; cbn [sort_loop]; [eauto|].
    assert (Ht : t ∈ ids sts).
    { apply (inv_ids _ _ _ _ Hinv), elem_of_app. right. apply list_elem_of_here. }
    assert (Htr : t ∉ result).
    { pose proof (inv_nodup _ _ _ _ Hinv) as (_ & Hdisj & _)%NoDup_app.
      intros Hin. apply (Hdisj t Hin), list_elem_of_here. }
    unfold getitem. rewrite (Hch t Ht). cbn [mbind outcome_bind].
    pose proof (merge_sort_Permutation Z.le (kids sts t)) as Hperm.
    destruct (release_ok (merge_sort Z.le (kids sts t)) pc queue)
      as (pc' & -> & Hpc').
    { rewrite Hperm. by apply NoDup_fmap_filter. }
    { intros c Hc. rewrite Hperm in Hc. apply elem_of_kids in Hc.
      by destruct (inv_waiting _ _ _ _ Hinv c t Hc Htr). }
    cbn [mbind outcome_bind].
    apply IH.
    + by eapply sort_inv_step.
    + rewrite length_app. cbn. lia.
Qed.

Lemma sort_inv_grounded order pc k :
  sort_inv sts [] order pc → k ∈ order ↔ grounded sts k.
Proof.
  intros [Hnodup Hids Hroots Hrel Hwait Hord]. rewrite app_nil_r in *. split.
  - intros [j Hj]%list_elem_of_lookup_1. revert k Hj.
    induction (lt_wf j) as [j _ IH]. intros k Hj.
    assert (Hk : k ∈ ids sts) by (eapply Hids, list_elem_of_lookup_2, Hj).
    apply ids_root_or_depends in Hk as [Hroot|[p Hd]].
    + by apply grounded_root.
    + destruct (Hord k p j Hd Hj) as (i & Hi & Hp).
      apply (grounded_child _ k p); [done|]. by apply (IH i).
  - induction 1 as [k Hroot|k p Hd _ IH]; [by apply Hroots | by eapply Hrel].
Qed.

Lemma sort_inv_init (pc : gmap Z Z) :
  (∀ k, pc !! k = if decide (k ∈ dependents sts) then Some 1
                  else if decide (k ∈ ids sts) then Some 0 else None) →
  sort_inv sts (task_id <$> filter (λ s, pc !! task_id s = Some 0) sts) [] pc.
Proof.
  intros Hpc. split; rewrite ?app_nil_l.
  - by apply NoDup_fmap_filter.
  - intros k (s & -> & [_ Hs]%list_elem_of_filter)%list_elem_of_fmap.
    apply elem_of_ids. eauto.
  - intros k Hroot. destruct (Hroot) as (s & Hs & <- & Hd).
    apply list_elem_of_fmap. exists s. split; [done|].
    apply list_elem_of_filter. split; [|done].
    rewrite Hpc, decide_False, decide_True; [done| |].
    + apply elem_of_ids. eauto.
    + intros [p Hp]%elem_of_dependents. by eapply root_not_depends.
  - intros k p _ Hp. by apply elem_of_nil in Hp.
  - intros k p Hd _.
    assert (Hone : pc !! k = Some 1).
    { rewrite Hpc, decide_True; [done|]. apply elem_of_dependents. eauto. }
    split; [done|].
    intros (s & -> & [Hz _]%list_elem_of_filter)%list_elem_of_fmap. congruence.
  - intros k p j _ Hj. by rewrite lookup_nil in Hj.
Qed.

End Unique.

(** The scheduler on a list with unique ids and in-set dependencies: it
    returns an order without repetition that holds exactly the grounded tasks,
    each after the task it depends on. *)
Theorem sort_ok sts :
  NoDup (ids sts) → closed sts →
  ∃ order, _topological_sort sts = Ok order
    ∧ NoDup order
    ∧ (∀ k, k ∈ order ↔ grounded sts k)
    ∧ (∀ k p j, depends sts k p → order !! j = Some k →
         ∃ i, (i < j)%nat ∧ order !! i = Some p).
Proof.
  intros Hnd Hclosed. unfold _topological_sort.
  destruct (link_ok sts (dict_of_ids [] sts) (dict_of_ids 0 sts))
    as (ch & pc & -> & Hch & Hpc).
  { intros s d Hs Hd. rewrite dict_of_ids_lookup, decide_True; [eauto|].
    apply (Hclosed (task_id s)). exists s. done. }
  cbn [mbind outcome_bind].
  assert (Hpc' : ∀ k, pc !! k = if decide (k ∈ dependents sts) then Some 1
                  else if decide (k ∈ ids sts) then Some 0 else None).
  { intros k. by rewrite Hpc, dict_of_ids_lookup. }
  rewrite ready_ok; cycle 1.
  { intros s Hs. rewrite Hpc'.
    destruct (decide (_ ∈ dependents sts)); [eauto|].
    rewrite decide_True; [eauto|]. apply elem_of_ids. eauto. }
  cbn [mbind outcome_bind].
  destruct (sort_loop_inv sts Hnd ch) with
    (fuel := length sts)
    (queue := task_id <$> filter (λ s, pc !! task_id s = Some 0) sts)
    (result := @nil Z) (pc := pc) as (order & pc'' & Hrun & Hinv).
  - intros k Hk. by rewrite Hch, dict_of_ids_lookup, decide_True.
  - by apply sort_inv_init.
  - cbn. lia.
  - exists order. split; [done|].
    pose proof (inv_nodup _ _ _ _ Hinv) as Hnodup. rewrite app_nil_r in Hnodup.
    split; [done|]. split.
    + intros k. by eapply sort_inv_grounded.
    + apply (inv_order _ _ _ _ Hinv).
Qed.

End Scheduler.

(** ** The iteration budget of the scheduler *)

Section Fuel.
Implicit Types (sts : list Subtask) (k p : Z).

Lemma link_pc sts : ∀ (ch ch' : gmap Z (list Z)) (pc pc' : gmap Z Z),
  link sts ch pc = Ok (ch', pc') →
  ∀ k, pc' !! k = if decide (k ∈ dependents sts) then Some 1 else pc !! k.
Proof.
  induction sts as [|s sts IH]; intros ch ch' pc pc'; cbn [link].
  - intros [= <- <-] k. rewrite decide_False; [done | apply not_elem_of_nil].
  - rewrite dependents_cons. destruct (depends_on s) as [d|] eqn:Hd.
    + unfold getitem. destruct (ch !! d) as [l|]; cbn [mbind outcome_bind]; [|done].
      intros Hlink k. rewrite (IH _ _ _ _ Hlink).
      rewrite (decide_True (P := is_Some (Some d))) by eauto.
      rewrite decide_elem_cons.
      destruct (decide (k = task_id s)) as [->|Hne].
      * rewrite lookup_insert_eq. by destruct (decide (_ ∈ _)).
      * by rewrite lookup_insert_ne.
    + intros Hlink k. rewrite (IH _ _ _ _ Hlink).
      by rewrite (decide_False (P := is_Some None)) by (by intros [? ?]).
Qed.

Lemma link_returns sts : ∀ (ch : gmap Z (list Z)) (pc : gmap Z Z),
  link sts ch pc ≠ OutOfFuel.
Proof.
  induction sts as [|s sts IH]; intros ch pc; cbn [link]; [done|].
  destruct (depends_on s) as [d|]; [|apply IH].
  unfold getitem. destruct (ch !! d); cbn [mbind outcome_bind]; [apply IH | done].
Qed.

Lemma ready_inv sts (pc : gmap Z Z) q :
  ready sts pc = Ok q →
  q = task_id <$> filter (λ s, pc !! task_id s = Some 0) sts.
Proof.
  revert q. induction sts as [|s sts IH]; intros q; cbn [ready].
  - by intros [= <-].
  - unfold getitem at 1. destruct (pc !! task_id s) as [n|] eqn:Hn;
      cbn [mbind outcome_bind]; [|done].
    destruct (ready sts pc) as [q'| |]; cbn [mbind outcome_bind]; [|done..].
    intros [= <-]. rewrite filter_cons, Hn, (IH q' eq_refl).
    destruct (Z.eqb_spec n 0) as [->|Hne].
    + by rewrite decide_True.
    + by rewrite decide_False by congruence.
Qed.

Lemma ready_returns sts (pc : gmap Z Z) : ready sts pc ≠ OutOfFuel.
Proof.
  induction sts as [|s sts IH]; cbn [ready]; [done|].
  unfold getitem at 1. destruct (pc !! task_id s); cbn [mbind outcome_bind]; [|done].
  by destruct (ready sts pc).
Qed.

Lemma release_inv sts cs : ∀ (pc pc' : gmap Z Z) (queue queue' enqueued : list Z),
  enqueued_inv sts pc enqueued →
  release cs pc queue = Ok (pc', queue') →
  ∃ new, queue' = queue ++ new ∧ enqueued_inv sts pc' (enqueued ++ new).
Proof.
  induction cs as [|c cs IH]; intros pc pc' queue queue' enqueued Hinv;
    cbn [release].
  - intros [= <- <-]. exists []. by rewrite !app_nil_r.
  - unfold getitem. destruct (pc !! c) as [n|] eqn:Hn; cbn [mbind outcome_bind];
      [|done].
    destruct Hinv as [Hnodup Hdep Hused Hbound].
    destruct (Hbound c n Hn) as [Hle Hone].
    destruct (Z.eqb_spec (n - 1) 0) as [Hz|Hnz]; intros Hrel.
    + assert (n = 1) as -> by lia.
      assert (Hc : c ∉ enqueued).
      { intros (v & Hv & Hv0)%Hused. rewrite Hn in Hv. injection Hv as <-. lia. }
      assert (Hinv1 : enqueued_inv sts (<[c:=1 - 1]> pc) (enqueued ++ [c])).
      { split.
        - apply NoDup_app. split; [done|]. split; [|apply NoDup_singleton].
          intros x Hx ->%list_elem_of_singleton. done.
        - intros k [Hk| ->%list_elem_of_singleton]%elem_of_app; auto.
        - intros k [Hk| ->%list_elem_of_singleton]%elem_of_app.
          + destruct (decide (k = c)) as [->|Hne]; [done|].
            rewrite lookup_insert_ne by done. by apply Hused.
          + rewrite lookup_insert_eq. exists (1 - 1). split; [done | lia].
        - intros k v. destruct (decide (k = c)) as [->|Hne].
          + rewrite lookup_insert_eq. intros [= <-]. split; lia.
          + rewrite lookup_insert_ne by done. apply Hbound. }
      destruct (IH _ _ _ _ _ Hinv1 Hrel) as (new & -> & Hinv').
      exists (c :: new). rewrite <- !app_assoc in *. done.
    + assert (Hinv1 : enqueued_inv sts (<[c:=n - 1]> pc) enqueued).
      { split; [done..| |].
        - intros k Hk. destruct (decide (k = c)) as [->|Hne].
          + rewrite lookup_insert_eq. exists (n - 1). split; [done|].
            destruct (Hused c Hk) as (v & Hv & Hv0). rewrite Hn in Hv.
            injection Hv as <-. lia.
          + rewrite lookup_insert_ne by done. by apply Hused.
        - intros k v. destruct (decide (k = c)) as [->|Hne].
          + rewrite lookup_insert_eq. intros [= <-]. split; lia.
          + rewrite lookup_insert_ne by done. apply Hbound. }
      apply (IH _ _ _ _ _ Hinv1 Hrel).
Qed.

Lemma release_returns cs : ∀ (pc : gmap Z Z) (queue : list Z),
  release cs pc queue ≠ OutOfFuel.
Proof.
  induction cs as [|c cs IH]; intros pc queue; cbn [release]; [done|].
  unfold getitem. destruct (pc !! c) as [n|]; cbn [mbind outcome_bind]; [|done].
  destruct (n - 1 =? 0); apply IH.
Qed.

Lemma sort_loop_returns sts (ch : gmap Z (list Z)) :
  ∀ fuel queue result pc enqueued,
    enqueued_inv sts pc enqueued →
    (length queue + length (dependents sts) ≤ fuel + length enqueued)%nat →
    sort_loop fuel ch queue result pc ≠ OutOfFuel.
Proof.
  intros fuel. induction fuel as [|fuel IH];
    intros queue result pc enqueued Hinv Hlen;
    (destruct queue as [|t queue]; cbn [sort_loop]; [done|]).
  - exfalso.
    pose proof (submseteq_length _ _
      (NoDup_submseteq _ _ (enq_nodup _ _ _ Hinv) (enq_dependents _ _ _ Hinv))).
    cbn in Hlen. lia.
  - unfold getitem. destruct (ch !! t) as [cs|]; cbn [mbind outcome_bind]; [|done].
    destruct (release (merge_sort Z.le cs) pc queue) as [[pc' queue']| |] eqn:Hrel;
      cbn [mbind outcome_bind]; [|done|by apply release_returns in Hrel].
    destruct (release_inv _ _ _ _ _ _ _ Hinv Hrel) as (new & -> & Hinv').
    apply (IH _ _ _ _ Hinv'). rewrite !length_app. cbn in Hlen. lia.
Qed.

Lemma length_filter_disjoint {A : Type} (P Q : A → Prop)
    `{!∀ x, Decision (P x)} `{!∀ x, Decision (Q x)} (l : list A) :
  (∀ x, x ∈ l → P x → Q x → False) →
  (length (filter P l) + length (filter Q l) ≤ length l)%nat.
Proof.
  induction l as [|a l IH]; intros Hdisj; [done|].
  rewrite !filter_cons.
  assert (IH' := IH (λ x Hx, Hdisj x (list_elem_of_further _ _ _ Hx))).
  pose proof (Hdisj a (list_elem_of_here _ _)).
  destruct (decide (P a)), (decide (Q a)); cbn; try lia. tauto.
Qed.

(** The iteration budget of [_topological_sort] is always enough. *)
Theorem sort_returns sts : _topological_sort sts ≠ OutOfFuel.
Proof.
  unfold _topological_sort.
  destruct (link sts _ _) as [[ch pc]| |] eqn:Hlink; cbn [mbind outcome_bind];
    [|done|by apply link_returns in Hlink].
  destruct (ready sts pc) as [q| |] eqn:Hready; cbn [mbind outcome_bind];
    [|done|by apply ready_returns in Hready].
  pose proof (link_pc _ _ _ _ _ Hlink) as Hpc.
  apply ready_inv in Hready as ->.
  apply (sort_loop_returns sts ch _ _ _ _ []).
  - split.
    + apply NoDup_nil_2.
    + intros k Hk. by apply elem_of_nil in Hk.
    + intros k Hk. by apply elem_of_nil in Hk.
    + intros k v. rewrite Hpc, dict_of_ids_lookup.
      destruct (decide (k ∈ dependents sts)); [by intros [= <-]|].
      destruct (decide (k ∈ ids sts)); [|done]. intros [= <-]. split; lia.
  - unfold dependents. rewrite !length_fmap.
    rewrite Nat.add_0_r. apply length_filter_disjoint.
    intros s Hs Hzero Hdep. rewrite Hpc, decide_True in Hzero; [done|].
    apply list_elem_of_fmap. exists s. split; [done|].
    by apply list_elem_of_filter.
Qed.

End Fuel.

(** ** The executor *)

Section Executor.
Context `{B : Backends}.

Lemma bind_eq {A C : Type} (m : M A) (f : A → M C) (s : Coordinator) :
  (m ≫= f) s =
  match m s with
  | (Ok a, s') => f a s'
  | (Raise e, s') => (Raise e, s')
  | (OutOfFuel, s') => (OutOfFuel, s')
  end.
Proof. reflexivity. Qed.

Lemma call_agent_UMS description request context s :
  _call_agent UMS description request context s = (Raise ums_call_error, s).
Proof. reflexivity. Qed.

Lemma call_agent_unknown shown description request context s :
  _call_agent (OtherAgent shown) description request context s
  = (Raise (unknown_agent_error shown), s).
Proof. reflexivity. Qed.

Lemma run_task_raised request by_id results tid subtask e s s' :
  by_id !! tid = Some subtask →
  _call_agent (agent_name subtask) (task_description subtask) request
              (_gather_context subtask results) s = (Raise e, s') →
  is_Exception e = true →
  run_task request by_id results tid s
  = (Ok (dict_set results tid (failed subtask e)), s').
Proof.
  intros Hsub Hcall Hexc. unfold run_task, getitem. rewrite Hsub.
  rewrite bind_eq. cbn [lift]. unfold try_except.
  rewrite bind_eq, Hcall, Hexc. reflexivity.
Qed.

Lemma run_tasks_cons request by_id tid rest results s :
  run_tasks request by_id (tid :: rest) results s =
  match run_task request by_id results tid s with
  | (Ok results', s') => run_tasks request by_id rest results' s'
  | (Raise e, s') => (Raise e, s')
  | (OutOfFuel, s') => (OutOfFuel, s')
  end.
Proof. reflexivity. Qed.

Lemma dict_lookup_set {V : Type} (d : list (Z * V)) k k' v :
  dict_lookup (dict_set d k v) k'
  = if decide (k = k') then Some v else dict_lookup d k'.
Proof.
  induction d as [|[k0 v0] d IH]; cbn [dict_set dict_lookup].
  - destruct (decide (k = k')); done.
  - destruct (decide (k0 = k)) as [->|Hne]; cbn [dict_lookup].
    + destruct (decide (k = k')); done.
    + rewrite IH. destruct (decide (k0 = k')) as [->|Hne'].
      * by rewrite decide_False by done.
      * done.
Qed.

Lemma run_tasks_app request by_id l1 l2 : ∀ results s,
  run_tasks request by_id (l1 ++ l2) results s =
  match run_tasks request by_id l1 results s with
  | (Ok results', s') => run_tasks request by_id l2 results' s'
  | r => r
  end.
Proof.
  induction l1 as [|tid l1 IH]; intros results s; [done|].
  rewrite <- app_comm_cons, !run_tasks_cons.
  destruct (run_task request by_id results tid s) as [[results'| |] s']; [|done..].
  apply IH.
Qed.

(** A call of an agent leaves the session state of the coordinator alone. *)
Lemma call_agent_keeps_session name description request context s :
  let s' := (_call_agent name description request context s).2 in
  gpa_intermediate_state s' = gpa_intermediate_state s
  ∧ ums_conversation_id s' = ums_conversation_id s
  ∧ choice_state s' = choice_state s.
Proof.
  destruct name; [|done..].
  unfold _call_agent. rewrite bind_eq. cbn [get_self]. unfold outbound.
  destruct (gpa_response _ _ _ _) as [[m|e] w]; done.
Qed.

Lemma subtasks_by_id_lookup sts k subtask :
  subtasks_by_id sts !! k = Some subtask → subtask ∈ sts ∧ task_id subtask = k.
Proof.
  unfold subtasks_by_id.
  assert (H : ∀ (m : gmap Z Subtask),
    (∀ k s, m !! k = Some s → s ∈ sts ∧ task_id s = k) →
    ∀ l, (∀ x, x ∈ l → x ∈ sts) → ∀ k s,
      foldl (λ d st, <[task_id st:=st]> d) m l !! k = Some s →
      s ∈ sts ∧ task_id s = k).
  { intros m Hm l. revert m Hm. induction l as [|x l IH]; intros m Hm Hl k' s'.
    - apply Hm.
    - cbn [foldl]. apply IH.
      + intros k0 s0. destruct (decide (task_id x = k0)) as [<-|Hne].
        * rewrite lookup_insert_eq. intros [= <-]. split; [|done].
          apply Hl, list_elem_of_here.
        * rewrite lookup_insert_ne by done. apply Hm.
      + intros y Hy. by apply Hl, list_elem_of_further. }
  apply (H ∅); [|done]. intros k0 s0. by rewrite lookup_empty.
Qed.

Lemma subtasks_by_id_is_Some sts k :
  k ∈ ids sts → is_Some (subtasks_by_id sts !! k).
Proof.
  unfold subtasks_by_id, ids.
  assert (H : ∀ l (m : gmap Z Subtask),
    k ∈ task_id <$> l ∨ is_Some (m !! k) →
    is_Some (foldl (λ d st, <[task_id st:=st]> d) m l !! k)).
  { induction l as [|x l IH]; intros m.
    - rewrite fmap_nil. intros [[]%elem_of_nil|?]. done.
    - rewrite fmap_cons. cbn [foldl]. intros Hk. apply IH.
      rewrite lookup_insert_is_Some.
      destruct Hk as [[->|Hk]%elem_of_cons|Hk]; [by right; left | by left |].
      right. destruct (decide (task_id x = k)); [by left | by right]. }
  intros Hk. apply H. by left.
Qed.

End Executor.

(** ** Claims about the executor *)

Section ExecutorClaims.
Context `{B : Backends}.


(** C3, as the code has it. When the call of the agent for a scheduled
    subtask raises an exception [e] that derives from [Exception], the
    executor records for that subtask an [AgentResult] with [success = false],
    empty content and [error = str(e)], which is empty exactly when [str(e)]
    is; the session state of the coordinator is as before the call, and the
    loop goes on with the remaining subtasks. *)
Theorem gateway_failure_is_isolated (request : Request) (by_id : gmap Z Subtask)
    (results : list (Z * TaskResult)) (tid : Z) (subtask : Subtask)
    (e : PyExc) (rest : list Z) (s s' : Coordinator) :
  by_id !! tid = Some subtask →
  _call_agent (agent_name subtask) (task_description subtask) request
              (_gather_context subtask results) s = (Raise e, s') →
  is_Exception e = true →
  let r := failed subtask e in
  run_task request by_id results tid s = (Ok (dict_set results tid r), s')
  ∧ dict_lookup (dict_set results tid r) tid = Some r
  ∧ success (agent_result r) = false
  ∧ content (agent_result r) = ""
  ∧ error (agent_result r) = Some (exc_str e)
  ∧ (error (agent_result r) = Some "" ↔ exc_str e = "")
  ∧ gpa_intermediate_state s' = gpa_intermediate_state s
  ∧ ums_conversation_id s' = ums_conversation_id s
  ∧ run_tasks request by_id (tid :: rest) results s
    = run_tasks request by_id rest (dict_set results tid r) s'.
Proof.
  intros Hsub Hcall Hexc r.
  pose proof (run_task_raised _ _ _ _ _ _ _ _ Hsub Hcall Hexc) as Hrun.
  pose proof (call_agent_keeps_session (agent_name subtask)
    (task_description subtask) request (_gather_context subtask results) s)
    as Hkeep.
  rewrite Hcall in Hkeep. cbn in Hkeep. destruct Hkeep as (Hgpa & Hums & _).
  repeat split; try done.
  - rewrite dict_lookup_set. by rewrite decide_True.
  - by intros [= ->].
  - cbn. by intros ->.
  - by rewrite run_tasks_cons, Hrun.
Qed.

(** C1, as the code has it. A scheduled subtask whose [agent_name] is neither
    GPA nor UMS does not fail the executor call: the [ValueError] that
    [_call_agent] raises is caught at the per-subtask boundary and recorded as
    that task's failure ([success = false], empty content, error
    [Unknown agent: ...]); the coordinator is unchanged and the loop goes on
    with the remaining subtasks. *)
Theorem unknown_agent_is_recorded (request : Request) (by_id : gmap Z Subtask)
    (results : list (Z * TaskResult)) (tid : Z) (subtask : Subtask)
    (shown : string) (rest : list Z) (s : Coordinator) :
  by_id !! tid = Some subtask →
  agent_name subtask = OtherAgent shown →
  let r := failed subtask (unknown_agent_error shown) in
  run_task request by_id results tid s = (Ok (dict_set results tid r), s)
  ∧ success (agent_result r) = false
  ∧ content (agent_result r) = ""
  ∧ error (agent_result r) = Some ("Unknown agent: " ++ shown)%string
  ∧ run_tasks request by_id (tid :: rest) results s
    = run_tasks request by_id rest (dict_set results tid r) s.
Proof.
  intros Hsub Hname r.
  assert (Hrun : run_task request by_id results tid s
                 = (Ok (dict_set results tid r), s)).
  { apply run_task_raised; [done| |done]. rewrite Hname.
    apply call_agent_unknown. }
  repeat split; try done. by rewrite run_tasks_cons, Hrun.
Qed.

(** C9. The coordinator calls [UMSAgentGateway.response] with the keywords
    [task_description] and [ums_conversation_id], which name no parameter of
    it (its parameters include [choice] and [additional_instructions], which
    the call does not pass): the call raises [TypeError] before the gateway
    does anything, the executor catches it and records [success = false].
    This holds for every UMS subtask, in every state and for every context. *)
Theorem ums_subtask_always_fails (request : Request) (by_id : gmap Z Subtask)
    (results : list (Z * TaskResult)) (tid : Z) (subtask : Subtask)
    (s : Coordinator) :
  by_id !! tid = Some subtask →
  agent_name subtask = UMS →
  ("task_description" ∉ response_params)
  ∧ ("ums_conversation_id" ∉ response_params)
  ∧ ("choice" ∈ response_params)
  ∧ ("additional_instructions" ∈ response_params)
  ∧ (∀ context,
     _call_agent UMS (task_description subtask) request context s
     = (Raise ums_call_error, s))
  ∧ exc_class ums_call_error = TypeError
  ∧ run_task request by_id results tid s
    = (Ok (dict_set results tid (failed subtask ums_call_error)), s)
  ∧ success (agent_result (failed subtask ums_call_error)) = false.
Proof.
  intros Hsub Hname.
  split; [apply (bool_decide_unpack _); vm_compute; exact I|].
  split; [apply (bool_decide_unpack _); vm_compute; exact I|].
  split; [apply (bool_decide_unpack _); vm_compute; exact I|].
  split; [apply (bool_decide_unpack _); vm_compute; exact I|].
  repeat split; try done.
  apply run_task_raised; [done| |done]. by rewrite Hname.
Qed.

(** C10. A [depends_on] that names no task of the list makes the scheduler
    raise [KeyError] when it looks the name up in its adjacency map; nothing
    catches it: the executor call raises it with the coordinator untouched
    (no subtask of the wave was executed), and so does the round in which the
    decomposition gave that list. *)
Theorem dangling_dependency_raises (request : Request) (sts : list Subtask)
    (s0 : Subtask) (d : Z) :
  s0 ∈ sts → depends_on s0 = Some d → d ∉ ids sts →
  ∃ e, exc_class e = KeyError
    ∧ _topological_sort sts = Raise e
    ∧ (∀ s, _execute_subtasks request sts s = (Raise e, s))
    ∧ (∀ fuel task_calls task_results s w,
         task_calls < max_task_calls →
         decompose_call request task_results (world s)
         = (Returns (mkTaskDecomposition sts false), w) →
         (round_loop (S fuel) request task_calls task_results s).1 = Raise e).
Proof.
  intros Hs0 Hd Hnin.
  destruct (link_dangling sts (dict_of_ids [] sts) (dict_of_ids 0 sts) s0 d)
    as (e & Hlink & He); [done..| |].
  { by rewrite dict_of_ids_lookup, decide_False. }
  assert (Hsort : _topological_sort sts = Raise e).
  { unfold _topological_sort. by rewrite Hlink. }
  assert (Hexec : ∀ s, _execute_subtasks request sts s = (Raise e, s)).
  { intros s. unfold _execute_subtasks. by rewrite bind_eq, Hsort. }
  exists e. repeat split; try done.
  intros fuel task_calls task_results s w Hlt Hdec.
  cbn [round_loop]. apply Z.ltb_lt in Hlt. rewrite Hlt.
  rewrite bind_eq. unfold _decompose_task, outbound. rewrite Hdec.
  cbn [subtasks stop]. rewrite bool_decide_eq_false_2.
  - cbn [orb]. by rewrite bind_eq, Hexec.
  - intros ->. by apply elem_of_nil in Hs0.
Qed.

End ExecutorClaims.

(** ** The round loop *)

Section Trace.
Context `{B : Backends}.

Lemma gateway_step_refl s : gateway_step s s.
Proof. exists []. by rewrite app_nil_r. Qed.

Lemma gateway_step_same_trace s s' : trace s' = trace s → gateway_step s s'.
Proof. intros H. exists []. by rewrite app_nil_r. Qed.

Lemma gateway_step_trans s1 s2 s3 :
  gateway_step s1 s2 → gateway_step s2 s3 → gateway_step s1 s3.
Proof.
  intros (evs & H12 & F12) (evs' & H23 & F23). exists (evs ++ evs').
  split; [by rewrite H23, H12, app_assoc | by apply Forall_app].
Qed.

Lemma gateway_only_ret {A : Type} (a : A) : gateway_only (mret a).
Proof. intros s. split; [done | apply gateway_step_refl]. Qed.

Lemma gateway_only_lift {A : Type} (o : Outcome A) :
  o ≠ OutOfFuel → gateway_only (lift o).
Proof. intros Ho s. split; [done | apply gateway_step_refl]. Qed.

Lemma gateway_only_bind {A C : Type} (m : M A) (f : A → M C) :
  gateway_only m → (∀ a, gateway_only (f a)) → gateway_only (m ≫= f).
Proof.
  intros Hm Hf s. rewrite bind_eq. destruct (Hm s) as [Hfuel Hstep].
  destruct (m s) as [[a|e|] s']; cbn in *; [|done..].
  destruct (Hf a s') as [Hfuel' Hstep'].
  split; [done | by eapply gateway_step_trans].
Qed.

Lemma gateway_only_outbound {A : Type} ev (call : World → Reply A * World) :
  is_gateway_call ev = true → gateway_only (outbound ev call).
Proof.
  intros Hev s. unfold outbound.
  destruct (call (world s)) as [[a|e] w]; cbn;
    (split; [done | exists [ev]; split; [done | by apply Forall_singleton]]).
Qed.

Lemma gateway_only_try_except {A : Type} (body : M A) (handler : PyExc → M A) :
  gateway_only body → (∀ e, gateway_only (handler e)) →
  gateway_only (try_except body handler).
Proof.
  intros Hbody Hh s. unfold try_except. destruct (Hbody s) as [Hfuel Hstep].
  destruct (body s) as [[a|e|] s']; cbn in *; [done| |done].
  destruct (is_Exception e); [|done].
  destruct (Hh e s') as [Hfuel' Hstep'].
  split; [done | by eapply gateway_step_trans].
Qed.

Lemma gateway_only_get_self : gateway_only get_self.
Proof. intros s. split; [done | apply gateway_step_refl]. Qed.

Lemma gateway_only_set_ums v : gateway_only (set_ums_conversation_id v).
Proof. intros s. split; [done | by apply gateway_step_same_trace]. Qed.

Lemma gateway_only_set_gpa l : gateway_only (set_gpa_intermediate_state l).
Proof. intros s. split; [done | by apply gateway_step_same_trace]. Qed.

Lemma gateway_only_set_state d : gateway_only (set_state d).
Proof. intros s. split; [done | by apply gateway_step_same_trace]. Qed.

Lemma gateway_only_response request extra : gateway_only (response request extra).
Proof.
  unfold response. apply gateway_only_bind.
  - destruct (negb _); [|apply gateway_only_ret].
    apply gateway_only_bind; [by apply gateway_only_outbound|].
    intros a. apply gateway_only_ret.
  - intros v. apply gateway_only_bind.
    + apply gateway_only_lift. unfold last_item. by destruct (last _).
    + intros m. apply gateway_only_bind; [by apply gateway_only_outbound|].
      intros c. apply gateway_only_bind; [apply gateway_only_set_state|].
      intros _. apply gateway_only_ret.
Qed.

Lemma gateway_only_call_agent name description request context :
  gateway_only (_call_agent name description request context).
Proof.
  destruct name.
  - unfold _call_agent. apply gateway_only_bind; [apply gateway_only_get_self|].
    intros self. by apply gateway_only_outbound.
  - intros s. rewrite call_agent_UMS. split; [done | apply gateway_step_refl].
  - intros s. rewrite call_agent_unknown. split; [done | apply gateway_step_refl].
Qed.

Lemma gateway_only_merge_state message : gateway_only (merge_state message).
Proof.
  unfold merge_state. destruct (truthy_state message) as [d|];
    [|apply gateway_only_ret].
  destruct (truthy _).
  - apply gateway_only_bind.
    + apply gateway_only_lift. unfold state_getitem. by destruct (d !! _).
    + intros v. apply gateway_only_set_ums.
  - destruct (truthy _); [|apply gateway_only_ret].
    apply gateway_only_bind.
    + apply gateway_only_lift. unfold state_getitem. by destruct (d !! _).
    + intros v. apply gateway_only_bind.
      * apply gateway_only_lift. by destruct v.
      * intros items. apply gateway_only_bind; [apply gateway_only_get_self|].
        intros self. apply gateway_only_set_gpa.
Qed.

Lemma gateway_only_run_task request by_id results tid :
  gateway_only (run_task request by_id results tid).
Proof.
  unfold run_task. apply gateway_only_bind.
  - apply gateway_only_lift. unfold getitem. by destruct (by_id !! tid).
  - intros subtask. apply gateway_only_try_except.
    + apply gateway_only_bind; [apply gateway_only_call_agent|].
      intros message. apply gateway_only_bind; [apply gateway_only_merge_state|].
      intros _. apply gateway_only_ret.
    + intros e. apply gateway_only_ret.
Qed.

Lemma gateway_only_run_tasks request by_id order :
  ∀ results, gateway_only (run_tasks request by_id order results).
Proof.
  induction order as [|tid rest IH]; intros results; cbn [run_tasks].
  - apply gateway_only_ret.
  - apply gateway_only_bind; [apply gateway_only_run_task | done].
Qed.

Lemma gateway_only_execute request sts :
  gateway_only (_execute_subtasks request sts).
Proof.
  unfold _execute_subtasks. apply gateway_only_bind.
  - apply gateway_only_lift, sort_returns.
  - intros order. apply gateway_only_bind; [apply gateway_only_run_tasks|].
    intros results. apply gateway_only_ret.
Qed.

Lemma decomposition_calls_app evs evs' :
  decomposition_calls (evs ++ evs')
  = (decomposition_calls evs + decomposition_calls evs')%nat.
Proof. unfold decomposition_calls. by rewrite List.filter_app, length_app. Qed.

Lemma gateway_calls_are_no_rounds evs :
  Forall (λ ev, is_gateway_call ev = true) evs →
  decomposition_calls evs = 0%nat ∧ Forall (λ ev, is_Aggregated ev = false) evs.
Proof.
  induction 1 as [|ev evs Hev _ [IH1 IH2]]; [done|].
  split.
  - unfold decomposition_calls in *. cbn [List.filter].
    by destruct ev.
  - constructor; [by destruct ev | done].
Qed.

Lemma decompose_trace request task_results s :
  (_decompose_task request task_results s).1 ≠ OutOfFuel
  ∧ trace (_decompose_task request task_results s).2
    = trace s ++ [Decomposed task_results].
Proof.
  unfold _decompose_task, outbound.
  by destruct (decompose_call _ _ _) as [[m|e] w].
Qed.

(** The round loop with a budget of [max_task_calls - task_calls] iterations
    comes back, and makes at most that many decomposition calls and no
    aggregation call. *)
Lemma round_loop_bound request : ∀ fuel task_calls task_results s,
  (Z.to_nat (max_task_calls - task_calls) ≤ fuel)%nat →
  (round_loop fuel request task_calls task_results s).1 ≠ OutOfFuel
  ∧ ∃ evs,
      trace (round_loop fuel request task_calls task_results s).2 = trace s ++ evs
      ∧ (decomposition_calls evs ≤ Z.to_nat (max_task_calls - task_calls))%nat
      ∧ Forall (λ ev, is_Aggregated ev = false) evs.
Proof.
  intros fuel. induction fuel as [|fuel IH]; intros task_calls task_results s Hfuel;
    cbn [round_loop]; destruct (Z.ltb_spec task_calls max_task_calls) as [Hlt|Hge].
  - lia.
  - split; [done|]. exists []. rewrite app_nil_r. repeat split; [|done].
    cbn. lia.
  - rewrite bind_eq.
    destruct (decompose_trace request task_results s) as [Hd1 Hd2].
    destruct (_decompose_task request task_results s) as [[td|e|] s1];
      cbn in Hd1, Hd2; [| |done].
    + destruct (bool_decide _ || stop td).
      * split; [done|]. exists [Decomposed task_results].
        split; [done|]. split; [cbn; lia | by repeat constructor].
      * rewrite bind_eq.
        destruct (gateway_only_execute request (subtasks td) s1)
          as [Hfuel' (gw & Hgw & Fgw)].
        destruct (gateway_calls_are_no_rounds gw Fgw) as [Hz Fgw'].
        destruct (_execute_subtasks request (subtasks td) s1)
          as [[iteration|e|] s2]; cbn in Hfuel', Hgw; [| |done].
        -- destruct (IH (task_calls + 1) (task_results ++ iteration) s2)
             as [Hret (evs & Hevs & Hcount & Fagg)]; [lia|].
           split; [done|]. exists ([Decomposed task_results] ++ gw ++ evs).
           split; [cbn; by rewrite Hevs, Hgw, Hd2, <- !app_assoc|]. split.
           ++ rewrite !decomposition_calls_app, Hz.
              change (decomposition_calls [Decomposed task_results]) with 1%nat.
              lia.
           ++ apply Forall_app. split; [by repeat constructor|].
              by apply Forall_app.
        -- split; [done|]. exists ([Decomposed task_results] ++ gw).
           split; [cbn; by rewrite Hgw, Hd2, <- !app_assoc|]. split.
           ++ rewrite !decomposition_calls_app, Hz.
              change (decomposition_calls [Decomposed task_results]) with 1%nat.
              lia.
           ++ apply Forall_app. split; [by repeat constructor | done].
    + split; [done|]. exists [Decomposed task_results].
      split; [done|]. split; [cbn; lia | by repeat constructor].
  - split; [done|]. exists []. rewrite app_nil_r. repeat split; [|done].
    cbn. lia.
Qed.

Lemma handle_request_eq request s :
  handle_request request s =
  match round_loop (Z.to_nat max_task_calls) request 0 [] s with
  | (Ok task_results, s1) =>
      match _aggregate_results request task_results s1 with
      | (Ok final_response, s2) =>
          (Ok final_response,
           mkCoordinator (world s2) (gpa_intermediate_state s2)
             (ums_conversation_id s2)
             (Some (<[UMS_CONVERSATION_ID := ums_conversation_id s2]>
                      {[ GPA_MESSAGES := SList (gpa_intermediate_state s2) ]}))
             (trace s2))
      | (Raise e, s2) => (Raise e, s2)
      | (OutOfFuel, s2) => (OutOfFuel, s2)
      end
  | (Raise e, s1) => (Raise e, s1)
  | (OutOfFuel, s1) => (OutOfFuel, s1)
  end.
Proof.
  unfold handle_request. rewrite bind_eq.
  destruct (round_loop _ _ _ _ _) as [[task_results|e|] s1]; [|done..].
  rewrite bind_eq.
  destruct (_aggregate_results _ _ _) as [[final_response|e|] s2]; done.
Qed.

Lemma aggregate_trace request task_results s :
  (_aggregate_results request task_results s).1 ≠ OutOfFuel
  ∧ trace (_aggregate_results request task_results s).2
    = trace s ++ [Aggregated task_results].
Proof.
  unfold _aggregate_results, outbound.
  by destruct (aggregate_call _ _ _) as [[m|e] w].
Qed.

End Trace.

Section RoundClaims.
Context `{B : Backends}.

(** C5. Whatever the decomposition collaborator answers, [handle_request]
    comes back (with a message or an exception), and it made at most 10
    decomposition calls; when it returns a message, the aggregation call is
    the last call it made, after all decomposition calls. *)
Theorem round_loop_is_capped (request : Request) (s : Coordinator) :
  (handle_request request s).1 ≠ OutOfFuel
  ∧ ∃ rounds tail,
      trace (handle_request request s).2 = trace s ++ rounds ++ tail
      ∧ (decomposition_calls rounds ≤ 10)%nat
      ∧ Forall (λ ev, is_Aggregated ev = false) rounds
      ∧ (tail = [] ∨ ∃ task_results, tail = [Aggregated task_results])
      ∧ (∀ m, (handle_request request s).1 = Ok m → tail ≠ []).
Proof.
  rewrite handle_request_eq.
  destruct (round_loop_bound request (Z.to_nat max_task_calls) 0 [] s)
    as [Hret (rounds & Hrounds & Hcount & Fagg)]; [done|].
  destruct (round_loop _ _ _ _ _) as [[task_results|e|] s1];
    cbn in Hret, Hrounds; [| |done].
  - destruct (aggregate_trace request task_results s1) as [Hret' Hagg].
    destruct (_aggregate_results _ _ _) as [[m|e|] s2]; cbn in Hret', Hagg;
      [| |done].
    + split; [done|]. exists rounds, [Aggregated task_results]. cbn.
      rewrite Hagg, Hrounds, <- app_assoc.
      repeat split; [done|done|eauto|done].
    + split; [done|]. exists rounds, [Aggregated task_results]. cbn.
      rewrite Hagg, Hrounds, <- app_assoc.
      repeat split; [done|done|eauto|done].
  - split; [done|]. exists rounds, []. rewrite app_nil_r. cbn.
    repeat split; [done|done|done|eauto|done].
Qed.

Lemma round_loop_ends request fuel task_calls task_results s td w :
  task_calls < max_task_calls →
  decompose_call request task_results (world s) = (Returns td, w) →
  subtasks td = [] ∨ stop td = true →
  round_loop (S fuel) request task_calls task_results s
  = (Ok task_results,
     mkCoordinator w (gpa_intermediate_state s) (ums_conversation_id s)
                   (choice_state s) (trace s ++ [Decomposed task_results])).
Proof.
  intros Hlt%Z.ltb_lt Hdec Hstop. cbn [round_loop]. rewrite Hlt.
  rewrite bind_eq. unfold _decompose_task, outbound. rewrite Hdec.
  assert (bool_decide (subtasks td = []) || stop td = true) as ->; [|done].
  destruct Hstop as [->| ->]; [done | apply orb_true_r].
Qed.

Lemma round_loop_proceeds request n : ∀ c0 c1 fuel,
  nsteps (proceeds request) n c0 c1 →
  c1.1.1 = c0.1.1 + Z.of_nat n
  ∧ round_loop (n + fuel) request c0.1.1 c0.1.2 c0.2
    = round_loop fuel request c1.1.1 c1.1.2 c1.2.
Proof.
  induction n as [|n IH]; intros c0 c1 fuel Hsteps.
  - inversion Hsteps; subst. split; [lia | done].
  - inversion Hsteps as [|? ? c ? Hstep Hsteps']; subst.
    destruct (IH _ _ fuel Hsteps') as [Hcalls Hloop].
    destruct Hstep as [task_calls task_results s td s1 iteration s2
                         Hlt Hdec Hsub Hstop Hexec].
    cbn in *. split; [lia|]. rewrite <- Hloop.
    apply Z.ltb_lt in Hlt. rewrite Hlt, bind_eq, Hdec.
    rewrite bool_decide_eq_false_2, Hstop by done. cbn [orb].
    by rewrite bind_eq, Hexec.
Qed.

(** C7. In whatever round the decomposition comes back with no subtasks or
    with the stop flag (the rounds before it, if any, went on to the next),
    the loop ends there with the cumulative results, no subtask of that round
    is executed, and the aggregation is called with those results: the calls
    of [handle_request] from that round on are that decomposition call and
    the aggregation call. *)
Theorem empty_or_stop_ends_the_loop (request : Request) (s : Coordinator)
    (task_calls : Z) (task_results : list TaskResult) (sn : Coordinator)
    (td : TaskDecomposition) (w : World) :
  rtc (proceeds request) (0, [], s) (task_calls, task_results, sn) →
  task_calls < max_task_calls →
  decompose_call request task_results (world sn) = (Returns td, w) →
  subtasks td = [] ∨ stop td = true →
  let s1 := mkCoordinator w (gpa_intermediate_state sn) (ums_conversation_id sn)
              (choice_state sn) (trace sn ++ [Decomposed task_results]) in
  round_loop (Z.to_nat max_task_calls) request 0 [] s = (Ok task_results, s1)
  ∧ trace (handle_request request s).2
    = trace sn ++ [Decomposed task_results; Aggregated task_results]
  ∧ (handle_request request s).1 = (_aggregate_results request task_results s1).1.
Proof.
  intros [n Hsteps]%rtc_nsteps Hlt Hdec Hstop s1.
  destruct (round_loop_proceeds request n _ _
              (Z.to_nat max_task_calls - n) Hsteps) as [Hcalls Hloop].
  cbn in Hcalls, Hloop.
  assert (Hn : (n < Z.to_nat max_task_calls)%nat) by lia.
  assert (Hloop' : round_loop (Z.to_nat max_task_calls) request 0 [] s
                   = (Ok task_results, s1)).
  { replace (Z.to_nat max_task_calls)
      with (n + (Z.to_nat max_task_calls - n))%nat at 1 by lia.
    rewrite Hloop.
    replace (Z.to_nat max_task_calls - n)%nat
      with (S (Z.to_nat max_task_calls - n - 1)) by lia.
    by apply (round_loop_ends _ _ _ _ _ td). }
  split; [done|].
  rewrite handle_request_eq, Hloop'.
  destruct (aggregate_trace request task_results s1) as [Hret Hagg].
  destruct (_aggregate_results _ _ _) as [[m|e|] s2]; cbn in Hret, Hagg;
    [| |done]; cbn; rewrite Hagg; by rewrite <- app_assoc.
Qed.

End RoundClaims.

(** ** Session recovery, and the claims about the scheduler *)

Section Recovery.
Context `{B : Backends}.

Lemma scan_history_cons msg rest :
  scan_history (msg :: rest)
  = if truthy (persisted_id msg) then persisted_id msg else scan_history rest.
Proof.
  unfold persisted_id. cbn [scan_history]. by destruct (truthy_state msg).
Qed.

Lemma scan_history_first before m after :
  Forall (λ m', truthy (persisted_id m') = false) before →
  truthy (persisted_id m) = true →
  scan_history (before ++ m :: after) = persisted_id m.
Proof.
  intros Hbefore Hm. induction Hbefore as [|m' before Hm' _ IH].
  - by rewrite app_nil_l, scan_history_cons, Hm.
  - by rewrite <- app_comm_cons, scan_history_cons, Hm'.
Qed.

Lemma first_persisted (msgs : list Message) :
  (∃ m, m ∈ msgs ∧ truthy (persisted_id m) = true) →
  ∃ before m after,
    msgs = before ++ m :: after
    ∧ Forall (λ m', truthy (persisted_id m') = false) before
    ∧ truthy (persisted_id m) = true.
Proof.
  induction msgs as [|m0 msgs IH]; intros (m & Hm & Ht).
  - by apply elem_of_nil in Hm.
  - destruct (truthy (persisted_id m0)) eqn:H0.
    + exists [], m0, msgs. done.
    + destruct IH as (before & m1 & after & -> & Hbefore & H1).
      { apply elem_of_cons in Hm as [->|Hm]; [congruence | eauto]. }
      exists (m0 :: before), m1, after. split; [done|]. split; [|done].
      by constructor.
Qed.

(** With an identifier recovered from the history, [response] goes straight
    to the chat call: no conversation is created. *)
Lemma response_recovered request extra s :
  truthy (__get_ums_conversation_id request) = true →
  messages request ≠ [] →
  ∃ user_message,
    trace (response request extra s).2
    = trace s ++ [CalledUMS (__get_ums_conversation_id request) user_message].
Proof.
  intros Hid Hmsgs. unfold response. rewrite Hid. cbn [negb].
  rewrite bind_eq. cbn [mret M_ret]. rewrite bind_eq. unfold last_item.
  destruct (last (messages request)) as [last_message|] eqn:Hlast.
  - cbn [lift]. rewrite bind_eq. unfold __call_ums_agent, outbound.
    eexists. destruct (call_ums_agent _ _ _) as [[c|e] w]; reflexivity.
  - by apply last_None in Hlast.
Qed.

(** C2, as the code has it. When a message of the incoming history carries a
    truthy UMS session identifier, session recovery returns the identifier
    carried by the first such message in history order, and the gateway does
    not create a conversation: its only outbound call is the chat call, made
    with the recovered identifier. *)
Theorem recovery_returns_first_identifier (request : Request) :
  (∃ m, m ∈ messages request ∧ truthy (persisted_id m) = true) →
  ∃ before m after,
    messages request = before ++ m :: after
    ∧ Forall (λ m', truthy (persisted_id m') = false) before
    ∧ truthy (persisted_id m) = true
    ∧ __get_ums_conversation_id request = persisted_id m
    ∧ ∀ extra s, ∃ user_message,
        trace (response request extra s).2
        = trace s ++ [CalledUMS (persisted_id m) user_message].
Proof.
  intros Hex. destruct (first_persisted _ Hex) as (before & m & after & Hsplit & Hb & Hm).
  assert (Hget : __get_ums_conversation_id request = persisted_id m).
  { unfold __get_ums_conversation_id. rewrite Hsplit.
    by apply scan_history_first. }
  exists before, m, after. repeat split; try done.
  intros extra s. rewrite <- Hget. apply response_recovered.
  - by rewrite Hget.
  - rewrite Hsplit. by destruct before.
Qed.

End Recovery.

Section SchedulerClaims.
Context `{B : Backends}.

Lemma acyclic_by_rank sts (rank : Z → Z) :
  (∀ k p, depends sts k p → rank p < rank k) → ∀ k, ¬ tc (depends sts) k k.
Proof.
  intros Hrank.
  assert (H : ∀ k k', tc (depends sts) k k' → rank k' < rank k).
  { induction 1 as [k k' Hd|k p k' Hd _ IH].
    - by apply Hrank.
    - apply Hrank in Hd. lia. }
  intros k Hk%H. lia.
Qed.

Lemma acyclic_grounded sts :
  closed sts → (∀ k, ¬ tc (depends sts) k k) →
  ∀ k, k ∈ ids sts → grounded sts k.
Proof.
  intros Hclosed Hacyclic.
  assert (Hirr : Irreflexive (tc (depends sts))) by exact Hacyclic.
  assert (Hsn : ∀ k, sn (depends sts) k).
  { intros k. apply tc_finite_sn; [done|]. exists (ids sts).
    intros p Hp. induction Hp as [k p Hd|k q p Hd _ IH]; [|done].
    by apply (Hclosed k). }
  intros k. induction (Hsn k) as [k _ IH]. intros Hk.
  apply ids_root_or_depends in Hk as [Hroot|[p Hd]].
  - by apply grounded_root.
  - apply (grounded_child _ k p); [done|]. apply IH; [done|].
    by apply (Hclosed k).
Qed.

(** C4. On a single-parent dependency forest (unique task ids, every
    [depends_on] names a task of the set, no cycle) the scheduler returns an
    order that holds every task exactly once and in which every task comes
    strictly after the task it depends on. *)
Theorem scheduler_orders_forest (sts : list Subtask) :
  NoDup (ids sts) →
  closed sts →
  (∀ k, ¬ tc (depends sts) k k) →
  ∃ order, _topological_sort sts = Ok order
    ∧ order ≡ₚ ids sts
    ∧ ∀ s p, s ∈ sts → depends_on s = Some p →
        ∃ i j, (i < j)%nat ∧ order !! i = Some p ∧ order !! j = Some (task_id s).
Proof.
  intros Hnd Hclosed Hacyclic.
  destruct (sort_ok sts Hnd Hclosed) as (order & Hsort & Hnodup & Hin & Hord).
  pose proof (acyclic_grounded sts Hclosed Hacyclic) as Hall.
  assert (Hmem : ∀ k, k ∈ order ↔ k ∈ ids sts).
  { intros k. rewrite Hin. split; [|by apply Hall].
    induction 1 as [k Hroot|k p Hd _ _]; apply ids_root_or_depends; eauto. }
  exists order. split; [done|]. split; [by apply NoDup_Permutation|].
  intros s p Hs Hp.
  assert (Hd : depends sts (task_id s) p) by (exists s; done).
  assert (Hk : task_id s ∈ order).
  { apply Hmem, elem_of_ids. eauto. }
  apply list_elem_of_lookup_1 in Hk as [j Hj].
  destruct (Hord _ _ _ Hd Hj) as (i & Hi & Hpi). eauto.
Qed.

Lemma self_dependent_not_grounded sts t :
  NoDup (ids sts) → depends sts t t → ¬ grounded sts t.
Proof.
  intros Hnd Hself Hg. induction Hg as [k Hroot|k p Hd _ IH].
  - by eapply root_not_depends.
  - rewrite (depends_fun sts Hnd _ _ _ Hself Hd) in Hself. by apply IH.
Qed.

Lemma descendant_not_grounded sts t d :
  NoDup (ids sts) → ¬ grounded sts t → rtc (depends sts) d t → ¬ grounded sts d.
Proof.
  intros Hnd Ht Hrtc. induction Hrtc as [t|d d' t Hd _ IH]; [done|].
  intros Hg. apply (IH Ht). destruct Hg as [k Hroot|k p Hd' Hp].
  - exfalso. by eapply root_not_depends.
  - by rewrite (depends_fun sts Hnd _ _ _ Hd Hd').
Qed.

Lemma elem_of_dict_values_set (results : list (Z * TaskResult)) k r r' :
  r' ∈ dict_values (dict_set results k r) → r' = r ∨ r' ∈ dict_values results.
Proof.
  unfold dict_values. induction results as [|[k0 r0] results IH];
    cbn [dict_set].
  - rewrite fmap_cons, fmap_nil. intros ->%list_elem_of_singleton. by left.
  - destruct (decide (k0 = k)) as [->|Hne]; rewrite !fmap_cons; cbn [snd].
    + intros [->|Hr]%elem_of_cons; [by left|].
      right. by apply list_elem_of_further.
    + intros [->|Hr]%elem_of_cons.
      * right. apply list_elem_of_here.
      * destruct (IH Hr) as [->|Hin]; [by left|].
        right. by apply list_elem_of_further.
Qed.

(** One iteration of the executor's loop records a result for its task, or
    lets through an exception that does not derive from [Exception]. *)
Lemma run_task_outcome request by_id results tid subtask s :
  by_id !! tid = Some subtask →
  match (run_task request by_id results tid s).1 with
  | Ok results' => ∃ r, results' = dict_set results tid r ∧ task r = subtask
  | Raise e => is_Exception e = false
  | OutOfFuel => False
  end.
Proof.
  intros Hsub. unfold run_task, getitem. rewrite Hsub, bind_eq. cbn [lift].
  unfold try_except. rewrite bind_eq.
  destruct (gateway_only_call_agent (agent_name subtask)
              (task_description subtask) request
              (_gather_context subtask results) s) as [Hfuel _].
  destruct (_call_agent _ _ _ _ s) as [[message|e|] s1]; cbn in Hfuel; [| |done].
  - rewrite bind_eq.
    destruct (gateway_only_merge_state message s1) as [Hfuel' _].
    destruct (merge_state message s1) as [[[]|e|] s2]; cbn in Hfuel'; [| |done].
    + cbn. eauto.
    + destruct (is_Exception e) eqn:He; cbn; eauto.
  - destruct (is_Exception e) eqn:He; cbn; eauto.
Qed.

Lemma run_tasks_outcome request by_id (allowed : Z → Prop) order :
  (∀ k, k ∈ order → allowed k ∧ ∃ subtask, by_id !! k = Some subtask
                                            ∧ task_id subtask = k) →
  ∀ results s,
    (∀ r, r ∈ dict_values results → allowed (task_id (task r))) →
    match (run_tasks request by_id order results s).1 with
    | Ok results' => ∀ r, r ∈ dict_values results' → allowed (task_id (task r))
    | Raise e => is_Exception e = false
    | OutOfFuel => False
    end.
Proof.
  induction order as [|tid rest IH]; intros Horder results s Hres; [done|].
  rewrite run_tasks_cons.
  destruct (Horder tid) as (Hallowed & subtask & Hsub & Hid);
    [apply list_elem_of_here|].
  pose proof (run_task_outcome request by_id results tid subtask s Hsub) as Hone.
  destruct (run_task request by_id results tid s) as [[results'|e|] s1];
    cbn in Hone; [|done..].
  destruct Hone as (r & -> & Hr). apply IH.
  - intros k Hk. by apply Horder, list_elem_of_further.
  - intros r' [->|Hin]%elem_of_dict_values_set; [|by apply Hres].
    by rewrite Hr, Hid.
Qed.

(** C8. On a set of subtasks with unique ids whose [depends_on] all name
    tasks of the set, the scheduler raises nothing and returns exactly the
    tasks that reach a task without dependency through their chain of
    dependencies; a task that depends on itself and every task that depends
    on it, directly or not, are left out. The executor then records results
    for scheduled tasks only: the tasks left out are never executed and have
    no [TaskResult]. Both conditions are needed: when a [depends_on] names no
    task of the set the scheduler raises [KeyError], and an id that is
    repeated can be scheduled through another of its entries. *)
Theorem scheduler_drops_cycles (request : Request) (sts : list Subtask) :
  NoDup (ids sts) →
  closed sts →
  ∃ order, _topological_sort sts = Ok order
    ∧ (∀ k, k ∈ order ↔ grounded sts k)
    ∧ (∀ t d, depends sts t t → rtc (depends sts) d t → d ∉ order)
    ∧ ∀ s, match (_execute_subtasks request sts s).1 with
           | Ok results => ∀ r, r ∈ results → task_id (task r) ∈ order
           | Raise e => is_Exception e = false
           | OutOfFuel => False
           end.
Proof.
  intros Hnd Hclosed.
  destruct (sort_ok sts Hnd Hclosed) as (order & Hsort & Hnodup & Hin & Hord).
  exists order. split; [done|]. split; [done|]. split.
  - intros t d Hself Hrtc Hd%Hin. revert Hd.
    apply (descendant_not_grounded sts t d); [done| |done].
    by apply self_dependent_not_grounded.
  - intros s. unfold _execute_subtasks. rewrite bind_eq, Hsort. cbn [lift].
    rewrite bind_eq.
    pose proof (run_tasks_outcome request (subtasks_by_id sts)
                  (λ k, k ∈ order) order) as Hrun.
    specialize (Hrun) with (results := []) (s := s).
    destruct (run_tasks request (subtasks_by_id sts) order [] s)
      as [[results|e|] s1]; cbn in Hrun |- *; apply Hrun.
    all: try (intros r Hr; by apply elem_of_nil in Hr).
    all: intros k Hk; (split; [done|]).
    all: assert (Hids : k ∈ ids sts) by
      (apply Hin in Hk; destruct Hk; apply ids_root_or_depends; eauto).
    all: destruct (subtasks_by_id_is_Some sts k Hids) as [subtask Hsub].
    all: exists subtask; split; [done|].
    all: by apply subtasks_by_id_lookup in Hsub as [_ ?].
Qed.

End SchedulerClaims.

(** * Examples, counterexamples and instances *)

Example sort_demo_forest : _topological_sort demo_forest = Ok [1; 2; 4; 3].
Proof. vm_compute. reflexivity. Qed.

Example sort_demo_cycle : _topological_sort demo_cycle = Ok [3].
Proof. vm_compute. reflexivity. Qed.

Example sort_demo_dangling :
  _topological_sort demo_dangling = Raise (mkExc KeyError "7").
Proof. vm_compute. reflexivity. Qed.

(** The cap is reached: a collaborator that never stops is called 10 times. *)
Example ten_rounds :
  let B := demo_backends never_stop gpa_echo in
  decomposition_calls (trace (handle_request demo_request (fresh O)).2) = 10%nat
  ∧ world (handle_request demo_request (fresh O)).2 = 10%nat.
Proof. vm_compute. done. Qed.

(** A first round without subtasks: the loop ends with no result and the
    aggregation is called all the same. *)
Example scenario_empty_round :
  let B := demo_backends (λ _, Returns (mkTaskDecomposition [] false)) gpa_echo in
  trace (handle_request demo_request (fresh O)).2 = [Decomposed []; Aggregated []]
  ∧ (handle_request demo_request (fresh O)).1
    = Ok (mkMessage ASSISTANT "done" None).
Proof. vm_compute. done. Qed.

(** The scenario of section 8: the order is [[1; 2]] and subtask 2 gets the
    result of subtask 1. *)
Example scenario_order : _topological_sort [st 1 None; st 2 (Some 1)] = Ok [1; 2].
Proof. vm_compute. reflexivity. Qed.

Example scenario_context :
  let B := quiet in
  trace (_execute_subtasks demo_request [st 1 None; st 2 (Some 1)] (fresh O)).2
  = [CalledGPA "";
     CalledGPA (instruction_of "" (Some (demo_dump
        (mkTaskResult (st 1 None) (mkAgentResult 1 GPA "X" true None)))))].
Proof. vm_compute. reflexivity. Qed.

(** C1, counterexample: a list whose only subtask names an unknown agent. The
    executor call returns; the error is that task's recorded failure. *)
Lemma unknown_agent_executor_returns :
  let B := quiet in
  _execute_subtasks demo_request [unknown_task] (fresh O)
  = (Ok [mkTaskResult unknown_task
           (mkAgentResult 1 (OtherAgent "XYZ") "" false
                          (Some "Unknown agent: XYZ"))],
     fresh O)
  ∧ ¬ ∃ e, (_execute_subtasks demo_request [unknown_task] (fresh O)).1 = Raise e.
Proof. split; [vm_compute; reflexivity|]. intros [e He]. vm_compute in He. done. Qed.

(** C2, counterexample: two messages of the history carry different
    identifiers. Recovery returns the older one, not the most recently
    persisted one. *)
Lemma recovery_returns_oldest_identifier :
  (∃ m, m ∈ messages two_sessions ∧ truthy (persisted_id m) = true)
  ∧ __get_ums_conversation_id two_sessions = SStr "old"
  ∧ most_recently_persisted_id two_sessions = SStr "new"
  ∧ __get_ums_conversation_id two_sessions
    ≠ most_recently_persisted_id two_sessions.
Proof.
  split; [|split; [|split]].
  - exists (assistant_with_id "old"). split; [apply list_elem_of_here | done].
  - vm_compute. reflexivity.
  - vm_compute. reflexivity.
  - vm_compute. done.
Qed.

(** C3, counterexample: the gateway raises an exception whose [str] is empty;
    the recorded error string is empty too. *)
Lemma empty_error_is_recorded :
  let B := demo_backends one_round gpa_silent_failure in
  (_call_agent GPA "" demo_request None (fresh O)).1
  = Raise (mkExc OtherException "")
  ∧ (_execute_subtasks demo_request [st 1 None] (fresh O)).1
    = Ok [mkTaskResult (st 1 None) (mkAgentResult 1 GPA "" false (Some ""))]
  ∧ ¬ ∃ r msg, (_execute_subtasks demo_request [st 1 None] (fresh O)).1 = Ok [r]
               ∧ error (agent_result r) = Some msg ∧ msg ≠ "".
Proof.
  split; [vm_compute; reflexivity|]. split; [vm_compute; reflexivity|].
  intros (r & msg & Hr & Herr & Hne). vm_compute in Hr.
  injection Hr as <-. cbn in Herr. by injection Herr as <-.
Qed.

(** C8, counterexample: a list with a task that depends on itself and a task
    whose dependency is not in the list. The scheduler does not leave the
    first out in silence: it raises [KeyError] for the second, and so does
    the executor, before any task is run. *)
Lemma self_dependency_beside_dangling_raises :
  let B := quiet in
  depends demo_cycle_dangling 1 1
  ∧ _topological_sort demo_cycle_dangling = Raise (mkExc KeyError "7")
  ∧ _execute_subtasks demo_request demo_cycle_dangling (fresh O)
    = (Raise (mkExc KeyError "7"), fresh O)
  ∧ ¬ ∃ order, _topological_sort demo_cycle_dangling = Ok order.
Proof.
  split; [|split; [|split]].
  - exists (st 1 (Some 1)). split; [apply list_elem_of_here | done].
  - vm_compute. reflexivity.
  - vm_compute. reflexivity.
  - intros [order Horder]. vm_compute in Horder. done.
Qed.

(** With a repeated id the count of the first loop is 1 however many entries
    the id has: the task 1 below depends on itself in one entry and on task 2
    in another, and is scheduled when task 2 is done. *)
Example repeated_id_schedules_self_dependency :
  depends [st 1 (Some 1); st 1 (Some 2); st 2 None] 1 1
  ∧ _topological_sort [st 1 (Some 1); st 1 (Some 2); st 2 None] = Ok [2; 1].
Proof.
  split; [|vm_compute; reflexivity].
  exists (st 1 (Some 1)). split; [apply list_elem_of_here | done].
Qed.

(** *** Instances of the theorems *)

Lemma unknown_agent_is_recorded_witness :
  let B := quiet in
  run_tasks demo_request {[ 1 := unknown_task ]} [1] [] (@fresh B O)
  = (Ok [(1, failed unknown_task (unknown_agent_error "XYZ"))], fresh O).
Proof.
  intros B.
  destruct (unknown_agent_is_recorded (B := B) demo_request
              {[ 1 := unknown_task ]} [] 1 unknown_task "XYZ" [] (@fresh B O)
              ltac:(apply lookup_singleton_eq) eq_refl)
    as (_ & _ & _ & _ & Hloop).
  exact Hloop.
Defined.

Lemma recovery_returns_first_identifier_witness :
  let B := quiet in
  __get_ums_conversation_id one_session = SStr "abc"
  ∧ ∃ user_message,
      trace (response one_session None (@fresh B O)).2
      = [CalledUMS (SStr "abc") user_message].
Proof.
  intros B.
  destruct (recovery_returns_first_identifier (B := B) one_session)
    as (before & m & after & Hsplit & Hbefore & Hm & Hget & Hresp).
  { exists (assistant_with_id "abc").
    split; [apply list_elem_of_further, list_elem_of_here | reflexivity]. }
  split; [reflexivity|].
  destruct (Hresp None (@fresh B O)) as [user_message Htrace].
  exists user_message. rewrite Htrace, <- Hget. reflexivity.
Defined.

Lemma gateway_failure_is_isolated_witness :
  let B := demo_backends one_round gpa_timeout in
  let s' := @mkCoordinator B O [] SNone None [CalledGPA ""] in
  run_task demo_request {[ 1 := st 1 None ]} [] 1 (@fresh B O)
  = (Ok [(1, failed (st 1 None) (mkExc OtherException "read timed out"))], s')
  ∧ error (agent_result (failed (st 1 None)
                           (mkExc OtherException "read timed out")))
    = Some "read timed out".
Proof.
  intros B s'.
  destruct (gateway_failure_is_isolated (B := B) demo_request
              {[ 1 := st 1 None ]} [] 1 (st 1 None)
              (mkExc OtherException "read timed out") [] (@fresh B O) s'
              ltac:(apply lookup_singleton_eq) eq_refl eq_refl)
    as (Hrun & _ & _ & _ & Herr & _).
  split; [exact Hrun | exact Herr].
Defined.

Lemma demo_forest_NoDup : NoDup (ids demo_forest).
Proof. apply (bool_decide_unpack _). vm_compute. exact I. Qed.

Lemma demo_forest_depends k p :
  depends demo_forest k p → (k = 3 ∧ p = 2) ∨ (k = 2 ∧ p = 1) ∨ (k = 4 ∧ p = 1).
Proof.
  intros (s & Hs & <- & Hd). unfold demo_forest in Hs.
  repeat (apply elem_of_cons in Hs as [->|Hs]); cbn in Hd |- *;
    [injection Hd as <-; auto| discriminate |
     injection Hd as <-; auto | injection Hd as <-; auto |
     by apply elem_of_nil in Hs].
Qed.

Lemma demo_forest_closed : closed demo_forest.
Proof.
  intros k p [[_ ->]|[[_ ->]|[_ ->]]]%demo_forest_depends;
    apply (bool_decide_unpack _); vm_compute; exact I.
Qed.

Lemma demo_forest_acyclic k : ¬ tc (depends demo_forest) k k.
Proof.
  apply (acyclic_by_rank demo_forest id).
  intros k' p [[-> ->]|[[-> ->]|[-> ->]]]%demo_forest_depends; unfold id; lia.
Qed.

Lemma scheduler_orders_forest_witness :
  ∃ order, _topological_sort demo_forest = Ok order
    ∧ order ≡ₚ ids demo_forest
    ∧ ∀ s p, s ∈ demo_forest → depends_on s = Some p →
        ∃ i j, (i < j)%nat ∧ order !! i = Some p ∧ order !! j = Some (task_id s).
Proof.
  exact (scheduler_orders_forest demo_forest demo_forest_NoDup
           demo_forest_closed demo_forest_acyclic).
Defined.

Lemma round_loop_is_capped_witness :
  let B := demo_backends never_stop gpa_echo in
  (handle_request demo_request (@fresh B O)).1 ≠ OutOfFuel.
Proof.
  intros B. exact (proj1 (round_loop_is_capped (B := B) demo_request (@fresh B O))).
Defined.


Lemma one_round_proceeds :
  let B := quiet in
  proceeds demo_request (0, [], fresh O)
    (0 + 1,
     [] ++ [mkTaskResult (st 1 None) (mkAgentResult 1 GPA "X" true None)],
     mkCoordinator 1%nat [] SNone None [Decomposed []; CalledGPA ""]).
Proof.
  intros B.
  eapply (proceeds_round (B := B) demo_request 0 [] (@fresh B O)
            (mkTaskDecomposition [st 1 None] false)).
  - done.
  - reflexivity.
  - done.
  - reflexivity.
  - vm_compute. reflexivity.
Qed.

Lemma empty_or_stop_ends_the_loop_witness :
  let B := quiet in
  let done_1 := mkTaskResult (st 1 None) (mkAgentResult 1 GPA "X" true None) in
  trace (handle_request demo_request (@fresh B O)).2
  = [Decomposed []; CalledGPA ""; Decomposed [done_1]; Aggregated [done_1]].
Proof.
  intros B done_1.
  destruct (empty_or_stop_ends_the_loop (B := B) demo_request (@fresh B O)
              1 [done_1]
              (@mkCoordinator B 1%nat [] SNone None [Decomposed []; CalledGPA ""])
              (mkTaskDecomposition [] false) (2%nat : @World B))
    as (_ & Htrace & _).
  - apply rtc_once. exact one_round_proceeds.
  - reflexivity.
  - reflexivity.
  - left. reflexivity.
  - exact Htrace.
Defined.

Lemma demo_cycle_NoDup : NoDup (ids demo_cycle).
Proof. apply (bool_decide_unpack _). vm_compute. exact I. Qed.

Lemma demo_cycle_closed : closed demo_cycle.
Proof.
  intros k p (s & Hs & <- & Hd). unfold demo_cycle in Hs.
  repeat (apply elem_of_cons in Hs as [->|Hs]); cbn in Hd;
    [injection Hd as <- | injection Hd as <- | discriminate |
     by apply elem_of_nil in Hs];
    apply (bool_decide_unpack _); vm_compute; exact I.
Qed.

Lemma scheduler_drops_cycles_witness :
  let B := quiet in
  ∃ order, _topological_sort demo_cycle = Ok order ∧ (1 ∉ order) ∧ (2 ∉ order).
Proof.
  intros B.
  destruct (scheduler_drops_cycles (B := B) demo_request demo_cycle
              demo_cycle_NoDup demo_cycle_closed)
    as (order & Hsort & _ & Hdrop & _).
  assert (Hself : depends demo_cycle 1 1).
  { exists (st 1 (Some 1)). split; [apply list_elem_of_here | done]. }
  exists order. split; [exact Hsort|]. split.
  - apply (Hdrop 1 1 Hself). apply rtc_refl.
  - apply (Hdrop 1 2 Hself). apply rtc_once.
    exists (st 2 (Some 1)).
    split; [apply list_elem_of_further, list_elem_of_here | done].
Defined.

Lemma ums_subtask_always_fails_witness :
  let B := quiet in
  run_task demo_request {[ 2 := ums_task ]} [] 2 (@fresh B O)
  = (Ok [(2, failed ums_task ums_call_error)], fresh O).
Proof.
  intros B.
  destruct (ums_subtask_always_fails (B := B) demo_request {[ 2 := ums_task ]}
              [] 2 ums_task (@fresh B O)
              ltac:(apply lookup_singleton_eq) eq_refl)
    as (_ & _ & _ & _ & _ & _ & Hrun & _).
  exact Hrun.
Defined.

Lemma dangling_dependency_raises_witness :
  let B := quiet in
  ∃ e, exc_class e = KeyError
    ∧ _topological_sort demo_dangling = Raise e
    ∧ ∀ s, _execute_subtasks demo_request demo_dangling s = (Raise e, s).
Proof.
  intros B.
  destruct (dangling_dependency_raises (B := B) demo_request demo_dangling
              (st 2 (Some 7)) 7) as (e & He & Hsort & Hexec & _).
  - apply list_elem_of_further, list_elem_of_here.
  - reflexivity.
  - apply (bool_decide_unpack _). vm_compute. exact I.
  - exists e. split; [exact He|]. split; [exact Hsort | exact Hexec].
Defined.

(** ** More on the scheduler *)

Section SchedulerMore.
Implicit Types (sts : list Subtask) (k p : Z).

Lemma filter_iff {A : Type} (P Q : A → Prop) `{!∀ x, Decision (P x)}
    `{!∀ x, Decision (Q x)} (l : list A) :
  (∀ x, x ∈ l → P x ↔ Q x) → filter P l = filter Q l.
Proof.
  induction l as [|a l IH]; intros Hiff; [done|].
  rewrite !filter_cons.
  rewrite IH by (intros x Hx; apply Hiff; by apply list_elem_of_further).
  pose proof (Hiff a (list_elem_of_here _ _)).
  destruct (decide (P a)), (decide (Q a)); tauto.
Qed.

Lemma filter_all {A : Type} (P : A → Prop) `{!∀ x, Decision (P x)} (l : list A) :
  (∀ x, x ∈ l → P x) → filter P l = l.
Proof.
  induction l as [|a l IH]; intros Hall; [done|].
  rewrite filter_cons, decide_True by apply Hall, list_elem_of_here.
  f_equal. apply IH. intros x Hx. by apply Hall, list_elem_of_further.
Qed.

Lemma link_Ok_closed sts : ∀ (ch ch' : gmap Z (list Z)) (pc pc' : gmap Z Z),
  link sts ch pc = Ok (ch', pc') →
  ∀ s d, s ∈ sts → depends_on s = Some d → is_Some (ch !! d).
Proof.
  induction sts as [|s0 sts IH]; intros ch ch' pc pc' Hlink s d Hs Hd.
  - by apply elem_of_nil in Hs.
  - cbn [link] in Hlink. destruct (depends_on s0) as [d0|] eqn:Hd0.
    + unfold getitem in Hlink. destruct (ch !! d0) as [l|] eqn:Hl;
        cbn [mbind outcome_bind] in Hlink; [|done].
      apply elem_of_cons in Hs as [->|Hs].
      * assert (d = d0) as -> by congruence. eauto.
      * pose proof (IH _ _ _ _ Hlink s d Hs Hd) as Hsome.
        apply lookup_insert_is_Some in Hsome as [<-|[_ ?]]; eauto.
    + apply elem_of_cons in Hs as [->|Hs]; [congruence|].
      by apply (IH _ _ _ _ Hlink s d).
Qed.

Lemma link_raises_KeyError sts : ∀ (ch : gmap Z (list Z)) (pc : gmap Z Z) e,
  link sts ch pc = Raise e → exc_class e = KeyError.
Proof.
  induction sts as [|s0 sts IH]; intros ch pc e; cbn [link]; [done|].
  destruct (depends_on s0) as [d0|]; [|apply IH].
  unfold getitem. destruct (ch !! d0) as [l|]; cbn [mbind outcome_bind].
  - apply IH.
  - by intros [= <-].
Qed.

(** The first loop stops at the first dependency that is no key. *)
Lemma link_first_dangling pre : ∀ (ch : gmap Z (list Z)) (pc : gmap Z Z) s post d,
  (∀ s' d', s' ∈ pre → depends_on s' = Some d' → is_Some (ch !! d')) →
  depends_on s = Some d → ch !! d = None →
  link (pre ++ s :: post) ch pc = Raise (mkExc KeyError (pretty d)).
Proof.
  induction pre as [|s0 pre IH]; intros ch pc s post d Hpre Hd Hnone.
  - rewrite app_nil_l. cbn [link]. rewrite Hd. unfold getitem. by rewrite Hnone.
  - rewrite <- app_comm_cons. cbn [link].
    destruct (depends_on s0) as [d0|] eqn:Hd0.
    + destruct (Hpre s0 d0) as [l Hl]; [apply list_elem_of_here | done |].
      unfold getitem. rewrite Hl. cbn [mbind outcome_bind].
      apply IH; [|done|].
      * intros s' d' Hs' Hd'. rewrite lookup_insert_is_Some.
        destruct (decide (d0 = d')); [by left | right]. split; [done|].
        apply (Hpre s' d'); [by apply list_elem_of_further | done].
      * rewrite lookup_insert_ne; [done | congruence].
    + apply IH; [|done..]. intros s' d' Hs' Hd'.
      apply (Hpre s' d'); [by apply list_elem_of_further | done].
Qed.

Lemma release_general cs : ∀ (pc : gmap Z Z) (queue : list Z),
  (∀ c, c ∈ cs → is_Some (pc !! c)) →
  ∃ pc' new, release cs pc queue = Ok (pc', queue ++ new)
    ∧ (∀ c, c ∈ new → c ∈ cs)
    ∧ (∀ k, is_Some (pc !! k) → is_Some (pc' !! k)).
Proof.
  induction cs as [|c cs IH]; intros pc queue Hkeys; cbn [release].
  - exists pc, []. rewrite app_nil_r. split; [done|]. split; [|done].
    intros c Hc. by apply elem_of_nil in Hc.
  - destruct (Hkeys c) as [n Hn]; [apply list_elem_of_here|].
    unfold getitem. rewrite Hn. cbn [mbind outcome_bind].
    assert (Hkeys' : ∀ c', c' ∈ cs → is_Some (<[c:=n - 1]> pc !! c')).
    { intros c' Hc'. rewrite lookup_insert_is_Some.
      destruct (decide (c = c')); [by left | right]. split; [done|].
      by apply Hkeys, list_elem_of_further. }
    assert (Hmono : ∀ k, is_Some (pc !! k) → is_Some (<[c:=n - 1]> pc !! k)).
    { intros k Hk. rewrite lookup_insert_is_Some.
      destruct (decide (c = k)); [by left | by right]. }
    destruct (n - 1 =? 0).
    + destruct (IH (<[c:=n - 1]> pc) (queue ++ [c]) Hkeys')
        as (pc' & new & -> & Hnew & Hpc').
      exists pc', (c :: new). rewrite <- app_assoc. split; [done|]. split.
      * intros c' [->|Hc']%elem_of_cons; [apply list_elem_of_here|].
        by apply list_elem_of_further, Hnew.
      * intros k Hk. by apply Hpc', Hmono.
    + destruct (IH (<[c:=n - 1]> pc) queue Hkeys')
        as (pc' & new & -> & Hnew & Hpc').
      exists pc', new. split; [done|]. split.
      * intros c' Hc'. by apply list_elem_of_further, Hnew.
      * intros k Hk. by apply Hpc', Hmono.
Qed.

(** The [while] loop on well-keyed maps raises nothing; what it returns
    begins with what was already output followed by the queue, holds only
    task ids, and has at most one more entry per iteration. *)
Lemma sort_loop_general sts (ch : gmap Z (list Z)) :
  (∀ k, k ∈ ids sts → ∃ cs, ch !! k = Some cs ∧ ∀ c, c ∈ cs → c ∈ ids sts) →
  ∀ fuel queue result pc,
    (∀ k, k ∈ queue → k ∈ ids sts) →
    (∀ k, k ∈ ids sts → is_Some (pc !! k)) →
    match sort_loop fuel ch queue result pc with
    | Ok order =>
        (∃ later, order = result ++ queue ++ later)
        ∧ (∀ k, k ∈ order → k ∈ result ∨ k ∈ ids sts)
        ∧ (length order ≤ length result + fuel)%nat
    | Raise e => False
    | OutOfFuel => True
    end.
Proof.
  intros Hch fuel. induction fuel as [|fuel IH]; intros queue result pc Hq Hpc;
    (destruct queue as [|t queue]; cbn [sort_loop]).
  - split; [exists []; by rewrite !app_nil_r|]. split; [auto | lia].
  - done.
  - split; [exists []; by rewrite !app_nil_r|]. split; [auto | lia].
  - destruct (Hch t) as (cs & Hcs & Hin); [apply Hq, list_elem_of_here|].
    unfold getitem. rewrite Hcs. cbn [mbind outcome_bind].
    destruct (release_general (merge_sort Z.le cs) pc queue)
      as (pc' & new & -> & Hnew & Hpc').
    { intros c Hc. rewrite merge_sort_Permutation in Hc. by apply Hpc, Hin. }
    cbn [mbind outcome_bind].
    assert (Hq' : ∀ k, k ∈ queue ++ new → k ∈ ids sts).
    { intros k [Hk|Hk]%elem_of_app; [by apply Hq, list_elem_of_further|].
      apply Hin. rewrite <- (merge_sort_Permutation Z.le). by apply Hnew. }
    specialize (IH (queue ++ new) (result ++ [t]) pc' Hq'
                  (λ k Hk, Hpc' k (Hpc k Hk))).
    destruct (sort_loop fuel ch (queue ++ new) (result ++ [t]) pc')
      as [order| |]; [|done..].
    destruct IH as ((later & ->) & Hmem & Hlen). split; [|split].
    + exists (new ++ later). by rewrite <- !app_assoc.
    + intros k Hk. destruct (Hmem k Hk) as [Hr|Hr]; [|by right].
      apply elem_of_app in Hr as [Hr| ->%list_elem_of_singleton]; [by left|].
      right. apply Hq, list_elem_of_here.
    + rewrite !length_app in *. cbn [length] in *. lia.
Qed.

Lemma sort_closed sts :
  closed sts →
  ∃ order, _topological_sort sts = Ok order
    ∧ (∃ later, order = initial_queue sts ++ later)
    ∧ (∀ k, k ∈ order → k ∈ ids sts)
    ∧ (length order ≤ length sts)%nat.
Proof.
  intros Hclosed. pose proof (sort_returns sts) as Hret.
  unfold _topological_sort in *.
  destruct (link_ok sts (dict_of_ids [] sts) (dict_of_ids 0 sts))
    as (ch & pc & Hlink & Hch & Hpc).
  { intros s d Hs Hd. rewrite dict_of_ids_lookup, decide_True; [eauto|].
    apply (Hclosed (task_id s)). exists s. done. }
  rewrite Hlink in *. cbn [mbind outcome_bind] in *.
  assert (Hpc' : ∀ k, pc !! k = if decide (k ∈ dependents sts) then Some 1
                  else if decide (k ∈ ids sts) then Some 0 else None).
  { intros k. by rewrite Hpc, dict_of_ids_lookup. }
  assert (Hkeys : ∀ k, k ∈ ids sts → is_Some (pc !! k)).
  { intros k Hk. rewrite Hpc'. destruct (decide (_ ∈ dependents sts)); [eauto|].
    rewrite decide_True; eauto. }
  rewrite ready_ok in *
    by (intros s Hs; apply Hkeys, elem_of_ids; eauto).
  cbn [mbind outcome_bind] in *.
  assert (Hq0 : task_id <$> filter (λ s, pc !! task_id s = Some 0) sts
                = initial_queue sts).
  { unfold initial_queue. f_equal. apply filter_iff. intros s Hs.
    rewrite Hpc'. destruct (decide (task_id s ∈ dependents sts)); [done|].
    rewrite decide_True; [done|]. apply elem_of_ids. eauto. }
  rewrite Hq0 in *.
  assert (Hch' : ∀ k, k ∈ ids sts →
            ∃ cs, ch !! k = Some cs ∧ ∀ c, c ∈ cs → c ∈ ids sts).
  { intros k Hk. rewrite Hch, dict_of_ids_lookup, decide_True by done.
    exists (kids sts k). split; [done|]. intros c Hc.
    apply elem_of_kids in Hc as (s & Hs & <- & _). apply elem_of_ids. eauto. }
  assert (Hq : ∀ k, k ∈ initial_queue sts → k ∈ ids sts).
  { intros k (s & -> & [_ Hs]%list_elem_of_filter)%list_elem_of_fmap.
    apply elem_of_ids. eauto. }
  pose proof (sort_loop_general sts ch Hch' (length sts) (initial_queue sts)
                [] pc Hq Hkeys) as Hloop.
  destruct (sort_loop (length sts) ch (initial_queue sts) [] pc)
    as [order|e|]; [|done..].
  destruct Hloop as (Hpre & Hmem & Hlen).
  exists order. split; [done|]. split; [done|]. split; [|done].
  intros k Hk. destruct (Hmem k Hk) as [[]%elem_of_nil|]; done.
Qed.

Lemma sort_Ok_closed sts :
  (∃ ch pc, link sts (dict_of_ids [] sts) (dict_of_ids 0 sts) = Ok (ch, pc)) →
  closed sts.
Proof.
  intros (ch & pc & Hlink) k p (s & Hs & <- & Hd).
  destruct (link_Ok_closed _ _ _ _ _ Hlink s p Hs Hd) as [l Hl].
  rewrite dict_of_ids_lookup in Hl. by destruct (decide (p ∈ ids sts)).
Qed.

Lemma sort_Ok_link sts order :
  _topological_sort sts = Ok order →
  ∃ ch pc, link sts (dict_of_ids [] sts) (dict_of_ids 0 sts) = Ok (ch, pc).
Proof.
  unfold _topological_sort.
  destruct (link sts _ _) as [[ch pc]| |]; [eauto|done..].
Qed.

(** X1. Whatever the list (repeated ids and cycles included), the scheduler
    returns an order exactly when every [depends_on] names a task of the
    list; otherwise it raises, and what it raises is a [KeyError]. It never
    runs out of its iteration budget. *)
Theorem scheduler_raises_on_dangling_only (sts : list Subtask) :
  ((∃ order, _topological_sort sts = Ok order) ↔ closed sts)
  ∧ (∀ e, _topological_sort sts = Raise e → exc_class e = KeyError)
  ∧ _topological_sort sts ≠ OutOfFuel.
Proof.
  split; [split|split].
  - intros [order Hsort]. by eapply sort_Ok_closed, sort_Ok_link.
  - intros Hclosed. destruct (sort_closed sts Hclosed) as (order & Hsort & _).
    eauto.
  - intros e Hsort. unfold _topological_sort in Hsort.
    destruct (link sts _ _) as [[ch pc]|e'|] eqn:Hlink;
      cbn [mbind outcome_bind] in Hsort; [|injection Hsort as ->|done].
    + exfalso.
      assert (Hclosed : closed sts) by (apply sort_Ok_closed; eauto).
      destruct (sort_closed sts Hclosed) as (order & Hsort' & _).
      unfold _topological_sort in Hsort'. rewrite Hlink in Hsort'.
      cbn [mbind outcome_bind] in Hsort'. congruence.
    + by eapply link_raises_KeyError.
  - apply sort_returns.
Qed.

(** X2. An order that the scheduler returns begins with the tasks that no
    entry gives a dependency, in list order; it holds only task ids of the
    list and is no longer than the list. *)
Theorem scheduler_order_shape (sts : list Subtask) (order : list Z) :
  _topological_sort sts = Ok order →
  (∃ later, order = initial_queue sts ++ later)
  ∧ (∀ k, k ∈ order → k ∈ ids sts)
  ∧ (length order ≤ length sts)%nat.
Proof.
  intros Hsort.
  assert (Hclosed : closed sts) by (by eapply sort_Ok_closed, sort_Ok_link).
  destruct (sort_closed sts Hclosed) as (order' & Hsort' & H).
  rewrite Hsort in Hsort'. by injection Hsort' as <-.
Qed.

(** X3. When no subtask declares a dependency, the execution order is the
    list order, repeated ids included. *)
Theorem scheduler_keeps_list_order (sts : list Subtask) :
  (∀ s, s ∈ sts → depends_on s = None) →
  _topological_sort sts = Ok (ids sts).
Proof.
  intros Hnone.
  assert (Hclosed : closed sts).
  { intros k p (s & Hs & _ & Hd). rewrite (Hnone s Hs) in Hd. done. }
  destruct (sort_closed sts Hclosed) as (order & Hsort & (later & ->) & _ & Hlen).
  assert (Hq : initial_queue sts = ids sts).
  { unfold initial_queue, ids. f_equal. apply filter_all.
    intros s Hs (p & s' & Hs' & _ & Hd)%elem_of_dependents.
    rewrite (Hnone s' Hs') in Hd. done. }
  rewrite Hq in *. rewrite length_app in Hlen. unfold ids in Hlen.
  rewrite length_fmap in Hlen.
  destruct later; [by rewrite app_nil_r in Hsort | cbn in Hlen; lia].
Qed.

(** X4. The [KeyError] names the first out-of-set dependency in list order:
    its text is the [repr] of that task id. *)
Theorem scheduler_error_names_first_dangling (pre post : list Subtask)
    (s : Subtask) (d : Z) :
  (∀ s' d', s' ∈ pre → depends_on s' = Some d' → d' ∈ ids (pre ++ s :: post)) →
  depends_on s = Some d →
  d ∉ ids (pre ++ s :: post) →
  _topological_sort (pre ++ s :: post) = Raise (mkExc KeyError (pretty d)).
Proof.
  intros Hpre Hd Hnin. unfold _topological_sort.
  rewrite (link_first_dangling pre _ _ s post d); [done| |done|].
  - intros s' d' Hs' Hd'. rewrite dict_of_ids_lookup, decide_True; eauto.
  - by rewrite dict_of_ids_lookup, decide_False.
Qed.

Lemma sorted_before (cs : list Z) c1 c2 b :
  StronglySorted Z.le cs → cs !! b = Some c2 → c1 ∈ cs → c1 < c2 →
  ∃ a, (a < b)%nat ∧ cs !! a = Some c1.
Proof.
  intros Hsorted. revert b.
  induction Hsorted as [|x cs _ IH Hall]; intros b Hb Hc1 Hlt.
  - by apply elem_of_nil in Hc1.
  - rewrite Forall_forall in Hall. destruct b as [|b]; cbn in Hb.
    + injection Hb as ->. apply elem_of_cons in Hc1 as [->|Hc1]; [lia|].
      apply Hall in Hc1. lia.
    + apply elem_of_cons in Hc1 as [->|Hc1].
      * exists 0%nat. split; [lia | done].
      * destruct (IH b Hb Hc1 Hlt) as (a & Ha & Hca).
        exists (S a). split; [lia | done].
Qed.

(** The start of the [while] loop on a list with unique ids and in-set
    dependencies. *)
Lemma sort_unfold sts :
  NoDup (ids sts) → closed sts →
  ∃ (ch : gmap Z (list Z)) (pc : gmap Z Z) queue,
    _topological_sort sts = sort_loop (length sts) ch queue [] pc
    ∧ (∀ k, k ∈ ids sts → ch !! k = Some (kids sts k))
    ∧ sort_inv sts queue [] pc.
Proof.
  intros Hnd Hclosed. unfold _topological_sort.
  destruct (link_ok sts (dict_of_ids [] sts) (dict_of_ids 0 sts))
    as (ch & pc & -> & Hch & Hpc).
  { intros s d Hs Hd. rewrite dict_of_ids_lookup, decide_True; [eauto|].
    apply (Hclosed (task_id s)). exists s. done. }
  cbn [mbind outcome_bind].
  assert (Hpc' : ∀ k, pc !! k = if decide (k ∈ dependents sts) then Some 1
                  else if decide (k ∈ ids sts) then Some 0 else None).
  { intros k. by rewrite Hpc, dict_of_ids_lookup. }
  rewrite ready_ok; cycle 1.
  { intros s Hs. rewrite Hpc'.
    destruct (decide (_ ∈ dependents sts)); [eauto|].
    rewrite decide_True; [eauto|]. apply elem_of_ids. eauto. }
  cbn [mbind outcome_bind].
  exists ch, pc, (task_id <$> filter (λ s, pc !! task_id s = Some 0) sts).
  split; [done|]. split.
  - intros k Hk. by rewrite Hch, dict_of_ids_lookup, decide_True.
  - by apply sort_inv_init.
Qed.

Lemma siblings_step sts (queue result cs : list Z) (pc : gmap Z Z) t :
  NoDup (ids sts) →
  sort_inv sts (t :: queue) result pc →
  siblings_ascend sts (result ++ t :: queue) →
  cs = merge_sort Z.le (kids sts t) →
  siblings_ascend sts ((result ++ [t]) ++ queue ++ cs).
Proof.
  intros Hnd Hinv Hsib ->.
  replace ((result ++ [t]) ++ queue ++ merge_sort Z.le (kids sts t))
    with ((result ++ t :: queue) ++ merge_sort Z.le (kids sts t))
    by (by rewrite <- !app_assoc).
  assert (Hkid : ∀ c, c ∈ merge_sort Z.le (kids sts t) ↔ depends sts c t).
  { intros c. by rewrite merge_sort_Permutation, elem_of_kids. }
  intros c1 c2 p j Hd1 Hd2 Hlt [Hj|[Hge Hj]]%lookup_app_Some.
  - destruct (Hsib c1 c2 p j Hd1 Hd2 Hlt Hj) as (i & Hi & Hc1).
    exists i. split; [done|]. rewrite lookup_app_l; [done|].
    by eapply lookup_lt_Some.
  - assert (p = t) as ->.
    { apply (depends_fun sts Hnd c2); [done|].
      by eapply Hkid, list_elem_of_lookup_2. }
    destruct (sorted_before _ c1 c2 _
                (StronglySorted_merge_sort Z.le (kids sts t)) Hj) as (a & Ha & Hc1);
      [by apply Hkid | done |].
    exists (length (result ++ t :: queue) + a)%nat. split; [lia|].
    rewrite lookup_app_r by lia.
    by replace (length (result ++ t :: queue) + a - length (result ++ t :: queue))%nat
      with a by lia.
Qed.

Lemma sort_loop_siblings sts (ch : gmap Z (list Z)) :
  NoDup (ids sts) →
  (∀ k, k ∈ ids sts → ch !! k = Some (kids sts k)) →
  ∀ fuel queue result pc order,
    sort_inv sts queue result pc →
    siblings_ascend sts (result ++ queue) →
    sort_loop fuel ch queue result pc = Ok order →
    siblings_ascend sts order.
Proof.
  intros Hnd Hch fuel. induction fuel as [|fuel IH];
    intros queue result pc order Hinv Hsib;
    (destruct queue as [|t queue]; cbn [sort_loop];
      [rewrite app_nil_r in Hsib; by intros [= <-]|]); [done|].
  assert (Ht : t ∈ ids sts).
  { apply (inv_ids _ _ _ _ Hinv), elem_of_app. right. apply list_elem_of_here. }
  assert (Htr : t ∉ result).
  { pose proof (inv_nodup _ _ _ _ Hinv) as (_ & Hdisj & _)%NoDup_app.
    intros Hin. apply (Hdisj t Hin), list_elem_of_here. }
  unfold getitem. rewrite (Hch t Ht). cbn [mbind outcome_bind].
  pose proof (merge_sort_Permutation Z.le (kids sts t)) as Hperm.
  destruct (release_ok (merge_sort Z.le (kids sts t)) pc queue)
    as (pc' & -> & Hpc').
  { rewrite Hperm. by apply NoDup_fmap_filter. }
  { intros c Hc. rewrite Hperm in Hc. apply elem_of_kids in Hc.
    by destruct (inv_waiting _ _ _ _ Hinv c t Hc Htr). }
  cbn [mbind outcome_bind]. apply IH.
  - by eapply sort_inv_step.
  - by apply (siblings_step sts queue result _ pc t).
Qed.

(** X5. On a list with unique ids and in-set dependencies, the tasks that
    depend on the same task are scheduled in ascending order of task id:
    whenever a task is in the order, each smaller sibling is in it too, at a
    smaller index. *)
Theorem scheduler_orders_siblings (sts : list Subtask) :
  NoDup (ids sts) → closed sts →
  ∃ order, _topological_sort sts = Ok order ∧ siblings_ascend sts order.
Proof.
  intros Hnd Hclosed.
  destruct (sort_unfold sts Hnd Hclosed) as (ch & pc & queue & Hsort & Hch & Hinv).
  destruct (sort_loop_inv sts Hnd ch Hch (length sts) queue [] pc Hinv)
    as (order & pc' & Hrun & _); [cbn; lia|].
  exists order. split; [by rewrite Hsort|].
  apply (sort_loop_siblings sts ch Hnd Hch (length sts) queue [] pc order Hinv);
    [|done].
  intros c1 c2 p j Hd1 Hd2 _ Hj. exfalso.
  destruct (inv_waiting _ _ _ _ Hinv c2 p Hd2) as [_ Hnin];
    [apply not_elem_of_nil|].
  by eapply Hnin, list_elem_of_lookup_2.
Qed.

End SchedulerMore.

(** ** More on the executor and the session state *)

Section Keeps.
Context `{B : Backends}.

#[export] Instance fragments_grow_preorder : PreOrder fragments_grow.
Proof.
  split.
  - intros s. unfold fragments_grow. reflexivity.
  - intros s1 s2 s3 H12 H23. unfold fragments_grow in *. by etrans.
Qed.

#[export] Instance same_choice_preorder : PreOrder same_choice.
Proof.
  split.
  - by intros s.
  - intros s1 s2 s3 H12 H23. unfold same_choice in *. congruence.
Qed.

Section Generic.
Context (R : relation Coordinator) `{!PreOrder R}.

Lemma keeps_ret {A : Type} (a : A) : keeps R (mret a).
Proof. intros s. reflexivity. Qed.

Lemma keeps_lift {A : Type} (o : Outcome A) : keeps R (lift o).
Proof. intros s. reflexivity. Qed.

Lemma keeps_get_self : keeps R get_self.
Proof. intros s. reflexivity. Qed.

Lemma keeps_bind {A C : Type} (m : M A) (f : A → M C) :
  keeps R m → (∀ a, keeps R (f a)) → keeps R (m ≫= f).
Proof.
  intros Hm Hf s. rewrite bind_eq. specialize (Hm s).
  destruct (m s) as [[a|e|] s']; cbn in *; [|done..].
  etrans; [exact Hm | apply Hf].
Qed.

Lemma keeps_try_except {A : Type} (body : M A) (handler : PyExc → M A) :
  keeps R body → (∀ e, keeps R (handler e)) → keeps R (try_except body handler).
Proof.
  intros Hbody Hh s. unfold try_except. specialize (Hbody s).
  destruct (body s) as [[a|e|] s']; cbn in *; [done| |done].
  destruct (is_Exception e); [|done].
  etrans; [exact Hbody | apply Hh].
Qed.

Lemma keeps_outbound {A : Type} ev (call : World → Reply A * World) :
  (∀ s w evs, R s (mkCoordinator w (gpa_intermediate_state s)
                     (ums_conversation_id s) (choice_state s) evs)) →
  keeps R (outbound ev call).
Proof.
  intros HR s. unfold outbound.
  destruct (call (world s)) as [[a|e] w]; apply HR.
Qed.

End Generic.

Lemma fragments_grow_outside s w evs :
  fragments_grow s (mkCoordinator w (gpa_intermediate_state s)
                      (ums_conversation_id s) (choice_state s) evs).
Proof. unfold fragments_grow. cbn. reflexivity. Qed.

Lemma same_choice_outside s w evs :
  same_choice s (mkCoordinator w (gpa_intermediate_state s)
                   (ums_conversation_id s) (choice_state s) evs).
Proof. done. Qed.

(** Merging the state of a message leaves the world, the trace and the choice
    alone. It raises only in [extend], on a truthy value under [GPA_MESSAGES]
    that cannot be iterated, and then the coordinator is as it was. *)
Lemma merge_state_outcome message s :
  ∃ o s', merge_state message s = (o, s')
    ∧ world s' = world s ∧ trace s' = trace s
    ∧ choice_state s' = choice_state s
    ∧ fragments_grow s s'
    ∧ match o with
      | Ok _ => True
      | Raise e =>
          s' = s ∧ exc_class e = TypeError
          ∧ ∃ d z, truthy_state message = Some d
                   ∧ truthy (state_get d UMS_CONVERSATION_ID) = false
                   ∧ d !! GPA_MESSAGES = Some (SInt z) ∧ z ≠ 0
      | OutOfFuel => False
      end.
Proof.
  unfold merge_state. destruct (truthy_state message) as [d|] eqn:Hd.
  - destruct (truthy (state_get d UMS_CONVERSATION_ID)) eqn:Hu.
    + unfold state_getitem, state_get in *.
      destruct (d !! UMS_CONVERSATION_ID) as [v|]; [|done].
      eexists _, _. split; [reflexivity|]. cbn. repeat split; try done.
      unfold fragments_grow. cbn. reflexivity.
    + destruct (truthy (state_get d GPA_MESSAGES)) eqn:Hg.
      * unfold state_getitem. unfold state_get in Hg.
        destruct (d !! GPA_MESSAGES) as [v|] eqn:Hv; [|done].
        destruct v as [|z|str|l]; [done| | |].
        -- eexists _, _. split; [reflexivity|]. cbn.
           repeat split; try done.
           exists d, z. repeat split; try done.
           intros ->. discriminate Hg.
        -- eexists _, _. split; [reflexivity|]. cbn. repeat split; try done.
           unfold fragments_grow; cbn; by apply prefix_app_r.
        -- eexists _, _. split; [reflexivity|]. cbn. repeat split; try done.
           unfold fragments_grow; cbn; by apply prefix_app_r.
      * eexists _, _. split; [reflexivity|]. repeat split; try done.
  - eexists _, _. split; [reflexivity|]. repeat split; try done.
Qed.

Lemma keeps_merge_state message :
  keeps fragments_grow (merge_state message) ∧ keeps same_choice (merge_state message).
Proof.
  split; intros s;
    destruct (merge_state_outcome message s) as (o & s' & -> & _ & _ & Hc & Hg & _);
    done.
Qed.

Lemma keeps_call_agent name description request context :
  keeps fragments_grow (_call_agent name description request context)
  ∧ keeps same_choice (_call_agent name description request context).
Proof.
  split; intros s;
    destruct (call_agent_keeps_session name description request context s)
      as (Hg & _ & Hc); [|done].
  unfold fragments_grow. by rewrite Hg.
Qed.

Lemma keeps_run_task (R : relation Coordinator) `{!PreOrder R}
    request by_id results tid :
  (∀ name description context,
     keeps R (_call_agent name description request context)) →
  (∀ message, keeps R (merge_state message)) →
  keeps R (run_task request by_id results tid).
Proof.
  intros Hcall Hmerge. unfold run_task.
  apply (keeps_bind R); [apply (keeps_lift R)|].
  intros subtask. apply (keeps_try_except R).
  - apply (keeps_bind R); [apply Hcall|]. intros message.
    apply (keeps_bind R); [apply Hmerge|]. intros _. apply (keeps_ret R).
  - intros e. apply (keeps_ret R).
Qed.

Lemma keeps_execute (R : relation Coordinator) `{!PreOrder R} request sts :
  (∀ name description context,
     keeps R (_call_agent name description request context)) →
  (∀ message, keeps R (merge_state message)) →
  keeps R (_execute_subtasks request sts).
Proof.
  intros Hcall Hmerge. unfold _execute_subtasks.
  apply (keeps_bind R); [apply (keeps_lift R)|]. intros order.
  apply (keeps_bind R); [|intros results; apply (keeps_ret R)].
  generalize (@nil (Z * TaskResult)).
  induction order as [|tid rest IH]; intros results; cbn [run_tasks].
  - apply (keeps_ret R).
  - apply (keeps_bind R); [by apply (keeps_run_task R)|]. intros r. apply IH.
Qed.

Lemma keeps_round_loop (R : relation Coordinator) `{!PreOrder R} request :
  (∀ s w evs, R s (mkCoordinator w (gpa_intermediate_state s)
                     (ums_conversation_id s) (choice_state s) evs)) →
  (∀ name description context,
     keeps R (_call_agent name description request context)) →
  (∀ message, keeps R (merge_state message)) →
  ∀ fuel task_calls task_results,
    keeps R (round_loop fuel request task_calls task_results).
Proof.
  intros Hout Hcall Hmerge fuel.
  induction fuel as [|fuel IH]; intros task_calls task_results;
    cbn [round_loop]; destruct (task_calls <? max_task_calls);
    try apply (keeps_ret R); [apply (keeps_lift R)|].
  apply (keeps_bind R); [by apply (keeps_outbound R)|]. intros td.
  destruct (bool_decide _ || stop td); [apply (keeps_ret R)|].
  apply (keeps_bind R); [by apply (keeps_execute R)|]. intros it. apply IH.
Qed.

End Keeps.

Section ExecutorMore.
Context `{B : Backends}.

Lemma dict_set_fresh {V : Type} (d : list (Z * V)) k v :
  k ∉ d.*1 → dict_set d k v = d ++ [(k, v)].
Proof.
  induction d as [|[k0 v0] d IH]; intros Hk; cbn [dict_set]; [done|].
  rewrite fmap_cons in Hk. apply not_elem_of_cons in Hk as [Hne Hk].
  cbn in Hne. rewrite decide_False by done. by rewrite IH.
Qed.

(** What one iteration of the executor's loop records and calls. *)
Lemma run_task_record request by_id results tid subtask s :
  by_id !! tid = Some subtask →
  trace (run_task request by_id results tid s).2
  = trace s ++
    match agent_name subtask with
    | GPA => [CalledGPA (instruction_of (task_description subtask)
                           (_gather_context subtask results))]
    | _ => []
    end
  ∧ match (run_task request by_id results tid s).1 with
    | Ok results' =>
        ∃ r, results' = dict_set results tid r
             ∧ ((∃ message, r = succeeded subtask message)
                ∨ (∃ e, r = failed subtask e))
    | Raise e => is_Exception e = false
    | OutOfFuel => False
    end.
Proof.
  intros Hsub. unfold run_task, getitem. rewrite Hsub, bind_eq. cbn [lift].
  unfold try_except. rewrite bind_eq.
  destruct (agent_name subtask) eqn:Hname.
  - unfold _call_agent. rewrite bind_eq. cbn [get_self]. unfold outbound.
    destruct (gpa_response _ _ _ _) as [[message|e] w].
    + rewrite bind_eq.
      match goal with |- context [merge_state message ?c] =>
        destruct (merge_state_outcome message c)
          as (o & s' & -> & _ & Htr & _ & _ & Ho)
      end.
      destruct o as [[]|e|]; [| |done].
      * cbn. rewrite Htr. split; [done|]. eauto.
      * destruct Ho as (-> & Hclass & _).
        assert (He : is_Exception e = true)
          by (unfold is_Exception; by rewrite Hclass).
        cbn. rewrite He. cbn. split; [done|]. eauto.
    + destruct (is_Exception e) eqn:He; cbn; (split; [done|]); eauto.
  - rewrite call_agent_UMS. cbn. rewrite app_nil_r. split; [done|]. eauto.
  - rewrite call_agent_unknown. cbn. rewrite app_nil_r. split; [done|]. eauto.
Qed.

Lemma merge_state_raises message s d z :
  truthy_state message = Some d →
  truthy (state_get d UMS_CONVERSATION_ID) = false →
  d !! GPA_MESSAGES = Some (SInt z) →
  z ≠ 0 →
  merge_state message s
  = (Raise (mkExc TypeError "'int' object is not iterable"), s).
Proof.
  intros Hd Hu Hg Hz. unfold merge_state. rewrite Hd, Hu.
  unfold state_get, state_getitem. rewrite Hg. cbn [default from_option id truthy].
  apply Z.eqb_neq in Hz. rewrite Hz. reflexivity.
Qed.

(** X6. What the executor records when the call of the agent returns a
    message. When merging the state of the message returns, the subtask is
    recorded with [success = true], the content of the message and no error.
    The merge raises exactly when the state of the message is truthy, holds
    no truthy session identifier, and holds under [GPA_MESSAGES] a truthy
    value that [extend] cannot iterate: the [TypeError] is then caught, the
    coordinator is as the call left it, and the subtask is recorded as
    failed with the text of that error, although the agent answered. In both
    cases the loop goes on with the remaining subtasks. *)
Theorem gateway_reply_is_recorded (request : Request) (by_id : gmap Z Subtask)
    (results : list (Z * TaskResult)) (tid : Z) (subtask : Subtask)
    (message : Message) (rest : list Z) (s s1 : Coordinator) :
  by_id !! tid = Some subtask →
  _call_agent (agent_name subtask) (task_description subtask) request
              (_gather_context subtask results) s = (Ok message, s1) →
  ∃ r s2,
    run_task request by_id results tid s = (Ok (dict_set results tid r), s2)
    ∧ dict_lookup (dict_set results tid r) tid = Some r
    ∧ run_tasks request by_id (tid :: rest) results s
      = run_tasks request by_id rest (dict_set results tid r) s2
    ∧ match merge_state message s1 with
      | (Ok _, s') =>
          s2 = s' ∧ r = succeeded subtask message
          ∧ success (agent_result r) = true
          ∧ content (agent_result r) = msg_content message
          ∧ error (agent_result r) = None
      | (Raise e, _) =>
          s2 = s1 ∧ r = failed subtask e
          ∧ exc_class e = TypeError
          ∧ success (agent_result r) = false
          ∧ content (agent_result r) = ""
          ∧ error (agent_result r) = Some (exc_str e)
      | (OutOfFuel, _) => False
      end
    ∧ ((∃ e s', merge_state message s1 = (Raise e, s'))
       ↔ ∃ d z, truthy_state message = Some d
                ∧ truthy (state_get d UMS_CONVERSATION_ID) = false
                ∧ d !! GPA_MESSAGES = Some (SInt z) ∧ z ≠ 0).
Proof.
  intros Hsub Hcall.
  assert (Hiff : (∃ e s', merge_state message s1 = (Raise e, s'))
       ↔ ∃ d z, truthy_state message = Some d
                ∧ truthy (state_get d UMS_CONVERSATION_ID) = false
                ∧ d !! GPA_MESSAGES = Some (SInt z) ∧ z ≠ 0).
  { split.
    - intros (e & s' & He).
      destruct (merge_state_outcome message s1)
        as (o & s'' & Hm & _ & _ & _ & _ & Ho).
      rewrite He in Hm. injection Hm as <- <-. by destruct Ho as (_ & _ & Hd).
    - intros (d & z & Hd & Hu & Hg & Hz). eexists _, _.
      by apply (merge_state_raises message s1 d z). }
  assert (Hrun : ∀ r s2, run_task request by_id results tid s
                         = (Ok (dict_set results tid r), s2) →
            dict_lookup (dict_set results tid r) tid = Some r
            ∧ run_tasks request by_id (tid :: rest) results s
              = run_tasks request by_id rest (dict_set results tid r) s2).
  { intros r s2 Hr. split.
    - rewrite dict_lookup_set. by rewrite decide_True.
    - by rewrite run_tasks_cons, Hr. }
  destruct (merge_state_outcome message s1)
    as (o & s' & Hm & _ & _ & _ & _ & Ho).
  destruct o as [[]|e|]; [| |done].
  - assert (Hr : run_task request by_id results tid s
                 = (Ok (dict_set results tid (succeeded subtask message)), s')).
    { unfold run_task, getitem. rewrite Hsub, bind_eq. cbn [lift].
      unfold try_except. by rewrite bind_eq, Hcall, bind_eq, Hm. }
    exists (succeeded subtask message), s'.
    split; [exact Hr|]. destruct (Hrun _ _ Hr) as [Hlook Hnext].
    split; [exact Hlook|]. split; [exact Hnext|]. split; [|exact Hiff].
    rewrite Hm. repeat split; done.
  - destruct Ho as (-> & Hclass & _).
    assert (He : is_Exception e = true)
      by (unfold is_Exception; by rewrite Hclass).
    assert (Hr : run_task request by_id results tid s
                 = (Ok (dict_set results tid (failed subtask e)), s1)).
    { unfold run_task, getitem. rewrite Hsub, bind_eq. cbn [lift].
      unfold try_except. rewrite bind_eq, Hcall, bind_eq, Hm. cbn.
      by rewrite He. }
    exists (failed subtask e), s1.
    split; [exact Hr|]. destruct (Hrun _ _ Hr) as [Hlook Hnext].
    split; [exact Hlook|]. split; [exact Hnext|]. split; [|exact Hiff].
    rewrite Hm. repeat split; done.
Qed.

Lemma succeeded_well_formed subtask message :
  well_formed_result (succeeded subtask message).
Proof. repeat split; try done. Qed.

Lemma failed_well_formed subtask e : well_formed_result (failed subtask e).
Proof. repeat split; try done. Qed.

Lemma run_tasks_well_formed request by_id order : ∀ results s,
  Forall well_formed_result (dict_values results) →
  match (run_tasks request by_id order results s).1 with
  | Ok results' => Forall well_formed_result (dict_values results')
  | _ => True
  end.
Proof.
  induction order as [|tid rest IH]; intros results s Hwf; [done|].
  rewrite run_tasks_cons.
  destruct (by_id !! tid) as [subtask|] eqn:Hsub.
  - destruct (run_task_record request by_id results tid subtask s Hsub) as [_ Hone].
    destruct (run_task request by_id results tid s) as [[results'|e|] s1];
      cbn in Hone |- *; [|done..].
    destruct Hone as (r & -> & Hr). apply IH.
    apply Forall_forall. intros r' [->|Hin]%elem_of_dict_values_set.
    + destruct Hr as [[m ->]|[e ->]];
        [apply succeeded_well_formed | apply failed_well_formed].
    + by eapply Forall_forall in Hwf.
  - unfold run_task, getitem. rewrite Hsub. done.
Qed.

(** X7. Whatever the subtasks, the gateways and the state: every [TaskResult]
    that the executor returns repeats the task id and the agent of its
    subtask, has no error when it is a success, and has empty content and an
    error when it is a failure. *)
Theorem executor_results_are_well_formed (request : Request)
    (sts : list Subtask) (s : Coordinator) :
  match (_execute_subtasks request sts s).1 with
  | Ok results => Forall well_formed_result results
  | _ => True
  end.
Proof.
  unfold _execute_subtasks. rewrite bind_eq.
  destruct (_topological_sort sts) as [order|e|]; cbn [lift]; [|done..].
  rewrite bind_eq.
  pose proof (run_tasks_well_formed request (subtasks_by_id sts) order [] s) as H.
  destruct (run_tasks _ _ _ _ _) as [[results|e|] s1]; cbn in *; [|done..].
  by apply H.
Qed.

(** The executor's loop over distinct task ids that have no result yet: it
    appends one result per task, in order, and calls the GPA gateway once for
    each GPA task and nothing else. *)
Lemma run_tasks_in_order request by_id order : ∀ results s,
  NoDup order →
  (∀ k, k ∈ order → k ∉ results.*1) →
  (∀ k, k ∈ order → is_Some (by_id !! k)) →
  match (run_tasks request by_id order results s).1 with
  | Ok results' =>
      ∃ new, results' = results ++ new
        ∧ new.*1 = order
        ∧ Forall (λ kr, by_id !! kr.1 = Some (task kr.2)) new
        ∧ ∃ evs, trace (run_tasks request by_id order results s).2 = trace s ++ evs
            ∧ Forall (λ ev, is_CalledGPA ev = true) evs
            ∧ length evs
              = length (filter (λ k, agent_name <$> by_id !! k = Some GPA) order)
  | Raise e => is_Exception e = false
  | OutOfFuel => False
  end.
Proof.
  induction order as [|tid rest IH]; intros results s Hnd Hfresh Hkeys.
  - cbn. exists []. rewrite app_nil_r. repeat split; try done.
    exists []. by rewrite app_nil_r.
  - rewrite run_tasks_cons. apply NoDup_cons in Hnd as [Htid Hnd].
    destruct (Hkeys tid) as [subtask Hsub]; [apply list_elem_of_here|].
    destruct (run_task_record request by_id results tid subtask s Hsub)
      as [Htrace Hone].
    destruct (run_task request by_id results tid s) as [[results'|e|] s1];
      cbn in Hone, Htrace |- *; [|done..].
    destruct Hone as (r & -> & Hr).
    rewrite dict_set_fresh by (apply Hfresh, list_elem_of_here).
    specialize (IH (results ++ [(tid, r)]) s1 Hnd).
    destruct (run_tasks request by_id rest (results ++ [(tid, r)]) s1)
      as [[results'|e|] s2]; cbn in IH |- *.
    + destruct IH as (new & -> & Hnew & Hall & evs & Hevs & Hgpa & Hlen).
      { intros k Hk. rewrite fmap_app, not_elem_of_app. split.
        - by apply Hfresh, list_elem_of_further.
        - cbn. rewrite list_elem_of_singleton. intros ->. done. }
      { intros k Hk. by apply Hkeys, list_elem_of_further. }
      exists ((tid, r) :: new). split; [by rewrite <- app_assoc|].
      split; [cbn; by rewrite Hnew|]. split.
      { constructor; [|done]. cbn. rewrite Hsub. f_equal.
        by destruct Hr as [[m ->]|[e ->]]. }
      rewrite Hevs, Htrace, Hsub. cbn [fmap option_fmap option_map].
      destruct (agent_name subtask) eqn:Hname.
      * eexists. split; [by rewrite <- app_assoc|]. split.
        -- constructor; [done | exact Hgpa].
        -- rewrite decide_True by done. cbn. by rewrite Hlen.
      * exists evs. rewrite app_nil_r. split; [done|]. split; [done|].
        by rewrite decide_False by done.
      * exists evs. rewrite app_nil_r. split; [done|]. split; [done|].
        by rewrite decide_False by done.
    + apply IH.
      * intros k Hk. rewrite fmap_app, not_elem_of_app. split.
        -- by apply Hfresh, list_elem_of_further.
        -- cbn. rewrite list_elem_of_singleton. intros ->. done.
      * intros k Hk. by apply Hkeys, list_elem_of_further.
    + apply IH.
      * intros k Hk. rewrite fmap_app, not_elem_of_app. split.
        -- by apply Hfresh, list_elem_of_further.
        -- cbn. rewrite list_elem_of_singleton. intros ->. done.
      * intros k Hk. by apply Hkeys, list_elem_of_further.
Qed.

(** X8. On a set of subtasks with unique ids and in-set dependencies the
    executor either lets through an exception that does not derive from
    [Exception], or returns exactly one [TaskResult] per scheduled task, in
    execution order, each for the subtask of that id; and then it has called
    the GPA gateway exactly once per scheduled GPA subtask and made no other
    call: nothing is retried. *)
Theorem executor_results_follow_order (request : Request) (sts : list Subtask)
    (s : Coordinator) :
  NoDup (ids sts) → closed sts →
  ∃ order, _topological_sort sts = Ok order
    ∧ match (_execute_subtasks request sts s).1 with
      | Ok results =>
          (λ r, task_id (task r)) <$> results = order
          ∧ Forall (λ r, task r ∈ sts) results
          ∧ ∃ evs, trace (_execute_subtasks request sts s).2 = trace s ++ evs
              ∧ Forall (λ ev, is_CalledGPA ev = true) evs
              ∧ length evs
                = length (filter (λ r, agent_name (task r) = GPA) results)
      | Raise e => is_Exception e = false
      | OutOfFuel => False
      end.
Proof.
  intros Hnd Hclosed.
  destruct (sort_ok sts Hnd Hclosed) as (order & Hsort & Hnodup & Hin & _).
  exists order. split; [done|].
  unfold _execute_subtasks. rewrite bind_eq, Hsort. cbn [lift]. rewrite bind_eq.
  pose proof (run_tasks_in_order request (subtasks_by_id sts) order [] s Hnodup)
    as Hrun.
  destruct (run_tasks request (subtasks_by_id sts) order [] s)
    as [[results|e|] s1] eqn:Heq; cbn in Hrun |- *.
  - destruct Hrun as (new & -> & Hnew & Hall & evs & Hevs & Hgpa & Hlen).
    { intros k _. apply not_elem_of_nil. }
    { intros k Hk%Hin. apply subtasks_by_id_is_Some.
      destruct Hk; apply ids_root_or_depends; eauto. }
    unfold dict_values.
    assert (Hids : Forall (λ kr : Z * TaskResult,
              task_id (task kr.2) = kr.1 ∧ task kr.2 ∈ sts) new).
    { eapply Forall_impl; [exact Hall|]. intros [k r] Hk. cbn in *.
      apply subtasks_by_id_lookup in Hk as [? ?]. done. }
    split; [|split].
    + rewrite <- Hnew, <- list_fmap_compose. apply list_fmap_ext.
      intros i [k r] Hi. cbn. eapply Forall_lookup_1 in Hids; [|exact Hi].
      by destruct Hids.
    + apply Forall_fmap. eapply Forall_impl; [exact Hids|]. by intros [k r] [_ ?].
    + exists evs. split; [done|]. split; [done|]. rewrite Hlen, <- Hnew.
      clear -Hall. induction Hall as [|[k r] new Hk _ IH]; [done|].
      rewrite !fmap_cons, !filter_cons. cbn [fst snd] in *. rewrite Hk. cbn.
      destruct (decide (Some (agent_name (task r)) = Some GPA)) as [Heq|Hne].
      * rewrite decide_True by congruence. cbn. by rewrite IH.
      * rewrite decide_False by congruence. done.
  - apply Hrun.
    + intros k _. apply not_elem_of_nil.
    + intros k Hk%Hin. apply subtasks_by_id_is_Some.
      destruct Hk; apply ids_root_or_depends; eauto.
  - apply Hrun.
    + intros k _. apply not_elem_of_nil.
    + intros k Hk%Hin. apply subtasks_by_id_is_Some.
      destruct Hk; apply ids_root_or_depends; eauto.
Qed.

(** X9. The accumulated GPA fragments are only ever extended at the end: the
    list the coordinator holds before an executor call or a whole request is
    a prefix of the list it holds afterwards, whatever the gateways answer
    and however the call ends. *)
Theorem fragments_only_grow (request : Request) (s : Coordinator) :
  (∀ sts, gpa_intermediate_state s
          `prefix_of` gpa_intermediate_state (_execute_subtasks request sts s).2)
  ∧ gpa_intermediate_state s
    `prefix_of` gpa_intermediate_state (handle_request request s).2.
Proof.
  assert (Hcall : ∀ name description context,
            keeps fragments_grow (_call_agent name description request context))
    by (intros; apply keeps_call_agent).
  assert (Hmerge : ∀ message, keeps fragments_grow (merge_state message))
    by (intros; apply keeps_merge_state).
  split.
  - intros sts. exact (keeps_execute fragments_grow request sts Hcall Hmerge s).
  - revert s. change (keeps fragments_grow (handle_request request)).
    unfold handle_request. apply (keeps_bind fragments_grow).
    + apply (keeps_round_loop fragments_grow); [apply fragments_grow_outside|done..].
    + intros task_results. apply (keeps_bind fragments_grow).
      * apply (keeps_outbound fragments_grow), fragments_grow_outside.
      * intros m. apply (keeps_bind fragments_grow);
          [apply (keeps_get_self fragments_grow)|].
        intros self. apply (keeps_bind fragments_grow);
          [|intros; apply (keeps_ret fragments_grow)].
        intros s0. unfold fragments_grow. cbn. reflexivity.
Qed.

(** X10. [handle_request] writes the state of the choice exactly when it
    returns a message: it then holds the session identifier and the fragment
    list of the coordinator under their two keys; when the request ends with
    an exception (from the decomposition, the executor or the aggregation),
    the state of the choice is as it was. *)
Theorem choice_state_written_on_success (request : Request) (s : Coordinator) :
  match handle_request request s with
  | (Ok final_response, s') =>
      choice_state s'
      = Some (<[UMS_CONVERSATION_ID := ums_conversation_id s']>
                {[ GPA_MESSAGES := SList (gpa_intermediate_state s') ]})
  | (_, s') => choice_state s' = choice_state s
  end.
Proof.
  rewrite handle_request_eq.
  pose proof (keeps_round_loop same_choice request same_choice_outside
                (λ n d c, proj2 (keeps_call_agent n d request c))
                (λ m, proj2 (keeps_merge_state m))
                (Z.to_nat max_task_calls) 0 [] s) as Hloop.
  destruct (round_loop _ _ _ _ _) as [[task_results|e|] s1]; cbn in Hloop;
    [|done..].
  pose proof (keeps_outbound same_choice (Aggregated task_results)
                (aggregate_call request task_results) same_choice_outside s1)
    as Hagg.
  fold (_aggregate_results request task_results) in Hagg.
  destruct (_aggregate_results request task_results s1) as [[m|e|] s2];
    cbn in Hagg |- *; [done|..]; unfold same_choice in *; congruence.
Qed.

End ExecutorMore.

(** ** More on the round loop *)

Section RoundsMore.
Context `{B : Backends}.

Lemma gateway_calls_give_no_results evs :
  Forall (λ ev, is_gateway_call ev = true) evs → omap results_given evs = [].
Proof.
  induction 1 as [|ev evs Hev _ IH]; [done|].
  cbn [omap list_omap]. rewrite IH. by destruct ev.
Qed.

(** The calls of the round loop are given growing results: those of an
    earlier call are a prefix of those of every later call, all extend the
    results the loop started with, and what the loop returns extends them
    all. *)
Lemma round_loop_results request : ∀ fuel task_calls task_results s,
  ∃ evs,
    trace (round_loop fuel request task_calls task_results s).2 = trace s ++ evs
    ∧ StronglySorted prefix (omap results_given evs)
    ∧ Forall (prefix task_results) (omap results_given evs)
    ∧ (task_calls < max_task_calls → fuel ≠ O →
         head (omap results_given evs) = Some task_results)
    ∧ ∀ r, (round_loop fuel request task_calls task_results s).1 = Ok r →
        task_results `prefix_of` r
        ∧ Forall (λ a, a `prefix_of` r) (omap results_given evs).
Proof.
  intros fuel. induction fuel as [|fuel IH]; intros task_calls task_results s;
    cbn [round_loop]; destruct (Z.ltb_spec task_calls max_task_calls) as [Hlt|Hge].
  - exists []. rewrite app_nil_r. split; [done|]. split; [constructor|].
    split; [constructor|]. split; [by intros _ []|]. by intros r [=].
  - exists []. rewrite app_nil_r. split; [done|]. split; [constructor|].
    split; [constructor|]. split; [intros; lia|]. intros r [= <-].
    split; [done | constructor].
  - rewrite bind_eq.
    destruct (decompose_trace request task_results s) as [Hd1 Hd2].
    destruct (_decompose_task request task_results s) as [[td|e|] s1];
      cbn in Hd1, Hd2; [| |done].
    + destruct (bool_decide _ || stop td).
      * exists [Decomposed task_results]. cbn [omap list_omap results_given].
        split; [done|]. split; [by repeat constructor|].
        split; [by repeat constructor|]. split; [done|]. intros r [= <-].
        split; [done | by repeat constructor].
      * rewrite bind_eq.
        destruct (gateway_only_execute request (subtasks td) s1)
          as [Hfuel' (gw & Hgw & Fgw)].
        pose proof (gateway_calls_give_no_results gw Fgw) as Hnone.
        destruct (_execute_subtasks request (subtasks td) s1)
          as [[iteration|e|] s2]; cbn in Hfuel', Hgw; [| |done].
        -- destruct (IH (task_calls + 1) (task_results ++ iteration) s2)
             as (evs & Hevs & Hsorted & Hall & _ & Hret).
           assert (Hall' : Forall (prefix task_results) (omap results_given evs)).
           { eapply Forall_impl; [exact Hall|]. intros a Ha.
             etrans; [|exact Ha]. by apply prefix_app_r. }
           exists ([Decomposed task_results] ++ gw ++ evs).
           rewrite !omap_app, Hnone. cbn [omap list_omap results_given app].
           split; [by rewrite Hevs, Hgw, Hd2, <- !app_assoc|].
           split; [by apply StronglySorted_cons|].
           split; [by constructor|]. split; [done|].
           intros r Hr. destruct (Hret r Hr) as [Hpre Hr'].
           assert (task_results `prefix_of` r).
           { etrans; [|exact Hpre]. by apply prefix_app_r. }
           split; [done|]. by constructor.
        -- exists ([Decomposed task_results] ++ gw).
           rewrite !omap_app, Hnone. cbn [omap list_omap results_given app].
           split; [cbn; by rewrite Hgw, Hd2, <- !app_assoc|].
           split; [by repeat constructor|]. split; [by repeat constructor|].
           split; [done|]. by intros r [=].
    + exists [Decomposed task_results]. cbn [omap list_omap results_given].
      split; [done|]. split; [by repeat constructor|].
      split; [by repeat constructor|]. split; [done|]. by intros r [=].
  - exists []. rewrite app_nil_r. split; [done|]. split; [constructor|].
    split; [constructor|]. split; [intros; lia|]. intros r [= <-].
    split; [done | constructor].
Qed.

(** X11. Results only accumulate over a request: the first decomposition call
    is given no result, and the results given to an earlier decomposition or
    aggregation call are a prefix of those given to every later call. *)
Theorem results_accumulate (request : Request) (s : Coordinator) :
  ∃ evs,
    trace (handle_request request s).2 = trace s ++ evs
    ∧ head (omap results_given evs) = Some []
    ∧ StronglySorted prefix (omap results_given evs).
Proof.
  rewrite handle_request_eq.
  destruct (round_loop_results request (Z.to_nat max_task_calls) 0 [] s)
    as (evs & Hevs & Hsorted & _ & Hhead & Hret).
  specialize (Hhead ltac:(done) ltac:(done)).
  destruct (round_loop _ _ _ _ _) as [[task_results|e|] s1]; cbn in Hevs;
    [|by exists evs..].
  destruct (Hret task_results eq_refl) as [_ Hall].
  destruct (aggregate_trace request task_results s1) as [_ Hagg].
  exists (evs ++ [Aggregated task_results]).
  assert (Htrace : trace (_aggregate_results request task_results s1).2
                   = trace s ++ evs ++ [Aggregated task_results]).
  { by rewrite Hagg, Hevs, <- app_assoc. }
  rewrite omap_app. cbn [omap list_omap results_given].
  split; [by destruct (_aggregate_results _ _ _) as [[m|e|] s2]|].
  split.
  - destruct (omap results_given evs); [done|]. done.
  - apply StronglySorted_app_2; [|done|by repeat constructor].
    intros a b Ha ->%list_elem_of_singleton.
    by eapply Forall_forall in Hall.
Qed.

(** X12. A decomposition call that raises ends the request, in whatever round
    it happens: [handle_request] raises the same exception, the aggregation
    is not called and the state of the choice is not written. *)
Theorem decomposition_failure_is_fatal (request : Request) (s : Coordinator)
    (task_calls : Z) (task_results : list TaskResult) (sn : Coordinator)
    (e : PyExc) (w : World) :
  rtc (proceeds request) (0, [], s) (task_calls, task_results, sn) →
  task_calls < max_task_calls →
  decompose_call request task_results (world sn) = (Raises e, w) →
  handle_request request s
  = (Raise e,
     mkCoordinator w (gpa_intermediate_state sn) (ums_conversation_id sn)
       (choice_state sn) (trace sn ++ [Decomposed task_results])).
Proof.
  intros [n Hsteps]%rtc_nsteps Hlt Hdec.
  destruct (round_loop_proceeds request n _ _
              (Z.to_nat max_task_calls - n) Hsteps) as [Hcalls Hloop].
  cbn in Hcalls, Hloop.
  rewrite handle_request_eq.
  replace (Z.to_nat max_task_calls)
    with (n + (Z.to_nat max_task_calls - n))%nat at 1 by lia.
  rewrite Hloop.
  replace (Z.to_nat max_task_calls - n)%nat
    with (S (Z.to_nat max_task_calls - n - 1)) by lia.
  cbn [round_loop]. apply Z.ltb_lt in Hlt. rewrite Hlt, bind_eq.
  unfold _decompose_task, outbound. by rewrite Hdec.
Qed.

(** X13. Reaching the cap is no error: after [max_task_calls] rounds that
    each went on, the loop ends without another decomposition call and the
    aggregation is called with all the results. *)
Theorem cap_exhaustion_goes_to_aggregation (request : Request)
    (s : Coordinator) (task_calls : Z) (task_results : list TaskResult)
    (sn : Coordinator) :
  nsteps (proceeds request) (Z.to_nat max_task_calls) (0, [], s)
         (task_calls, task_results, sn) →
  round_loop (Z.to_nat max_task_calls) request 0 [] s = (Ok task_results, sn)
  ∧ trace (handle_request request s).2 = trace sn ++ [Aggregated task_results]
  ∧ (handle_request request s).1 = (_aggregate_results request task_results sn).1.
Proof.
  intros Hsteps.
  destruct (round_loop_proceeds request _ _ _ O Hsteps) as [Hcalls Hloop].
  cbn in Hcalls, Hloop.
  assert (Hloop' : round_loop (Z.to_nat max_task_calls) request 0 [] s
                   = (Ok task_results, sn)).
  { rewrite Nat.add_0_r in Hloop. rewrite Hloop. cbn [round_loop].
    by rewrite (proj2 (Z.ltb_ge task_calls max_task_calls)) by lia. }
  split; [done|]. rewrite handle_request_eq, Hloop'.
  destruct (aggregate_trace request task_results sn) as [Hret Hagg].
  destruct (_aggregate_results _ _ _) as [[m|e|] s2]; cbn in Hret, Hagg;
    [| |done]; cbn; by rewrite Hagg.
Qed.

(** X14. What [handle_request] persists is what the UMS gateway recovers:
    when the coordinator's key for the session identifier is the gateway's,
    and the request returned with a truthy identifier, a later history whose
    first message with an identifier carries the state written to the choice
    gives that identifier back. *)
Theorem persisted_session_is_recovered (request : Request) (s s' : Coordinator)
    (final_response : Message) (role : Role) (text : string)
    (before after : list Message) :
  UMS_CONVERSATION_ID = _UMS_CONVERSATION_ID →
  handle_request request s = (Ok final_response, s') →
  truthy (ums_conversation_id s') = true →
  Forall (λ m, truthy (persisted_id m) = false) before →
  __get_ums_conversation_id
    (mkRequest (before
                ++ mkMessage role text (Some (mkCustomContent (choice_state s')))
                :: after))
  = ums_conversation_id s'.
Proof.
  intros Hkey Hrun Htruthy Hbefore. rewrite handle_request_eq in Hrun.
  destruct (round_loop _ _ _ _ _) as [[task_results|e|] s1]; [|done..].
  destruct (_aggregate_results _ _ _) as [[m|e|] s2]; [|done..].
  injection Hrun as _ <-. cbn [choice_state ums_conversation_id] in *.
  unfold __get_ums_conversation_id. cbn [messages].
  rewrite scan_history_first; [|done|].
  - unfold persisted_id, truthy_state. cbn [custom_content state].
    rewrite bool_decide_eq_false_2 by apply insert_non_empty.
    unfold state_get. by rewrite <- Hkey, lookup_insert_eq.
  - unfold persisted_id, truthy_state. cbn [custom_content state].
    rewrite bool_decide_eq_false_2 by apply insert_non_empty.
    unfold state_get. by rewrite <- Hkey, lookup_insert_eq.
Qed.

End RoundsMore.

(** ** More on the UMS gateway *)

Section GatewayMore.
Context `{B : Backends}.

Lemma persisted_id_carrying role text id :
  persisted_id (carrying role text (Some {[ _UMS_CONVERSATION_ID := id ]})) = id.
Proof.
  unfold persisted_id, truthy_state, carrying. cbn [custom_content state].
  rewrite bool_decide_eq_false_2 by apply insert_non_empty.
  unfold state_get. by rewrite lookup_singleton_eq.
Qed.

(** The four ways [response] can go, once the identifier to use is known. *)
Lemma response_with_id request extra s id s0 :
  (if negb (truthy (__get_ums_conversation_id request))
   then new_id ← __create_ums_conversation; mret (SStr new_id)
   else mret (__get_ums_conversation_id request)) s = (Ok id, s0) →
  response request extra s =
  match last (messages request) with
  | None => (Raise (mkExc IndexError "list index out of range"), s0)
  | Some last_message =>
      match call_ums_agent id (augmented_message last_message extra) (world s0) with
      | (Returns content, w) =>
          (Ok (mkMessage ASSISTANT content None),
           mkCoordinator w (gpa_intermediate_state s0) (ums_conversation_id s0)
             (Some {[ _UMS_CONVERSATION_ID := id ]})
             (trace s0 ++ [CalledUMS id (augmented_message last_message extra)]))
      | (Raises e, w) =>
          (Raise e,
           mkCoordinator w (gpa_intermediate_state s0) (ums_conversation_id s0)
             (choice_state s0)
             (trace s0 ++ [CalledUMS id (augmented_message last_message extra)]))
      end
  end.
Proof.
  intros Hid. unfold response. rewrite bind_eq, Hid, bind_eq.
  unfold last_item. destruct (last (messages request)) as [last_message|];
    cbn [lift]; [|done].
  rewrite bind_eq. unfold __call_ums_agent, outbound.
  fold (augmented_message last_message extra).
  by destruct (call_ums_agent _ _ _) as [[content|e] w].
Qed.

(** X15. Without a truthy identifier in the history, [response] creates a
    conversation, sends the chat call with the new identifier and, when that
    returns, writes exactly that identifier to the choice and returns the
    content as an assistant message. *)
Theorem response_opens_a_session (request : Request) (extra : option string)
    (s : Coordinator) (last_message : Message) (new_id content : string)
    (w1 w2 : World) :
  truthy (__get_ums_conversation_id request) = false →
  last (messages request) = Some last_message →
  create_ums_conversation (world s) = (Returns new_id, w1) →
  call_ums_agent (SStr new_id) (augmented_message last_message extra) w1
  = (Returns content, w2) →
  response request extra s
  = (Ok (mkMessage ASSISTANT content None),
     mkCoordinator w2 (gpa_intermediate_state s) (ums_conversation_id s)
       (Some {[ _UMS_CONVERSATION_ID := SStr new_id ]})
       (trace s ++ [CreatedUMSConversation;
                    CalledUMS (SStr new_id) (augmented_message last_message extra)])).
Proof.
  intros Hid Hlast Hcreate Hcall.
  rewrite (response_with_id request extra s (SStr new_id)
             (mkCoordinator w1 (gpa_intermediate_state s) (ums_conversation_id s)
                (choice_state s) (trace s ++ [CreatedUMSConversation]))).
  - rewrite Hlast. cbn [world]. rewrite Hcall. cbn. by rewrite <- app_assoc.
  - rewrite Hid. cbn [negb]. rewrite bind_eq.
    unfold __create_ums_conversation, outbound. by rewrite Hcreate.
Qed.

(** X16. On an empty history [response] has no identifier to recover, so it
    creates a conversation, and then raises [IndexError] on
    [request.messages[-1]]: the conversation was created for nothing, no chat
    call is made and nothing is written to the choice. *)
Theorem response_on_empty_history (extra : option string) (s : Coordinator)
    (new_id : string) (w1 : World) :
  create_ums_conversation (world s) = (Returns new_id, w1) →
  response (mkRequest []) extra s
  = (Raise (mkExc IndexError "list index out of range"),
     mkCoordinator w1 (gpa_intermediate_state s) (ums_conversation_id s)
       (choice_state s) (trace s ++ [CreatedUMSConversation])).
Proof.
  intros Hcreate.
  rewrite (response_with_id (mkRequest []) extra s (SStr new_id)
             (mkCoordinator w1 (gpa_intermediate_state s) (ums_conversation_id s)
                (choice_state s) (trace s ++ [CreatedUMSConversation]))); [done|].
  cbn. rewrite bind_eq. unfold __create_ums_conversation, outbound.
  by rewrite Hcreate.
Qed.

(** What [response] leaves behind, by outcome. *)
Lemma response_outcome request extra s :
  match response request extra s with
  | (Ok message, s') =>
      ∃ id user_message evs,
        choice_state s' = Some {[ _UMS_CONVERSATION_ID := id ]}
        ∧ trace s' = trace s ++ evs ++ [CalledUMS id user_message]
        ∧ msg_role message = ASSISTANT
        ∧ (truthy (__get_ums_conversation_id request) = true →
             id = __get_ums_conversation_id request ∧ evs = [])
        ∧ (truthy (__get_ums_conversation_id request) = false →
             evs = [CreatedUMSConversation])
  | (_, s') => choice_state s' = choice_state s
  end.
Proof.
  destruct (truthy (__get_ums_conversation_id request)) eqn:Hid.
  - rewrite (response_with_id request extra s (__get_ums_conversation_id request) s)
      by (by rewrite Hid).
    destruct (last (messages request)) as [last_message|]; [|done].
    destruct (call_ums_agent _ _ _) as [[content|e] w]; [|done].
    eexists _, _, []. cbn. repeat split; try done.
  - destruct (create_ums_conversation (world s)) as [[new_id|e] w1] eqn:Hcreate.
    + rewrite (response_with_id request extra s (SStr new_id)
                 (mkCoordinator w1 (gpa_intermediate_state s)
                    (ums_conversation_id s) (choice_state s)
                    (trace s ++ [CreatedUMSConversation]))).
      * destruct (last (messages request)) as [last_message|]; [|done].
        destruct (call_ums_agent _ _ _) as [[content|e] w]; [|done].
        eexists _, _, [CreatedUMSConversation]. cbn.
        repeat split; try done. by rewrite <- app_assoc.
      * rewrite Hid. cbn [negb]. rewrite bind_eq.
        unfold __create_ums_conversation, outbound. by rewrite Hcreate.
    + unfold response. rewrite Hid. cbn [negb]. rewrite !bind_eq.
      unfold __create_ums_conversation, outbound. by rewrite Hcreate.
Qed.

(** X17. [response] writes the state of the choice exactly when it returns a
    message; the identifier it writes is the one its chat call used, and a
    session recovered from the history is carried forward unchanged. When
    [response] raises (creation failed, empty history, chat call failed) the
    state of the choice is as it was, so an identifier created just before a
    failing chat call is not persisted. *)
Theorem response_persists_on_success_only (request : Request)
    (extra : option string) (s : Coordinator) :
  match response request extra s with
  | (Ok message, s') =>
      ∃ id user_message evs,
        choice_state s' = Some {[ _UMS_CONVERSATION_ID := id ]}
        ∧ trace s' = trace s ++ evs ++ [CalledUMS id user_message]
        ∧ (truthy (__get_ums_conversation_id request) = true →
             id = __get_ums_conversation_id request)
  | (_, s') => choice_state s' = choice_state s
  end.
Proof.
  pose proof (response_outcome request extra s) as H.
  destruct (response request extra s) as [[message|e|] s']; [|done..].
  destruct H as (id & user_message & evs & Hc & Ht & _ & Hrec & _).
  exists id, user_message, evs. repeat split; try done.
  intros Hid. by destruct (Hrec Hid).
Qed.

(** X18. A session survives the turns: when [response] returned and the state
    it wrote to the choice is carried by the first message with an identifier
    of a later history, the gateway recovers from that history the
    identifier its chat call used, provided it is truthy, and creates no
    conversation. *)
Theorem response_session_round_trip (request : Request) (extra : option string)
    (s s' : Coordinator) (message : Message) (role : Role) (text : string)
    (before after : list Message) :
  response request extra s = (Ok message, s') →
  Forall (λ m, truthy (persisted_id m) = false) before →
  ∃ id user_message,
    last (trace s') = Some (CalledUMS id user_message)
    ∧ (truthy id = true →
         let later := mkRequest (before ++ carrying role text (choice_state s')
                                 :: after) in
         __get_ums_conversation_id later = id
         ∧ ∀ extra' c, ∃ user_message',
             trace (response later extra' c).2
             = trace c ++ [CalledUMS id user_message']).
Proof.
  intros Hrun Hbefore. pose proof (response_outcome request extra s) as H.
  rewrite Hrun in H. destruct H as (id & user_message & evs & Hc & Ht & _).
  exists id, user_message. split.
  - rewrite Ht, app_assoc. apply last_snoc.
  - intros Htruthy later.
    assert (Hget : __get_ums_conversation_id later = id).
    { unfold __get_ums_conversation_id, later. cbn [messages]. rewrite Hc.
      rewrite scan_history_first; [apply persisted_id_carrying | done |].
      by rewrite persisted_id_carrying. }
    split; [done|]. intros extra' c. rewrite <- Hget.
    apply response_recovered; [by rewrite Hget|].
    unfold later. cbn [messages]. by destruct before.
Qed.

End GatewayMore.

(** ** The prompts and the aggregation stream *)

Section PromptsMore.
Context `{B : Backends}.

Lemma string_app_assoc (a b c : string) : ((a ++ b) ++ c = a ++ (b ++ c))%string.
Proof.
  induction a as [|x a IH]; [done|].
  change (String x ((a ++ b) ++ c) = String x (a ++ (b ++ c)))%string.
  by rewrite IH.
Qed.

Lemma string_app_nil_r (a : string) : (a ++ "" = a)%string.
Proof.
  induction a as [|x a IH]; [done|].
  change (String x (a ++ "") = String x a)%string. by rewrite IH.
Qed.

Lemma prepare_messages_eq request system_prompt :
  _prepare_messages request system_prompt
  = mkMessage SYSTEM system_prompt None :: (prepare_message <$> messages request).
Proof.
  unfold _prepare_messages. generalize (mkMessage SYSTEM system_prompt None).
  intros m0.
  assert (H : ∀ l acc, foldl (λ msgs msg, msgs ++ [prepare_message msg]) acc l
                       = acc ++ (prepare_message <$> l)).
  { induction l as [|x l IH]; intros acc; cbn [foldl].
    - by rewrite fmap_nil, app_nil_r.
    - by rewrite IH, fmap_cons, <- app_assoc. }
  by rewrite H.
Qed.

(** X19. [_prepare_messages] puts the system prompt first and then one
    message per message of the history, in order, with the same role and
    content; a user message never keeps its custom content, and a message of
    another role is passed as it is. *)
Theorem prepare_messages_shape (request : Request) (system_prompt : string) :
  let msgs := _prepare_messages request system_prompt in
  length msgs = S (length (messages request))
  ∧ msgs !! 0%nat = Some (mkMessage SYSTEM system_prompt None)
  ∧ ∀ i msg, messages request !! i = Some msg →
      ∃ m, msgs !! S i = Some m
        ∧ msg_role m = msg_role msg
        ∧ msg_content m = msg_content msg
        ∧ (msg_role msg = USER → custom_content m = None)
        ∧ (msg_role msg ≠ USER → m = msg).
Proof.
  intros msgs. unfold msgs. rewrite prepare_messages_eq. cbn [length].
  rewrite length_fmap. split; [done|]. split; [done|].
  intros i msg Hi. exists (prepare_message msg).
  split; [by rewrite lookup_cons, list_lookup_fmap, Hi|].
  unfold prepare_message.
  destruct (msg_role msg) eqn:Hrole, (custom_content msg) eqn:Hcc; cbn;
    repeat split; try done; try congruence.
Qed.

Lemma update_last_content_snoc (init : list Message) (m : Message) f :
  update_last_content (init ++ [m]) f
  = Ok (init ++ [mkMessage (msg_role m) (f (msg_content m)) (custom_content m)]).
Proof.
  unfold update_last_content. rewrite last_snoc, length_app. cbn [length].
  replace (length init + 1 - 1)%nat with (length init) by lia.
  by rewrite take_app_length.
Qed.

Lemma prepare_messages_snoc history last_message system_prompt :
  _prepare_messages (mkRequest (history ++ [last_message])) system_prompt
  = (mkMessage SYSTEM system_prompt None :: (prepare_message <$> history))
    ++ [prepare_message last_message].
Proof. rewrite prepare_messages_eq. cbn [messages]. by rewrite fmap_app. Qed.

(** X20. The prompt of a decomposition call on a history that is not empty:
    the system prompt first, the prepared history, and as last message the
    prepared last message of the history, whose content is kept as it is in
    the first round and is preceded by the block of all previous results and
    a separator in later rounds. No other message is changed and nothing is
    raised. *)
Theorem decomposition_prompt (system_prompt : string) (history : list Message)
    (last_message : Message) (previous_results : list TaskResult) :
  let m := prepare_message last_message in
  decomposition_messages system_prompt (mkRequest (history ++ [last_message]))
                         previous_results
  = Ok (mkMessage SYSTEM system_prompt None :: (prepare_message <$> history)
        ++ [mkMessage (msg_role m)
              (if bool_decide (previous_results = []) then msg_content m
               else (results_context ("## Results from previous tasks:" ++ nl ++ nl)
                                     previous_results
                     ++ nl ++ "---" ++ nl ++ nl ++ msg_content m)%string)
              (custom_content m)]).
Proof.
  intros m. unfold decomposition_messages. rewrite prepare_messages_snoc.
  unfold last_item. cbn [messages]. rewrite last_snoc.
  destruct (bool_decide (previous_results = [])); cbn [mbind outcome_bind].
  - by destruct (prepare_message last_message).
  - by rewrite update_last_content_snoc.
Qed.

(** X21. On an empty history the two prompts differ: [_decompose_task] raises
    [IndexError] before any call is made, whatever the previous results,
    while the aggregation prompt is a single system message in which the
    system prompt itself stands as the original user request. *)
Theorem prompts_on_empty_history (system_prompt : string)
    (results : list TaskResult) :
  decomposition_messages system_prompt (mkRequest []) results
  = Raise (mkExc IndexError "list index out of range")
  ∧ aggregation_messages system_prompt (mkRequest []) results
    = Ok [mkMessage SYSTEM
            (results_context ("# Tasks Results:" ++ nl ++ nl) results
             ++ nl ++ "---" ++ nl ++ nl
             ++ "# Original User Request:" ++ nl ++ system_prompt ++ nl ++ nl
             ++ "Please synthesize the agent results into a coherent response for the user.")%string
            None].
Proof.
  split; [|done]. unfold decomposition_messages.
  destruct (bool_decide (results = [])); done.
Qed.

(** X22. The prompt of the aggregation call on a history that is not empty:
    the system prompt first, the prepared history, and as last message the
    prepared last message of the history with its content replaced by the
    block of results, the original content under its heading, and the
    instruction to synthesize; the role of that message is kept. *)
Theorem aggregation_prompt (system_prompt : string) (history : list Message)
    (last_message : Message) (task_results : list TaskResult) :
  let m := prepare_message last_message in
  aggregation_messages system_prompt (mkRequest (history ++ [last_message]))
                       task_results
  = Ok (mkMessage SYSTEM system_prompt None :: (prepare_message <$> history)
        ++ [mkMessage (msg_role m)
              (results_context ("# Tasks Results:" ++ nl ++ nl) task_results
               ++ nl ++ "---" ++ nl ++ nl
               ++ "# Original User Request:" ++ nl ++ msg_content m ++ nl ++ nl
               ++ "Please synthesize the agent results into a coherent response for the user.")%string
              (custom_content m)]).
Proof.
  intros m. unfold aggregation_messages.
  by rewrite prepare_messages_snoc, update_last_content_snoc.
Qed.

Lemma collect_chunks_eq chunks : ∀ stage choice content,
  collect_chunks chunks stage choice content
  = ((stage ++ stream_text chunks)%string,
     (choice ++ stream_text chunks)%string,
     (content ++ stream_text chunks)%string).
Proof.
  unfold stream_text.
  induction chunks as [|chunk rest IH]; intros stage choice content;
    cbn [collect_chunks omap list_omap foldr].
  - by rewrite !string_app_nil_r.
  - destruct (chunk_text chunk) as [text|]; cbn [foldr]; rewrite IH.
    + by rewrite !string_app_assoc.
    + done.
Qed.

(** X23. The aggregation stream: the content of the returned message is the
    concatenation, in order, of the texts of the chunks (the content of the
    delta of the first choice, when there is one and it is not empty); the
    same text, no more and no less, is appended to the choice and to the
    stage; a stream without text gives the empty content; and reading a
    stream in two parts gives the same as reading it whole. *)
Theorem aggregation_stream (chunks chunks' : list Chunk) (stage choice : string) :
  collect_chunks chunks stage choice ""
  = ((stage ++ stream_text chunks)%string,
     (choice ++ stream_text chunks)%string,
     stream_text chunks)
  ∧ (Forall (λ chunk, chunk_text chunk = None) chunks →
       stream_text chunks = "")
  ∧ stream_text (chunks ++ chunks')
    = (stream_text chunks ++ stream_text chunks')%string.
Proof.
  split; [by rewrite collect_chunks_eq|]. split.
  - unfold stream_text. induction 1 as [|chunk rest Hnone _ IH]; [done|].
    cbn [omap list_omap]. by rewrite Hnone.
  - unfold stream_text. rewrite omap_app.
    induction (omap chunk_text chunks) as [|t ts IH]; cbn [foldr app]; [done|].
    by rewrite IH, string_app_assoc.
Qed.

End PromptsMore.

(** ** More on the stream of the UMS agent *)

Section UMSStreamMore.
Variable json_loads : string → option Json.

(** X24. Nothing after the first [data: [DONE]] line is read: the lines that
    follow it, well formed or not, change neither the content returned, nor
    the exception raised, nor the stage. *)
Theorem done_ends_the_stream (pre post : list string) (stage content : string) :
  read_lines json_loads (pre ++ "data: [DONE]" :: post) stage content
  = read_lines json_loads pre stage content.
Proof.
  revert stage content.
  induction pre as [|line pre IH]; intros stage content; [done|].
  cbn [app read_lines].
  destruct (startswith line "data: "); [|apply IH].
  destruct (String.eqb (string_from 6 line) "[DONE]"); [done|].
  destruct (json_loads (string_from 6 line)) as [data|]; [|apply IH].
  destruct (chunk_content data) as [[text|]|e|]; try done; apply IH.
Qed.

Lemma read_lines_skip (pre post : list string) (line : string) :
  (∀ stage content,
     read_lines json_loads (line :: post) stage content
     = read_lines json_loads post stage content) →
  ∀ stage content,
    read_lines json_loads (pre ++ line :: post) stage content
    = read_lines json_loads (pre ++ post) stage content.
Proof.
  intros Hskip. induction pre as [|l pre IH]; intros stage content.
  - apply Hskip.
  - cbn [app read_lines].
    destruct (startswith l "data: "); [|apply IH].
    destruct (String.eqb (string_from 6 l) "[DONE]"); [done|].
    destruct (json_loads (string_from 6 l)) as [data|]; [|apply IH].
    destruct (chunk_content data) as [[text|]|e|]; try done; apply IH.
Qed.

Lemma eqb_DONE (s : string) : s ≠ "[DONE]" → String.eqb s "[DONE]" = false.
Proof. intros Hne. by apply String.eqb_neq. Qed.

(** X25. The lines that the loop passes over: a line that does not start with
    [data: ], a line whose payload [json.loads] cannot decode, and a chunk
    that is a dict with the key [conversation_id] (whatever else it holds,
    text included). Taking such a line out of the stream, wherever it stands,
    changes nothing. *)
Theorem ignored_lines (pre post : list string) (line : string)
    (stage content : string) :
  startswith line "data: " = false
  ∨ (string_from 6 line ≠ "[DONE]"
     ∧ (json_loads (string_from 6 line) = None
        ∨ ∃ d, json_loads (string_from 6 line) = Some (JObj d)
               ∧ is_Some (d !! "conversation_id"))) →
  read_lines json_loads (pre ++ line :: post) stage content
  = read_lines json_loads (pre ++ post) stage content.
Proof.
  intros Hline. apply read_lines_skip. clear stage content.
  intros stage content. cbn [read_lines].
  destruct Hline as [-> | [Hne [Hnone | (d & Hd & Hid)]]]; [done| |].
  - destruct (startswith line "data: "); [|done].
    by rewrite (eqb_DONE _ Hne), Hnone.
  - destruct (startswith line "data: "); [|done].
    rewrite (eqb_DONE _ Hne), Hd. unfold chunk_content, py_in.
    rewrite (bool_decide_eq_true_2 _ Hid). done.
Qed.

Lemma chunk_content_text (data : Json) (text : string) :
  carries_text data text →
  chunk_content data = Ok (if String.eqb text "" then None else Some text).
Proof.
  intros (d & c & rest & dl & -> & Hid & Hch & Hdelta & Hcontent).
  unfold chunk_content, py_in.
  assert (Hno : ¬ is_Some (d !! "conversation_id"))
    by (rewrite Hid; by intros [? ?]).
  assert (Hyes : is_Some (d !! "choices")) by (by rewrite Hch).
  rewrite (bool_decide_eq_false_2 _ Hno). cbn [mbind outcome_bind].
  rewrite (bool_decide_eq_true_2 _ Hyes).
  unfold py_getitem. rewrite Hch. cbn [mbind outcome_bind py_len length].
  change (0 <? Z.of_nat (S (length rest))) with true.
  cbn [py_first mbind outcome_bind py_get]. rewrite Hdelta.
  cbn [default from_option id mbind outcome_bind py_get]. rewrite Hcontent.
  cbn [default from_option id mbind outcome_bind truthy_json].
  destruct (String.eqb text ""); done.
Qed.

Lemma read_lines_delivers (line text : string) (rest : list string)
    (stage content : string) :
  delivers json_loads line text →
  read_lines json_loads (line :: rest) stage content
  = read_lines json_loads rest (stage ++ text) (content ++ text).
Proof.
  intros (Hprefix & Hne & data & Hdata & Hcarries). cbn [read_lines].
  rewrite Hprefix, (eqb_DONE _ Hne), Hdata, (chunk_content_text _ _ Hcarries).
  destruct (String.eqb text "") eqn:Hempty; [|done].
  apply String.eqb_eq in Hempty as ->. by rewrite !string_app_nil_r.
Qed.

(** X26. A run of lines of the documented shape, each [data: ] followed by a
    chunk whose first choice has a delta with a string content (empty or
    not), adds the concatenation of these contents, in order, to the content
    and to the stage, and the loop goes on with the lines that follow. *)
Theorem stream_text_is_concatenated (lines : list string) (texts : list string)
    (rest : list string) (stage content : string) :
  Forall2 (delivers json_loads) lines texts →
  read_lines json_loads (lines ++ rest) stage content
  = read_lines json_loads rest (stage ++ join texts) (content ++ join texts).
Proof.
  intros Hlines. revert stage content.
  induction Hlines as [|line text lines texts Hline _ IH]; intros stage content.
  - cbn [app join foldr]. by rewrite !string_app_nil_r.
  - cbn [app join foldr]. rewrite (read_lines_delivers _ _ _ _ _ Hline), IH.
    unfold join. by rewrite !string_app_assoc.
Qed.

(** X27. A payload that decodes to [null], a boolean or a number is not
    passed over: the test [in] raises [TypeError], which the
    [except json.JSONDecodeError] of the loop does not catch. The call raises,
    the content read so far is not returned, and the stage keeps what it was
    given. *)
Theorem scalar_payload_aborts (line : string) (v : Json) (post : list string)
    (stage content : string) :
  startswith line "data: " = true →
  string_from 6 line ≠ "[DONE]" →
  json_loads (string_from 6 line) = Some v →
  is_scalar v = true →
  ∃ e, read_lines json_loads (line :: post) stage content = (Raise e, stage)
       ∧ exc_class e = TypeError.
Proof.
  intros Hprefix Hne Hv Hscalar. cbn [read_lines].
  rewrite Hprefix, (eqb_DONE _ Hne), Hv.
  destruct v; try discriminate Hscalar; eexists; split; done.
Qed.

(** X28. The default of [.get('delta', {})] covers a choice without the key
    [delta], not a choice whose delta is [null]: the first is passed over,
    the second raises [AttributeError] out of the loop. *)
Theorem null_delta_aborts (line : string) (d c : gmap string Json)
    (choices_rest : list Json) (stage content : string) :
  startswith line "data: " = true →
  string_from 6 line ≠ "[DONE]" →
  json_loads (string_from 6 line) = Some (JObj d) →
  d !! "conversation_id" = None →
  d !! "choices" = Some (JArr (JObj c :: choices_rest)) →
  (c !! "delta" = None →
     ∀ rest, read_lines json_loads (line :: rest) stage content
             = read_lines json_loads rest stage content)
  ∧ (c !! "delta" = Some JNull →
     ∀ rest, read_lines json_loads (line :: rest) stage content
             = (Raise (AttributeError JNull "get"), stage)).
Proof.
  intros Hprefix Hne Hd Hid Hch.
  assert (Hstart :
    ∀ rest, read_lines json_loads (line :: rest) stage content
    = match (delta ← py_get (JObj c) "delta" (JObj ∅);
             delta_content ← py_get delta "content" JNull;
             if truthy_json delta_content
             then text ← py_concat "" delta_content; Ok (Some text)
             else Ok None) with
      | Ok (Some text) =>
          read_lines json_loads rest (stage ++ text) (content ++ text)
      | Ok None => read_lines json_loads rest stage content
      | Raise e => (Raise e, stage)
      | OutOfFuel => (OutOfFuel, stage)
      end).
  { intros rest. cbn [read_lines].
    rewrite Hprefix, (eqb_DONE _ Hne), Hd. unfold chunk_content, py_in.
    assert (Hno : ¬ is_Some (d !! "conversation_id"))
      by (rewrite Hid; by intros [? ?]).
    assert (Hyes : is_Some (d !! "choices")) by (by rewrite Hch).
    rewrite (bool_decide_eq_false_2 _ Hno). cbn [mbind outcome_bind].
    rewrite (bool_decide_eq_true_2 _ Hyes).
    unfold py_getitem. rewrite Hch. cbn [mbind outcome_bind py_len length].
    change (0 <? Z.of_nat (S (length choices_rest))) with true.
    cbn [py_first mbind outcome_bind]. done. }
  split; intros Hdelta rest; rewrite Hstart;
    cbn [py_get]; rewrite Hdelta; cbn [default from_option id mbind outcome_bind py_get];
    [by rewrite lookup_empty | done].
Qed.

End UMSStreamMore.

(** ** Instances of the further properties *)

Lemma scheduler_order_shape_witness :
  (∃ later, [1; 2; 4; 3] = initial_queue demo_forest ++ later)
  ∧ (∀ k, k ∈ [1; 2; 4; 3] → k ∈ ids demo_forest)
  ∧ (length [1; 2; 4; 3] ≤ length demo_forest)%nat.
Proof. apply (scheduler_order_shape demo_forest [1; 2; 4; 3]). reflexivity. Defined.

Lemma scheduler_keeps_list_order_witness :
  _topological_sort [st 2 None; st 1 None] = Ok [2; 1].
Proof.
  apply (scheduler_keeps_list_order [st 2 None; st 1 None]).
  intros s Hs. repeat (apply elem_of_cons in Hs as [->|Hs]); try reflexivity.
  by apply elem_of_nil in Hs.
Defined.

Lemma scheduler_error_names_first_dangling_witness :
  _topological_sort demo_dangling = Raise (mkExc KeyError "7").
Proof.
  apply (scheduler_error_names_first_dangling [st 1 None] [] (st 2 (Some 7)) 7).
  - intros s' d' Hs' Hd'. apply elem_of_cons in Hs' as [->|Hs'].
    + discriminate Hd'.
    + by apply elem_of_nil in Hs'.
  - reflexivity.
  - apply (bool_decide_unpack _). vm_compute. exact I.
Defined.

Lemma scheduler_orders_siblings_witness :
  ∃ order, _topological_sort demo_forest = Ok order
           ∧ siblings_ascend demo_forest order.
Proof.
  exact (scheduler_orders_siblings demo_forest demo_forest_NoDup demo_forest_closed).
Defined.

Lemma gateway_reply_is_recorded_witness :
  let B := demo_backends one_round gpa_with_number in
  let e := mkExc TypeError "'int' object is not iterable" in
  let s1 := @mkCoordinator B O [] SNone None [CalledGPA ""] in
  merge_state (B := B)
    (mkMessage ASSISTANT "X"
       (Some (mkCustomContent (Some {[ "gpa_messages" := SInt 5 ]})))) s1
  = (Raise e, s1)
  ∧ run_task demo_request {[ 1 := st 1 None ]} [] 1 (@fresh B O)
    = (Ok [(1, failed (st 1 None) e)], s1).
Proof.
  intros B e s1.
  destruct (gateway_reply_is_recorded (B := B) demo_request
              {[ 1 := st 1 None ]} [] 1 (st 1 None)
              (mkMessage ASSISTANT "X"
                 (Some (mkCustomContent (Some {[ "gpa_messages" := SInt 5 ]}))))
              [] (@fresh B O) s1)
    as (r & s2 & Hrun & _ & _ & Hcases & _).
  - apply lookup_singleton_eq.
  - reflexivity.
  - change (merge_state _ s1) with (@Raise unit e, s1) in Hcases.
    destruct Hcases as (-> & -> & _). split; [reflexivity | exact Hrun].
Defined.

Lemma executor_results_follow_order_witness :
  let B := quiet in
  ∃ order, _topological_sort demo_forest = Ok order
    ∧ match (_execute_subtasks demo_request demo_forest (@fresh B O)).1 with
      | Ok results =>
          (λ r, task_id (task r)) <$> results = order
          ∧ Forall (λ r, task r ∈ demo_forest) results
          ∧ ∃ evs, trace (_execute_subtasks demo_request demo_forest
                                            (@fresh B O)).2
                   = trace (@fresh B O) ++ evs
              ∧ Forall (λ ev, is_CalledGPA ev = true) evs
              ∧ length evs
                = length (filter (λ r, agent_name (task r) = GPA) results)
      | Raise e => is_Exception e = false
      | OutOfFuel => False
      end.
Proof.
  intros B.
  exact (executor_results_follow_order (B := B) demo_request demo_forest
           (@fresh B O) demo_forest_NoDup demo_forest_closed).
Defined.

Lemma failing_plan_proceeds :
  let B := demo_backends failing_plan gpa_echo in
  proceeds demo_request (0, [], fresh O)
    (0 + 1,
     [] ++ [mkTaskResult (st 1 None) (mkAgentResult 1 GPA "X" true None)],
     mkCoordinator 1%nat [] SNone None [Decomposed []; CalledGPA ""]).
Proof.
  intros B.
  eapply (proceeds_round (B := B) demo_request 0 [] (@fresh B O)
            (mkTaskDecomposition [st 1 None] false)).
  - done.
  - reflexivity.
  - done.
  - reflexivity.
  - vm_compute. reflexivity.
Qed.

Lemma decomposition_failure_is_fatal_witness :
  let B := demo_backends failing_plan gpa_echo in
  let done_1 := mkTaskResult (st 1 None) (mkAgentResult 1 GPA "X" true None) in
  handle_request demo_request (@fresh B O)
  = (Raise (mkExc ValueError "Expecting value: line 1 column 1 (char 0)"),
     @mkCoordinator B 2%nat [] SNone None
       [Decomposed []; CalledGPA ""; Decomposed [done_1]]).
Proof.
  intros B done_1.
  apply (decomposition_failure_is_fatal (B := B) demo_request (@fresh B O)
           1 [done_1]
           (@mkCoordinator B 1%nat [] SNone None [Decomposed []; CalledGPA ""])
           (mkExc ValueError "Expecting value: line 1 column 1 (char 0)")
           (2%nat : @World B)).
  - apply rtc_once. exact failing_plan_proceeds.
  - reflexivity.
  - reflexivity.
Defined.

Lemma never_stop_rounds :
  let B := demo_backends never_stop gpa_echo in
  ∃ task_calls task_results sn,
    nsteps (proceeds demo_request) (Z.to_nat max_task_calls)
           (0, [], @fresh B O) (task_calls, task_results, sn)
    ∧ length task_results = 20%nat.
Proof.
  intros B. eexists _, _, _. split.
  - do 10 (eapply nsteps_l;
           [eapply (proceeds_round (B := B));
            [reflexivity | vm_compute; reflexivity | discriminate
            | reflexivity | vm_compute; reflexivity] |]).
    apply nsteps_O.
  - reflexivity.
Qed.

Lemma cap_exhaustion_goes_to_aggregation_witness :
  let B := demo_backends never_stop gpa_echo in
  ∃ task_results sn,
    round_loop (Z.to_nat max_task_calls) demo_request 0 [] (@fresh B O)
    = (Ok task_results, sn)
    ∧ trace (handle_request demo_request (@fresh B O)).2
      = trace sn ++ [Aggregated task_results]
    ∧ length task_results = 20%nat.
Proof.
  intros B.
  destruct never_stop_rounds as (task_calls & task_results & sn & Hsteps & Hlen).
  destruct (cap_exhaustion_goes_to_aggregation (B := B) demo_request
              (@fresh B O) task_calls task_results sn Hsteps)
    as (Hloop & Htrace & _).
  exists task_results, sn. split; [exact Hloop | split; [exact Htrace | exact Hlen]].
Defined.

Lemma persisted_session_is_recovered_witness :
  let B := demo_backends one_round gpa_with_session in
  let s' := (handle_request demo_request (@fresh B O)).2 in
  __get_ums_conversation_id
    (mkRequest ([user_says "hi"]
                ++ mkMessage ASSISTANT "done"
                     (Some (mkCustomContent (choice_state s')))
                :: [user_says "and now?"]))
  = SStr "abc".
Proof.
  intros B s'.
  apply (persisted_session_is_recovered (B := B) demo_request (@fresh B O) s'
           (mkMessage ASSISTANT "done" None) ASSISTANT "done"
           [user_says "hi"] [user_says "and now?"]).
  - reflexivity.
  - vm_compute. reflexivity.
  - vm_compute. reflexivity.
  - repeat constructor.
Defined.

Lemma response_opens_a_session_witness :
  let B := quiet in
  response demo_request (Some "Be brief.") (@fresh B O)
  = (Ok (mkMessage ASSISTANT "ok" None),
     @mkCoordinator B O [] SNone
       (Some {[ _UMS_CONVERSATION_ID := SStr "fresh-id" ]})
       [CreatedUMSConversation;
        CalledUMS (SStr "fresh-id")
                  (augmented_message (user_says "hi") (Some "Be brief."))]).
Proof.
  intros B.
  apply (response_opens_a_session (B := B) demo_request (Some "Be brief.")
           (@fresh B O) (user_says "hi") "fresh-id" "ok"
           (O : @World B) (O : @World B)).
  - reflexivity.
  - reflexivity.
  - reflexivity.
  - reflexivity.
Defined.

Lemma response_on_empty_history_witness :
  let B := quiet in
  response (mkRequest []) None (@fresh B O)
  = (Raise (mkExc IndexError "list index out of range"),
     @mkCoordinator B O [] SNone None [CreatedUMSConversation]).
Proof.
  intros B.
  apply (response_on_empty_history (B := B) None (@fresh B O) "fresh-id"
           (O : @World B)).
  reflexivity.
Defined.

Lemma response_session_round_trip_witness :
  let B := quiet in
  let s' := (response demo_request None (@fresh B O)).2 in
  ∃ id user_message,
    last (trace s') = Some (CalledUMS id user_message)
    ∧ (truthy id = true →
         let later := mkRequest ([] ++ carrying ASSISTANT "ok" (choice_state s')
                                 :: [user_says "again"]) in
         __get_ums_conversation_id later = id
         ∧ ∀ extra' c, ∃ user_message',
             trace (response later extra' c).2
             = trace c ++ [CalledUMS id user_message']).
Proof.
  intros B s'.
  apply (response_session_round_trip (B := B) demo_request None (@fresh B O) s'
           (mkMessage ASSISTANT "ok" None) ASSISTANT "ok" [] [user_says "again"]).
  - vm_compute. reflexivity.
  - constructor.
Defined.

Lemma text_chunk_carries (text : string) :
  carries_text (text_chunk (JStr text)) text.
Proof.
  exists {[ "choices" := JArr [JObj {[ "delta" := JObj {[ "content" := JStr text ]} ]}] ]},
         {[ "delta" := JObj {[ "content" := JStr text ]} ]}, [],
         {[ "content" := JStr text ]}.
  split; [reflexivity|]. split; [by apply lookup_singleton_ne|].
  split; [apply lookup_singleton_eq|]. split; apply lookup_singleton_eq.
Qed.

Lemma demo_delivers (payload text : string) :
  payload ≠ "[DONE]" →
  demo_json_loads payload = Some (text_chunk (JStr text)) →
  delivers demo_json_loads ("data: " ++ payload) text.
Proof.
  intros Hne Hload. split; [by destruct payload|]. split; [exact Hne|].
  exists (text_chunk (JStr text)). split; [exact Hload | apply text_chunk_carries].
Qed.

Lemma ignored_lines_witness :
  read_lines demo_json_loads
    (["data: chunk Hel"] ++ "data: conversation" :: ["data: chunk lo"]) "" ""
  = read_lines demo_json_loads (["data: chunk Hel"] ++ ["data: chunk lo"]) "" "".
Proof.
  apply (ignored_lines demo_json_loads ["data: chunk Hel"] ["data: chunk lo"]
           "data: conversation" "" "").
  right. split; [discriminate|]. right.
  exists {[ "conversation_id" := JStr "c-1" ]}.
  split; [reflexivity|]. eexists. apply lookup_singleton_eq.
Defined.

Lemma stream_text_is_concatenated_witness :
  read_lines demo_json_loads
    (["data: chunk Hel"; "data: chunk lo"]
     ++ ["data: conversation"; "data: [DONE]"]) "" ""
  = (Ok "Hello", "Hello").
Proof.
  etrans.
  - apply (stream_text_is_concatenated demo_json_loads
             ["data: chunk Hel"; "data: chunk lo"] ["Hel"; "lo"]
             ["data: conversation"; "data: [DONE]"] "" "").
    constructor;
      [apply (demo_delivers "chunk Hel" "Hel"); [discriminate | reflexivity]|].
    constructor;
      [apply (demo_delivers "chunk lo" "lo"); [discriminate | reflexivity]|].
    constructor.
  - vm_compute. reflexivity.
Defined.

Lemma scalar_payload_aborts_witness :
  ∃ e, read_lines demo_json_loads ["data: chunk Hel"; "data: null"] "" ""
       = (Raise e, "Hel")
       ∧ exc_class e = TypeError.
Proof.
  destruct (scalar_payload_aborts demo_json_loads "data: null" JNull []
              "Hel" "Hel") as (e & Hraise & Hclass);
    [reflexivity | discriminate | reflexivity | reflexivity |].
  exists e. split; [exact Hraise | exact Hclass].
Defined.

Lemma null_delta_aborts_witness :
  read_lines demo_json_loads ["data: null delta"; "data: chunk lo"] "" ""
  = (Raise (AttributeError JNull "get"), "").
Proof.
  apply (null_delta_aborts demo_json_loads "data: null delta"
           {[ "choices" := JArr [JObj {[ "delta" := JNull ]}] ]}
           {[ "delta" := JNull ]} [] "" "").
  - reflexivity.
  - discriminate.
  - reflexivity.
  - by apply lookup_singleton_ne.
  - apply lookup_singleton_eq.
  - apply lookup_singleton_eq.
Defined.
